(** * Octane-Core web client: bracket and roster state

    A shallow embedding of the bracket/roster logic of
    [web/frontend/src/App.jsx] and of the session of [AuthContext],
    together with the properties the specification states about it and
    further properties read off the code.

    The file has two parts.  Part I holds the definitions, one Rocq
    definition per source function, in modules named after the area of the
    source they come from.  Part II holds the lemmas and theorems.

    JavaScript data is modelled as the client receives it from JSON:
    - a nullable field is an [option];
    - an id is a number (database key) or a string (client-made key), see
      [Js.ident];
    - a plain object used as a dictionary is a [gmap] keyed by the property
      name, an array is a [list];
    - where the source copies an object and then assigns to the copy, the
      objects live in an explicit store, see [Bracket.store];
    - a string is the byte sequence of its UTF-8 encoding (every literal of
      the source is ASCII); a number is a [Z] that holds the value of the
      double, see [Js.toDouble] and [Js.numberToString]. *)

From Stdlib Require Import ZArith String Ascii DecimalString DecimalPos Lia Sorted.
From stdpp Require Import base tactics option list gmap strings.

Open Scope string_scope.
Open Scope list_scope.
Open Scope Z_scope.

(* ====================================================================== *)
(** * Part I.  Definitions *)
(* ====================================================================== *)

(** ** JavaScript values and the string primitives the client uses *)
Module Js.

(** An id as found in the JSON payloads: [5], ['new-1712'], ['discord:77'].
    JavaScript's numbers are doubles: an [n] that no double equals (there
    are such beyond 2^53) is the id of no payload. *)
Inductive ident : Type :=
| IdNum (n : Z)
| IdStr (s : string).

#[global] Instance ident_eq_dec : EqDecision ident.
Proof. solve_decision. Defined.

(** The decimal digits of an integer, with a leading '-' when negative. *)
Definition decimal (n : Z) : string := NilZero.string_of_int (Z.to_int n).

Definition numDigits (n : Z) : Z := Z.of_nat (String.length (decimal n)).

(** The double nearest to a natural number (ties to the even mantissa), as
    the engine computes the value of a run of digits.  Up to 2^53 every
    integer is a double.  [2^1024] stands for [Infinity]: it is what the
    rounding gives beyond the largest double, and like [Infinity] it
    exceeds every array length. *)
Definition toDouble (n : Z) : Z :=
  if n <=? 2 ^ 53 then n
  else
    let e := Z.log2 n - 52 in
    let q := Z.shiftr n e in
    let r := n - Z.shiftl q e in
    let half := Z.shiftl 1 (e - 1) in
    let q' := if (half <? r) || ((r =? half) && Z.odd q) then q + 1 else q in
    Z.min (Z.shiftl q' e) (2 ^ 1024).

(** [v] is read back as the double [x] (above 2^53): it lies within half
    the distance to the neighbouring doubles, bounds included when the
    mantissa of [x] is even. *)
Definition roundsTo (x v : Z) : bool :=
  let e := Z.log2 x - 52 in
  let q := Z.shiftr x e in
  let up := Z.shiftl 1 (e - 1) in
  let down := if q =? 2 ^ 52 then Z.shiftl 1 (e - 2) else up in
  if Z.even q then (x - down <=? v) && (v <=? x + up)
  else (x - down <? v) && (v <? x + up).

(** The multiple of the largest power of ten [p] that is read back as [x],
    the nearer one when two are. *)
Fixpoint shortestFrom (fuel : nat) (x p : Z) : Z :=
  match fuel with
  | O => x
  | S fuel' =>
      let lo := (x / p) * p in
      let hi := lo + p in
      let okLo := roundsTo x lo in
      let okHi := roundsTo x hi in
      if okLo && okHi then (if x - lo <=? hi - x then lo else hi)
      else if okLo then lo
      else if okHi then hi
      else shortestFrom fuel' x (p / 10)
  end.

(** The number with the fewest significant digits that denotes the double
    [x]: what [Number.prototype.toString] prints of it. *)
Definition shortest (x : Z) : Z :=
  let n := numDigits x in
  shortestFrom (Z.to_nat n) x (10 ^ (n - 1)).

Fixpoint stripZeros (fuel : nat) (v : Z) : Z :=
  match fuel with
  | O => v
  | S f => if (v mod 10 =? 0) && negb (v =? 0) then stripZeros f (v / 10) else v
  end.

(** The exponent form [d.ddde+k] of a positive integer. *)
Definition exponential (v : Z) : string :=
  let n := numDigits v in
  let s := decimal (stripZeros (Z.to_nat n) v) in
  match s with
  | String d rest =>
      String d (if bool_decide (rest = "") then "" else "." +:+ rest)
      +:+ "e+" +:+ decimal (n - 1)
  | EmptyString => EmptyString
  end.

(** [String(n)] for an integer-valued number: its digits up to 2^53; above,
    the shortest digits that denote the double, followed by zeros up to 21
    digits and in exponent form from 1e21 on. *)
Definition numberToString (n : Z) : string :=
  if Z.abs n <=? 2 ^ 53 then decimal n
  else
    let v := shortest (Z.abs n) in
    (if n <? 0 then "-" else "")
    +:+ (if numDigits v <=? 21 then decimal v else exponential v).

(** [String(v)] for an id: the rendering of a number, a string as is. *)
Definition toStr (v : ident) : string :=
  match v with
  | IdNum n => numberToString n
  | IdStr s => s
  end.

(** [a === b] on ids. *)
Definition strictEq (a b : ident) : bool := bool_decide (a = b).

(** Truthiness of a nullable id: [null], [undefined], [0] and [''] are falsy. *)
Definition truthyId (v : option ident) : bool :=
  match v with
  | None => false
  | Some (IdNum n) => negb (n =? 0)
  | Some (IdStr s) => negb (bool_decide (s = ""))
  end.

(** Truthiness of a nullable string. *)
Definition truthyStr (v : option string) : bool :=
  match v with
  | None => false
  | Some s => negb (bool_decide (s = ""))
  end.

(** Truthiness of a nullable number. *)
Definition truthyNum (v : option Z) : bool :=
  match v with
  | None => false
  | Some n => negb (n =? 0)
  end.

(** [a || b] *)
Definition orElse {A : Type} (truthy : option A -> bool) (a b : option A) : option A :=
  if truthy a then a else b.

(** [a ?? b] *)
Definition nullish {A : Type} (a b : option A) : option A :=
  match a with
  | Some _ => a
  | None => b
  end.

(** [s.startsWith(p)] *)
Definition startsWith (s p : string) : bool := String.prefix p s.

Fixpoint dropStr (n : nat) (s : string) : string :=
  match n, s with
  | O, _ => s
  | S n', String _ s' => dropStr n' s'
  | S _, EmptyString => EmptyString
  end.

(** [s.replace(pat, '')] with a string pattern: the first occurrence of
    [pat] is removed, a string without [pat] is returned as is. *)
Fixpoint removeFirst (pat s : string) : string :=
  if String.prefix pat s then dropStr (String.length pat) s
  else match s with
       | EmptyString => EmptyString
       | String c s' => String c (removeFirst pat s')
       end.

(** [s.split(sep)[0]] for a one-character separator. *)
Fixpoint beforeFirst (sep : ascii) (s : string) : string :=
  match s with
  | EmptyString => EmptyString
  | String c s' => if Ascii.eqb c sep then EmptyString else String c (beforeFirst sep s')
  end.

(** White space of one byte: TAB, LF, VT, FF, CR and the space. *)
Definition isSpace (c : ascii) : bool :=
  let n := nat_of_ascii c in
  (n =? 32)%nat || ((9 <=? n)%nat && (n <=? 13)%nat).

(** The first byte of the encodings of the other white-space characters. *)
Definition isSpaceLead (c : ascii) : bool :=
  let n := nat_of_ascii c in
  (n =? 194)%nat || (n =? 225)%nat || (n =? 226)%nat || (n =? 227)%nat || (n =? 239)%nat.

(** The number of bytes of the white-space character [s] starts with, [0]
    when it starts with none.  Beyond ASCII these are U+00A0, U+1680,
    U+2000 to U+200A, U+2028, U+2029, U+202F, U+205F, U+3000 and U+FEFF. *)
Definition spaceWidth (s : string) : nat :=
  match s with
  | EmptyString => 0
  | String c1 r1 =>
      if isSpace c1 then 1
      else if negb (isSpaceLead c1) then 0
      else
        match r1 with
        | String c2 r2 =>
            let n1 := nat_of_ascii c1 in
            let n2 := nat_of_ascii c2 in
            if (n1 =? 194)%nat && (n2 =? 160)%nat then 2
            else
              match r2 with
              | String c3 _ =>
                  let n3 := nat_of_ascii c3 in
                  if (n1 =? 225)%nat && (n2 =? 154)%nat && (n3 =? 128)%nat then 3
                  else if (n1 =? 226)%nat && (n2 =? 128)%nat
                          && (((128 <=? n3)%nat && (n3 <=? 138)%nat)
                              || (n3 =? 168)%nat || (n3 =? 169)%nat || (n3 =? 175)%nat)
                       then 3
                  else if (n1 =? 226)%nat && (n2 =? 129)%nat && (n3 =? 159)%nat then 3
                  else if (n1 =? 227)%nat && (n2 =? 128)%nat && (n3 =? 128)%nat then 3
                  else if (n1 =? 239)%nat && (n2 =? 187)%nat && (n3 =? 191)%nat then 3
                  else 0
              | EmptyString => 0
              end
        | EmptyString => 0
        end
  end%nat.

Fixpoint skipSpaceN (fuel : nat) (s : string) : string :=
  match fuel with
  | O => s
  | S fuel' =>
      match spaceWidth s with
      | O => s
      | w => skipSpaceN fuel' (dropStr w s)
      end
  end.

(** [s] without its leading white space. *)
Definition skipSpace (s : string) : string := skipSpaceN (String.length s) s.

Definition digitVal (c : ascii) : option Z :=
  let n := nat_of_ascii c in
  if (48 <=? n)%nat && (n <=? 57)%nat then Some (Z.of_nat n - 48) else None.

Definition hexVal (c : ascii) : option Z :=
  let n := nat_of_ascii c in
  if (48 <=? n)%nat && (n <=? 57)%nat then Some (Z.of_nat n - 48)
  else if (97 <=? n)%nat && (n <=? 102)%nat then Some (Z.of_nat n - 87)
  else if (65 <=? n)%nat && (n <=? 70)%nat then Some (Z.of_nat n - 55)
  else None.

(** The longest prefix of digits, read in the given base; [acc] is [None]
    until a first digit has been seen. *)
Fixpoint digitsAcc (val : ascii -> option Z) (base : Z) (s : string) (acc : option Z) : option Z :=
  match s with
  | EmptyString => acc
  | String c s' =>
      match val c with
      | Some d => digitsAcc val base s' (Some (base * default 0 acc + d))
      | None => acc
      end
  end.

(** [parseInt(s)] without a radix: leading white space, an optional sign,
    an optional [0x] prefix, then digits; [None] is [NaN].  The value of
    the digits is rounded to a double, see [toDouble] (beyond 20 digits the
    language lets an engine approximate; V8 rounds the exact value). *)
Definition parseInt (s : string) : option Z :=
  let s1 := skipSpace s in
  let '(neg, s2) :=
    match s1 with
    | String "-" r => (true, r)
    | String "+" r => (false, r)
    | _ => (false, s1)
    end in
  let mag :=
    match s2 with
    | String "0" (String x r) =>
        if Ascii.eqb x "x" || Ascii.eqb x "X" then digitsAcc hexVal 16 r None
        else digitsAcc digitVal 10 s2 None
    | _ => digitsAcc digitVal 10 s2 None
    end in
  (fun v => if neg then - toDouble v else toDouble v) <$> mag.

(** A value found in a JSON reply, as far as the client looks at it: by its
    truthiness and by [String(v)].  [VUndefined] is a property that is not
    there.  A number is given by its rendering [String(n)], an array or
    object by its rendering too: '' for [[]], '[object Object]' for an
    object. *)
Inductive value : Type :=
| VUndefined
| VNull
| VBool (b : bool)
| VNum (shown : string)
| VStr (s : string)
| VObject (shown : string).

#[global] Instance value_eq_dec : EqDecision value.
Proof. solve_decision. Defined.

(** Truthiness: [undefined], [null], [false], [0] and [''] are falsy. *)
Definition truthy (v : value) : bool :=
  match v with
  | VUndefined | VNull => false
  | VBool b => b
  | VNum shown => negb (bool_decide (shown = "0"))
  | VStr s => negb (bool_decide (s = ""))
  | VObject _ => true
  end.

(** [String(v)], the message of [new Error(v)]. *)
Definition toString (v : value) : string :=
  match v with
  | VUndefined => "undefined"
  | VNull => "null"
  | VBool b => if b then "true" else "false"
  | VNum shown => shown
  | VStr s => s
  | VObject shown => shown
  end.

(** [a || b] on values. *)
Definition orValue (a b : value) : value := if truthy a then a else b.

End Js.

(** ** The participants / standby view ([ParticipantsAndStandbyView]) *)
Module Roster.
Import Js.

(** A roster entry of the participants or standby payload.  The source's
    field [id] is [entry_id] here. *)
Record Entrant : Type := {
  entry_id : ident;
  display_name : string;
  list_type : option string;
  original_list_type : option string;
  source : option string
}.

(** The callbacks [App] hands to the view. *)
Inductive handler : Type :=
| removeParticipant | removeStandby
| renameParticipant | renameStandby
| reorderParticipants | reorderStandby.

(** The props of one [RosterItem]; a callback prop that is [undefined] is
    [None]. *)
Record RosterItemProps : Type := {
  item : Entrant;
  prefix : string;
  label : string;
  onRename : option handler;
  onRemove : option handler;
  onMoveUp : option handler;
  onMoveDown : option handler;
  canRemove : bool;
  canRename : bool;
  readOnly : bool
}.

(** [const inGame = item.original_list_type === 'standby' && item.list_type !== 'standby'] *)
Definition inGame (it : Entrant) : bool :=
  bool_decide (original_list_type it = Some "standby")
  && negb (bool_decide (list_type it = Some "standby")).

(** The props the standby column builds for an entry
    ([standby.map((item) => ... <RosterItem .../>)]). *)
Definition standbyItem (ro : bool) (it : Entrant) : RosterItemProps :=
  {| item := it;
     prefix := "s";
     label := display_name it +:+ (if inGame it then " (in game)" else "");
     onRename := Some renameStandby;
     onRemove := if inGame it then None else Some removeStandby;
     onMoveUp := Some reorderStandby;
     onMoveDown := Some reorderStandby;
     canRemove := negb (inGame it);
     canRename := true;
     readOnly := ro |}.

(** The props the participants column builds for an entry. *)
Definition participantItem (ro : bool) (it : Entrant) : RosterItemProps :=
  let isDiscord := bool_decide (source it = Some "discord") in
  {| item := it;
     prefix := "p";
     label := display_name it +:+ (if isDiscord then " (Discord)" else "");
     onRename := if isDiscord then None else Some renameParticipant;
     onRemove := Some removeParticipant;
     onMoveUp := if isDiscord then None else Some reorderParticipants;
     onMoveDown := if isDiscord then None else Some reorderParticipants;
     canRemove := true;
     canRename := negb isDiscord;
     readOnly := ro |}.

Inductive button : Type := RenameBtn | RemoveBtn | MoveUpBtn | MoveDownBtn.

(** What [RosterItem] renders: the buttons of the row and, for each, the
    callback its click invokes with the entry's id ([onRemove?.(item.id)]
    calls nothing when the prop is [undefined]; Rename only opens the
    inline editor).  [editing] is the component's local state. *)
Definition RosterItem (p : RosterItemProps) (editing : bool) : list (button * option (handler * ident)) :=
  if negb (readOnly p) && negb editing then
    (if canRename p then [(RenameBtn, None)] else [])
    ++ (if canRemove p then [(RemoveBtn, (fun h => (h, entry_id (item p))) <$> onRemove p)] else [])
    ++ (match onMoveUp p with Some h => [(MoveUpBtn, Some (h, entry_id (item p)))] | None => [] end)
    ++ (match onMoveDown p with Some h => [(MoveDownBtn, Some (h, entry_id (item p)))] | None => [] end)
  else [].

End Roster.

(** ** The teams view ([TeamsView]) *)
Module Teams.
Import Js Roster.

(** A team member [{ id, display_name }] and a team [{ id, name, members }]. *)
Record Member : Type := {
  member_id : ident;
  member_display_name : string
}.

Record Team : Type := {
  team_id : ident;
  team_name : string;
  members : list Member
}.

(** An element of [allPeople]: a roster entry with the [isStandby] mark. *)
Record Person : Type := {
  person : Entrant;
  isStandby : bool
}.

(** [const maxPerTeam = parseInt(format?.split('v')[0]) || 2] *)
Definition maxPerTeam (format : option string) : Z :=
  match format ≫= (fun f => parseInt (beforeFirst "v" f)) with
  | Some n => if n =? 0 then 2 else n
  | None => 2
  end.

(** [allPeople = [...participants.map(...), ...standby.map(...)]] *)
Definition allPeople (participants standby : list Entrant) : list Person :=
  map (fun p => {| person := p; isStandby := false |}) participants
  ++ map (fun s => {| person := s; isStandby := true |}) standby.

(** [const _sameId = (a, b) => a === b || String(a) === String(b)] *)
Definition _sameId (a b : ident) : bool :=
  strictEq a b || bool_decide (toStr a = toStr b).

(** [{ id: p.id, display_name: p.display_name }] *)
Definition asMember (p : Person) : Member :=
  {| member_id := entry_id (person p);
     member_display_name := display_name (person p) |}.

(** [{ ...t, members: ms }] *)
Definition withMembers (t : Team) (ms : list Member) : Team :=
  {| team_id := team_id t; team_name := team_name t; members := ms |}.

(** [t.members.some((m) => _sameId(m.id, x))] *)
Definition hasMember (x : ident) (t : Team) : bool :=
  existsb (fun m => _sameId (member_id m) x) (members t).

(** [String(t.id) === String(c.id)] for an optional team [c]
    ([currentTeam && ...]). *)
Definition isTeam (c : option Team) (t : Team) : bool :=
  match c with
  | Some c => bool_decide (toStr (team_id t) = toStr (team_id c))
  | None => false
  end.

(** [handleDragEnd(event)] of [TeamsView].  [activeId] is [String(active.id)],
    [over] is [String(over.id)] or [None] when the drag ended over nothing.
    The result is the argument of [onUpdateTeams], or [None] when the handler
    returns without calling it. *)
Definition handleDragEnd (format : option string) (participants standby : list Entrant)
    (teams : list Team) (activeId : string) (over : option string) : option (list Team) :=
  match over with
  | None => None
  | Some overId =>
    if negb (startsWith activeId "player-") then None
    else
      let entryId := IdStr (removeFirst "player-" activeId) in
      let people := allPeople participants standby in
      if bool_decide (overId = "unassigned") then
        Some (List.filter
                (fun t => (0 <? length (members t))%nat || truthyId (Some (team_id t)))
                (map (fun t =>
                        {| team_id := team_id t;
                           team_name := team_name t;
                           members := List.filter (fun m => negb (_sameId (member_id m) entryId))
                                                  (members t) |})
                     teams))
      else if startsWith overId "player-" then
        let targetId := IdStr (removeFirst "player-" overId) in
        if _sameId targetId entryId then None
        else
          match List.find (fun p => _sameId (entry_id (person p)) entryId) people,
                List.find (fun p => _sameId (entry_id (person p)) targetId) people with
          | Some who, Some targetPerson =>
              let currentTeam := List.find (hasMember entryId) teams in
              let targetTeam := List.find (hasMember targetId) teams in
              Some (map (fun t =>
                  let isCurrent := isTeam currentTeam t in
                  let isTarget := isTeam targetTeam t in
                  if isCurrent && isTarget then
                    withMembers t
                      (map (fun m =>
                              if _sameId (member_id m) entryId then asMember targetPerson
                              else if _sameId (member_id m) targetId then asMember who
                              else m) (members t))
                  else if isCurrent then
                    withMembers t
                      (map (fun m =>
                              if _sameId (member_id m) entryId then asMember targetPerson
                              else m) (members t))
                  else if isTarget then
                    withMembers t
                      (map (fun m =>
                              if _sameId (member_id m) targetId then asMember who
                              else m) (members t))
                  else t) teams)
          | _, _ => None
          end
      else if startsWith overId "team-" then
        let teamId := removeFirst "team-" overId in
        match List.find (fun t => bool_decide (toStr (team_id t) = teamId)) teams with
        | None => None
        | Some targetTeam =>
            if maxPerTeam format <=? Z.of_nat (length (members targetTeam)) then None
            else
              let currentTeam := List.find (hasMember entryId) teams in
              match List.find (fun p => _sameId (entry_id (person p)) entryId) people with
              | None => None
              | Some who =>
                  match currentTeam with
                  | Some c =>
                      Some (map (fun t =>
                          if bool_decide (toStr (team_id t) = teamId) then
                            if hasMember entryId t then t
                            else withMembers t (members t ++ [asMember who])
                          else if bool_decide (toStr (team_id t) = toStr (team_id c)) then
                            withMembers t
                              (List.filter (fun m => negb (_sameId (member_id m) entryId))
                                           (members t))
                          else t) teams)
                  | None =>
                      Some (map (fun t =>
                          if bool_decide (toStr (team_id t) = teamId) then
                            withMembers t (members t ++ [asMember who])
                          else t) teams)
                  end
              end
        end
      else None
  end.

(** A team holds at most [cap] members. *)
Definition fits (cap : Z) (t : Team) : Prop :=
  Z.of_nat (length (members t)) <= cap.

End Teams.

(** ** The bracket payload and the inferred-winner enrichment *)
Module Bracket.
Import Js.

(** A match of the bracket payload.  The source's field [id] is [match_id];
    [inferred_winner] is absent ([undefined], here [false]) in the payload
    and set by the enrichment only. *)
Record Match : Type := {
  match_id : ident;
  round_num : Z;
  bracket_section : option string;
  team1_id : option ident;
  team2_id : option ident;
  manual_entry1_id : option ident;
  manual_entry2_id : option ident;
  player1_id : option ident;
  player2_id : option ident;
  team1_name : option string;
  team2_name : option string;
  player1_name : option string;
  player2_name : option string;
  winner_team_id : option ident;
  winner_manual_entry_id : option ident;
  winner_player_id : option ident;
  winner_name : option string;
  parent_match_id : option ident;
  parent_match_slot : option Z;
  inferred_winner : bool
}.

#[global] Instance Match_eq_dec : EqDecision Match.
Proof. solve_decision. Defined.

(** [copy.winner_name = v] *)
Definition set_winner_name (v : option string) (m : Match) : Match :=
  {| match_id := match_id m; round_num := round_num m;
     bracket_section := bracket_section m;
     team1_id := team1_id m; team2_id := team2_id m;
     manual_entry1_id := manual_entry1_id m; manual_entry2_id := manual_entry2_id m;
     player1_id := player1_id m; player2_id := player2_id m;
     team1_name := team1_name m; team2_name := team2_name m;
     player1_name := player1_name m; player2_name := player2_name m;
     winner_team_id := winner_team_id m;
     winner_manual_entry_id := winner_manual_entry_id m;
     winner_player_id := winner_player_id m;
     winner_name := v;
     parent_match_id := parent_match_id m;
     parent_match_slot := parent_match_slot m;
     inferred_winner := inferred_winner m |}.

(** [copy.inferred_winner = b] *)
Definition set_inferred_winner (b : bool) (m : Match) : Match :=
  {| match_id := match_id m; round_num := round_num m;
     bracket_section := bracket_section m;
     team1_id := team1_id m; team2_id := team2_id m;
     manual_entry1_id := manual_entry1_id m; manual_entry2_id := manual_entry2_id m;
     player1_id := player1_id m; player2_id := player2_id m;
     team1_name := team1_name m; team2_name := team2_name m;
     player1_name := player1_name m; player2_name := player2_name m;
     winner_team_id := winner_team_id m;
     winner_manual_entry_id := winner_manual_entry_id m;
     winner_player_id := winner_player_id m;
     winner_name := winner_name m;
     parent_match_id := parent_match_id m;
     parent_match_slot := parent_match_slot m;
     inferred_winner := b |}.

(** [name && name !== 'TBD' && name !== 'BYE'] *)
Definition realName (name : option string) : bool :=
  truthyStr name
  && negb (bool_decide (name = Some "TBD"))
  && negb (bool_decide (name = Some "BYE")).

(** [slot === 1 ? (parent.team1_name || parent.player1_name)
               : (parent.team2_name || parent.player2_name)] *)
Definition advancedName (parent : Match) (slot : option Z) : option string :=
  if bool_decide (slot = Some 1)
  then orElse truthyStr (team1_name parent) (player1_name parent)
  else orElse truthyStr (team2_name parent) (player2_name parent).

(** [Object.fromEntries(entries)]: a later entry replaces an earlier one
    with the same key. *)
Definition fromEntries {V : Type} (entries : list (string * V)) : gmap string V :=
  foldl (fun acc kv => <[kv.1 := kv.2]> acc) ∅ entries.

(** [byId[id]]: the property named [String(id)]. *)
Definition lookupById {V : Type} (byId : gmap string V) (id : option ident) : option V :=
  id ≫= (fun i => byId !! toStr i).

(** *** The enrichment on values

    A rounds object is the list of its entries [(round, matches)] in
    property order (its keys are distinct). *)
Abbreviation Rounds := (list (Z * list Match)) (only parsing).

(** [Object.values(rounds).flat()] *)
Definition allMatchesOf {V : Type} (rounds : list (Z * list V)) : list V :=
  concat (map snd rounds).

(** The callback of [matches.map] in [enrichRoundsWithInferredWinners]. *)
Definition enrichMatch (byId : gmap string Match) (m : Match) : Match :=
  let copy := m in
  if negb (truthyStr (winner_name copy)) && truthyId (parent_match_id copy) then
    match lookupById byId (parent_match_id copy) with
    | Some parent =>
        let slot := parent_match_slot copy in
        let name := advancedName parent slot in
        if realName name
        then set_inferred_winner true (set_winner_name name copy)
        else copy
    | None => copy
    end
  else copy.

(** [const byId = Object.fromEntries(allMatches.map((m) => [m.id, m]))] *)
Definition byIdOf (rounds : Rounds) : gmap string Match :=
  fromEntries (map (fun m => (toStr (match_id m), m)) (allMatchesOf rounds)).

(** [enrichRoundsWithInferredWinners(rounds)]; [None] is a [rounds] that is
    [null] or [undefined], which is returned as it is. *)
Definition enrichRoundsWithInferredWinners (rounds : option Rounds) : option Rounds :=
  match rounds with
  | None => None
  | Some rounds =>
      let byId := byIdOf rounds in
      Some (map (fun '(r, matches) => (r, map (enrichMatch byId) matches)) rounds)
  end.

(** *** The enrichment on a store of objects

    The same function with the match objects in a store, to follow which
    objects it writes.  A reference is an index of the store; [{ ...m }]
    allocates a new object, [copy.f = v] updates the object at [copy].  A
    computation returns [None] only on a reference outside the store.  The
    rounds object and the round arrays are not in the store: the source
    never assigns to them, it builds the result's own ([enriched = {}],
    [matches.map]); they are lists of references here. *)
Abbreviation ref := nat (only parsing).
Abbreviation store := (list Match) (only parsing).
(** A computation on the store. *)
Definition St (A : Type) : Type := store -> option (A * store).

#[global] Instance St_ret : MRet St := fun A a h => Some (a, h).
#[global] Instance St_bind : MBind St := fun A B f c h =>
  match c h with
  | Some (a, h') => f a h'
  | None => None
  end.

(** Reading the object at a reference. *)
Definition get (l : ref) : St Match :=
  fun h => (fun m => (m, h)) <$> h !! l.

(** Allocating an object: it takes the next free index. *)
Definition new (m : Match) : St ref :=
  fun h => Some (length h, h ++ [m]).

(** Assigning to fields of the object at a reference. *)
Definition assign (l : ref) (f : Match -> Match) : St unit :=
  fun h => (fun m => (tt, <[l := f m]> h)) <$> h !! l.

(** [xs.map(f)] for a callback that works on the store, left to right. *)
Fixpoint mapSt {A B : Type} (f : A -> St B) (l : list A) : St (list B) :=
  match l with
  | [] => mret []
  | a :: l' => b ← f a; bs ← mapSt f l'; mret (b :: bs)
  end.

(** The callback of [matches.map]: [const copy = { ...m }], the tests on
    [copy], the read of [parent] and the two assignments to [copy]. *)
Definition enrichMatchSt (byId : gmap string ref) (l : ref) : St ref :=
  m ← get l;
  copy ← new m;
  c ← get copy;
  if negb (truthyStr (winner_name c)) && truthyId (parent_match_id c) then
    match lookupById byId (parent_match_id c) with
    | Some parent =>
        p ← get parent;
        let slot := parent_match_slot c in
        let name := advancedName p slot in
        if realName name then
          assign copy (set_winner_name name);;
          assign copy (set_inferred_winner true);;
          mret copy
        else mret copy
    | None => mret copy
    end
  else mret copy.

(** [enrichRoundsWithInferredWinners(rounds)] on the store: [byId] maps
    [String(m.id)] to the object [m] itself, the result holds the copies. *)
Definition enrichRoundsSt (rounds : list (Z * list ref)) : St (list (Z * list ref)) :=
  let allMatches := allMatchesOf rounds in
  entries ← mapSt (fun l => m ← get l; mret (toStr (match_id m), l)) allMatches;
  let byId := fromEntries entries in
  mapSt (fun '(r, matches) => ms ← mapSt (enrichMatchSt byId) matches; mret (r, ms)) rounds.

(** The rounds a store holds behind a structure of references. *)
Definition readRounds (h : store) (rounds : list (Z * list ref)) : option Rounds :=
  mapM (fun '(r, ls) => ms ← mapM (fun l => h !! l) ls; Some (r, ms)) rounds.

(** *** The bracket views *)

(** The callbacks a view may call; the payload of a click. *)
Inductive action : Type :=
| SetWinner (matchId : ident) (slot : Z)
| AdvanceOpponent (matchId : ident) (slot : Z)
| SwapWinner (matchId : ident)
| ClearWinner (matchId : ident).

#[global] Instance action_eq_dec : EqDecision action.
Proof. solve_decision. Defined.

(** The two correction operations, Swap and Undo. *)
Definition correction (a : action) : bool :=
  match a with
  | SwapWinner _ | ClearWinner _ => true
  | SetWinner _ _ | AdvanceOpponent _ _ => false
  end.

(** Which callback props a view received ([false]: [null] or [undefined]). *)
Record Handlers : Type := {
  onUpdateMatch : bool;
  onSwapSlots : bool;
  onAdvanceOpponent : bool;
  onSetWinner : bool;
  onSwapWinner : bool;
  onClearWinner : bool
}.

(** [canEdit ? handler : null] for every handler. *)
Definition gated (canEdit : bool) (h : Handlers) : Handlers :=
  {| onUpdateMatch := canEdit && onUpdateMatch h;
     onSwapSlots := canEdit && onSwapSlots h;
     onAdvanceOpponent := canEdit && onAdvanceOpponent h;
     onSetWinner := canEdit && onSetWinner h;
     onSwapWinner := canEdit && onSwapWinner h;
     onClearWinner := canEdit && onClearWinner h |}.

(** [m.team1_name || m.player1_name || 'TBD'] and its slot-2 twin. *)
Definition slotName1 (m : Match) : option string :=
  orElse truthyStr (orElse truthyStr (team1_name m) (player1_name m)) (Some "TBD").
Definition slotName2 (m : Match) : option string :=
  orElse truthyStr (orElse truthyStr (team2_name m) (player2_name m)) (Some "TBD").

(** [m.team1_id || m.manual_entry1_id || m.player1_id] and its twin, and
    their truthiness: the slot holds an entity. *)
Definition slotId1 (m : Match) : option ident :=
  orElse truthyId (orElse truthyId (team1_id m) (manual_entry1_id m)) (player1_id m).
Definition slotId2 (m : Match) : option ident :=
  orElse truthyId (orElse truthyId (team2_id m) (manual_entry2_id m)) (player2_id m).
Definition filled1 (m : Match) : bool := truthyId (slotId1 m).
Definition filled2 (m : Match) : bool := truthyId (slotId2 m).
Definition bothFilled (m : Match) : bool := filled1 m && filled2 m.

(** What the views guarantee when they offer a correction [a] on a card
    showing [m]: a winner name is shown, it is not an inferred one, both
    slots hold an entity, and the click is about this very match. *)
Definition offeredOnRecorded (m : Match) (a : action) : Prop :=
  truthyStr (winner_name m) = true /\ inferred_winner m = false
  /\ filled1 m = true /\ filled2 m = true
  /\ (a = SwapWinner (match_id m) \/ a = ClearWinner (match_id m)).

(** The clicks a [BracketBox] offers: the box itself ([onClick]) and the
    tick button ([handleWinnerClick]). *)
Definition BracketBox (name : option string) (isPreview onDrop : bool)
    (matchId : ident) (slot : Z)
    (onAdvanceOpponent onSetWinner hasOpponent canSetWinner canEdit : bool) : list action :=
  if isPreview || negb onDrop then []
  else
    let canClickWinner := canEdit && canSetWinner && realName name && onSetWinner in
    let isDropout := canEdit && realName name && negb hasOpponent && onAdvanceOpponent in
    let showWinnerBtn := canClickWinner || isDropout in
    (if canClickWinner then [SetWinner matchId slot] else [])
    ++ (if showWinnerBtn then
          [if canClickWinner then SetWinner matchId slot
           else AdvanceOpponent matchId (if slot =? 1 then 2 else 1)]
        else []).

(** The Advance button of a [MatchSlot]. *)
Definition MatchSlot (label : string) (name : option string) (matchId : ident) (slot : Z)
    (onAdvanceOpponent hasOpponent : bool) : list action :=
  if truthyStr name && negb (bool_decide (name = Some label))
     && hasOpponent && onAdvanceOpponent
  then [AdvanceOpponent matchId slot]
  else [].

(** A rendered column: the section label and round number of its heading
    and, per match card, the clicks the card offers. *)
Record Column : Type := {
  sectionLabel : option string;
  displayed : Z;
  cards : list (Match * list action)
}.

(** [entries.sort((a, b) => Number(a[0]) - Number(b[0]))]: a stable sort by
    key.  The keys of a rounds object are the decimal strings of the round
    numbers; they are kept as numbers here. *)
Fixpoint insertByKey {V : Type} (x : Z * V) (l : list (Z * V)) : list (Z * V) :=
  match l with
  | [] => [x]
  | y :: l' => if x.1 <=? y.1 then x :: l else y :: insertByKey x l'
  end.

(** Insertion sort from the right: entries with equal keys keep their order. *)
Definition sortByKey {V : Type} (l : list (Z * V)) : list (Z * V) :=
  foldr insertByKey [] l.

(** [Object.entries(rounds || {}).filter(([k]) => Number(k) < 10).sort(...)],
    the first line of [BracketVisual] and of [BracketTree]. *)
Definition roundEntries (rounds : Rounds) : Rounds :=
  sortByKey (List.filter (fun e => e.1 <? 10) rounds).

(** [renderMatchBlock(m, roundNum)] of [BracketVisual]. *)
Definition renderMatchBlock (h : Handlers) (isPreview : bool) (lastRoundNum : option Z)
    (m : Match) (roundNum : Z) : list action :=
  let s1 := slotName1 m in
  let s2 := slotName2 m in
  let canSetWinner := bothFilled m && negb (truthyStr (winner_name m)) in
  let isChampion := truthyStr (winner_name m) && bool_decide (Some roundNum = lastRoundNum) in
  BracketBox s1 isPreview (onUpdateMatch h) (match_id m) 1
             (onAdvanceOpponent h) (onSetWinner h) (filled2 m) canSetWinner (onUpdateMatch h)
  ++ BracketBox s2 isPreview (onUpdateMatch h) (match_id m) 2
             (onAdvanceOpponent h) (onSetWinner h) (filled1 m) canSetWinner (onUpdateMatch h)
  ++ (if truthyStr (winner_name m) then
        if isChampion then
          if negb (inferred_winner m) && (onSwapWinner h || onClearWinner h) && bothFilled m
          then (if onSwapWinner h then [SwapWinner (match_id m)] else [])
               ++ (if onClearWinner h then [ClearWinner (match_id m)] else [])
          else []
        else
          (if negb (inferred_winner m) && onSwapWinner h && bothFilled m
           then [SwapWinner (match_id m)] else [])
          ++ (if negb (inferred_winner m) && onClearWinner h && bothFilled m
              then [ClearWinner (match_id m)] else [])
      else []).

(** [BracketVisual]: one column per entry of [roundEntries]. *)
Definition BracketVisual (h : Handlers) (isPreview : bool) (rounds : Rounds) : list Column :=
  let entries := roundEntries rounds in
  let lastRoundNum := fst <$> last entries in
  map (fun '(roundNum, matches) =>
         {| sectionLabel := None;
            displayed := roundNum;
            cards := map (fun m => (m, renderMatchBlock h isPreview lastRoundNum m roundNum))
                         matches |})
      entries.

(** [renderMatch(m, ...)] of [BracketTree]. *)
Definition renderMatch (h : Handlers) (isPreview : bool) (m : Match) : list action :=
  let s1 := slotName1 m in
  let s2 := slotName2 m in
  let isEditable := negb isPreview && onUpdateMatch h in
  (if isEditable then
     MatchSlot "Slot 1" s1 (match_id m) 1 (onAdvanceOpponent h) (filled2 m)
     ++ MatchSlot "Slot 2" s2 (match_id m) 2 (onAdvanceOpponent h) (filled1 m)
   else [])
  ++ (if truthyStr (winner_name m) then
        (if negb (inferred_winner m) && onSwapWinner h && filled1 m && filled2 m
         then [SwapWinner (match_id m)] else [])
        ++ (if negb (inferred_winner m) && onClearWinner h && filled1 m && filled2 m
            then [ClearWinner (match_id m)] else [])
      else []).

(** [BracketTree]: it receives no [onSetWinner]. *)
Definition BracketTree (h : Handlers) (isPreview : bool) (rounds : Rounds) : list Column :=
  map (fun '(roundNum, matches) =>
         {| sectionLabel := None;
            displayed := roundNum;
            cards := map (fun m => (m, renderMatch h isPreview m)) matches |})
      (roundEntries rounds).

(** [const displayRound = sectionLabel === 'Losers' && roundNum >= 10
                          ? roundNum - 10 : roundNum] *)
Definition displayRound (label : option string) (roundNum : Z) : Z :=
  if bool_decide (label = Some "Losers") && (10 <=? roundNum)
  then roundNum - 10
  else roundNum.

(** [renderRound(roundNum, matches, sectionLabel)] of [BracketView]; [h] are
    the view's own props, [canEdit] its edit flag. *)
Definition renderRound (h : Handlers) (isPreview canEdit : bool)
    (roundNum : Z) (matches : list Match) (label : option string) : Column :=
  {| sectionLabel := label;
     displayed := displayRound label roundNum;
     cards :=
       map (fun m =>
         let s1 := slotName1 m in
         let s2 := slotName2 m in
         let hasOpponent := filled1 m && filled2 m in
         (m,
          (if isPreview then []
           else
             MatchSlot "Slot 1" s1 (match_id m) 1 (canEdit && onAdvanceOpponent h) (filled2 m)
             ++ MatchSlot "Slot 2" s2 (match_id m) 2 (canEdit && onAdvanceOpponent h) (filled1 m))
          ++ (if truthyStr (winner_name m) then
                if bool_decide (label = Some "Grand Finals") then
                  if negb (inferred_winner m) && canEdit && hasOpponent
                  then [SwapWinner (match_id m); ClearWinner (match_id m)]
                  else []
                else
                  (if negb (inferred_winner m) && canEdit && onSwapWinner h && hasOpponent
                   then [SwapWinner (match_id m)] else [])
                  ++ (if negb (inferred_winner m) && canEdit && onClearWinner h && hasOpponent
                      then [ClearWinner (match_id m)] else [])
              else [])))
         matches |}.

(** [wByRound[m.round_num] = (wByRound[m.round_num] || []).concat(m)] *)
Fixpoint addToRound (m : Match) (acc : Rounds) : Rounds :=
  match acc with
  | [] => [(round_num m, [m])]
  | (k, ms) :: rest =>
      if k =? round_num m then (k, ms ++ [m]) :: rest
      else (k, ms) :: addToRound m rest
  end.

(** The [forEach] loops that build [wByRound] and [lByRound]. *)
Definition groupByRound (ms : list Match) : Rounds :=
  foldl (fun acc m => addToRound m acc) [] ms.

(** The three filters of [bySection]. *)
Definition inWinners (m : Match) : bool :=
  bool_decide (orElse truthyStr (bracket_section m) (Some "winners") = Some "winners").
Definition inLosers (m : Match) : bool :=
  bool_decide (bracket_section m = Some "losers").
Definition inGrandFinals (m : Match) : bool :=
  bool_decide (bracket_section m = Some "grand_finals").

(** [renderBracket()] of [BracketView], from the props [bracket.rounds],
    [bracket.bracket_type], the handlers, [isPreview] and [canEdit]. *)
Definition renderBracket (h : Handlers) (isPreview canEdit : bool)
    (bracket_type : option string) (rawRounds : Rounds) : list Column :=
  let rounds := default [] (enrichRoundsWithInferredWinners (Some rawRounds)) in
  let allMatches := allMatchesOf rounds in
  let isDoubleElim := bool_decide (bracket_type = Some "double_elim") in
  if isDoubleElim then
    let wByRound := groupByRound (List.filter inWinners allMatches) in
    let lByRound := groupByRound (List.filter inLosers allMatches) in
    let grand_finals := List.filter inGrandFinals allMatches in
    BracketTree h isPreview (sortByKey wByRound)
    ++ map (fun '(r, ms) => renderRound h isPreview canEdit r ms (Some "Losers"))
           (sortByKey lByRound)
    ++ (if (0 <? length grand_finals)%nat
        then [renderRound h isPreview canEdit 21 grand_finals (Some "Grand Finals")]
        else [])
  else
    BracketVisual (gated canEdit h) isPreview (sortByKey (List.filter (fun e => e.1 <? 10) rounds)).

(** *** Vocabulary of the statements *)

(** [m'] carries every field of the payload match [m] but, possibly,
    [winner_name] and [inferred_winner]. *)
Definition samePayload (m m' : Match) : Prop :=
  match_id m' = match_id m /\ round_num m' = round_num m
  /\ bracket_section m' = bracket_section m
  /\ team1_id m' = team1_id m /\ team2_id m' = team2_id m
  /\ manual_entry1_id m' = manual_entry1_id m /\ manual_entry2_id m' = manual_entry2_id m
  /\ player1_id m' = player1_id m /\ player2_id m' = player2_id m
  /\ team1_name m' = team1_name m /\ team2_name m' = team2_name m
  /\ player1_name m' = player1_name m /\ player2_name m' = player2_name m
  /\ winner_team_id m' = winner_team_id m
  /\ winner_manual_entry_id m' = winner_manual_entry_id m
  /\ winner_player_id m' = winner_player_id m
  /\ parent_match_id m' = parent_match_id m /\ parent_match_slot m' = parent_match_slot m.

(** *** Vocabulary of the store proofs *)

(** The store-level and the value-level dictionaries agree: a key is bound
    to a reference of the original store [h0] exactly when the value-level
    dictionary binds it to the object found there. *)
Definition agree (h0 : store) (byS : gmap string ref) (byV : gmap string Match) : Prop :=
  forall k, byV !! k = (byS !! k ≫= fun r => h0 !! r)
            /\ (forall r, byS !! k = Some r -> is_Some (h0 !! r)).

(** The objects behind a rounds structure, as a relation. *)
Definition holds (h : store) (rounds : list (Z * list ref)) (roundsV : Rounds) : Prop :=
  Forall2 (fun x y => x.1 = y.1 /\ Forall2 (fun l m => h !! l = Some m) x.2 y.2)
          rounds roundsV.

End Bracket.

(** ** The handlers of [App] that talk to the server *)
Module Client.
Import Js Roster Teams Bracket.

(** A JSON value of a request body. *)
Inductive json : Type :=
| JNull
| JId (i : ident)
| JNum (n : Z)
| JStr (s : string)
| JBool (b : bool).

#[global] Instance json_eq_dec : EqDecision json.
Proof. solve_decision. Defined.

(** A request as handed to [authFetch]; the body is the object given to
    [JSON.stringify]. *)
Record Request : Type := {
  method : string;
  url : string;
  body : gmap string json
}.

(** What came back.  [NetworkError]: [authFetch] rejected.  Otherwise
    [res.ok], [res.status] and the body text: empty; not JSON, with [head]
    its first 100 characters ([text.slice(0, 100)]); or a JSON value, of
    which the handlers read the properties [detail] and [error]
    ([VUndefined] for a property that is not there, so for both when the
    JSON value is not an object). *)
Inductive ReplyBody : Type :=
| EmptyBody
| NotJson (head : string)
| JsonBody (detail error : value).

Inductive Response : Type :=
| NetworkError (message : string)
| Reply (ok : bool) (status : Z) (content : ReplyBody).

(** The result of one call of a handler.  [Ignored]: it returned before any
    request, leaving the error banner as it was.  [Sent req err]: it sent
    [req]; with [err = Some msg] it ended in [setError(msg)], with
    [err = None] it went on to [await fetchData({ silent: true })], which
    sets the banner itself, see [banner]. *)
Inductive Outcome : Type :=
| Ignored
| Sent (req : Request) (err : option string).

(** The error state of [App] when the handler has returned.  [before] is the
    state it was called in, [reload] the state [fetchData({ silent: true })]
    leaves: it starts with [setError(null)] and ends in
    [setError(err.message)] when a request or the parsing of a reply
    throws. *)
Definition banner (before : option string) (o : Outcome) (reload : option string)
  : option string :=
  match o with
  | Ignored => before
  | Sent _ (Some msg) => Some msg
  | Sent _ None => reload
  end.

(** The part of the [App] state the handlers read. *)
Record BracketData : Type := {
  rounds : option Rounds;
  format : option string
}.

Record AppState : Type := {
  tournamentId : option Z;
  bracket : option BracketData
}.

(** A number or [null] inside a template literal. *)
Definition numStr (n : option Z) : string :=
  match n with
  | Some n => toStr (IdNum n)
  | None => "null"
  end.

(** [`${API}/tournaments/${tournamentId}/bracket/matches/${matchId}`] *)
Definition matchUrl (st : AppState) (matchId : ident) : string :=
  "/api/tournaments/" +:+ numStr (tournamentId st) +:+ "/bracket/matches/" +:+ toStr matchId.

(** [await parseJson(res)]: [inl data] or a thrown message; [data] is
    [None] for [null] and otherwise holds [data.detail] and [data.error]. *)
Definition parseJson (status : Z) (content : ReplyBody)
  : option (value * value) + string :=
  match content with
  | EmptyBody => inl None
  | NotJson head =>
      inr ("Server returned " +:+ toStr (IdNum status) +:+ ": " +:+ head)
  | JsonBody detail error => inl (Some (detail, error))
  end.

(** [data?.detail] *)
Definition detailOf (data : option (value * value)) : value :=
  match data with
  | Some (detail, _) => detail
  | None => VUndefined
  end.

(** The message of [new Error(data?.detail || fallback)]. *)
Definition detailOr (data : option (value * value)) (fallback : string) : string :=
  toString (orValue (detailOf data) (VStr fallback)).

(** The error of
    [if (!res.ok) { const data = await parseJson(res); throw new Error(data?.detail || fallback) }]
    inside [try { ... } catch (err) { setError(err.message) }]. *)
Definition errorUnlessOk (resp : Response) (fallback : string) : option string :=
  match resp with
  | NetworkError message => Some message
  | Reply true _ _ => None
  | Reply false status content =>
      match parseJson status content with
      | inl data => Some (detailOr data fallback)
      | inr thrown => Some thrown
      end
  end.

(** The error of [setWinner] and [advanceOpponent], which read the body
    with [res.json()] and keep the fallback when that throws:
    [errMsg = data?.detail || data?.error || errMsg; throw new Error(errMsg)]. *)
Definition errorOfPatch (resp : Response) (fallback : string) : option string :=
  match resp with
  | NetworkError message => Some message
  | Reply true _ _ => None
  | Reply false _ (JsonBody detail error) =>
      Some (toString (orValue (orValue detail error) (VStr fallback)))
  | Reply false _ _ => Some fallback
  end.

(** [bracket?.rounds && Object.values(bracket.rounds).flat().find((x) => x.id === matchId)] *)
Definition findMatch (st : AppState) (matchId : ident) : option Match :=
  b ← bracket st;
  rs ← rounds b;
  List.find (fun x => strictEq (match_id x) matchId) (allMatchesOf rs).

(** [const isTeam = bracket?.tournament?.format !== '1v1'] *)
Definition isTeamFormat (st : AppState) : bool :=
  negb (bool_decide ((bracket st ≫= format) = Some "1v1")).

(** The id in a slot as the handlers read it:
    [isTeam ? (slot === 1 ? m.team1_id : m.team2_id)
            : (slot === 1 ? (m.manual_entry1_id ?? m.player1_id)
                          : (m.manual_entry2_id ?? m.player2_id))] *)
Definition slotEntity (isTeam : bool) (m : Match) (slot : Z) : option ident :=
  if isTeam then (if slot =? 1 then team1_id m else team2_id m)
  else if slot =? 1 then nullish (manual_entry1_id m) (player1_id m)
       else nullish (manual_entry2_id m) (player2_id m).

(** The key under which the winner is sent. *)
Definition winnerKey (isTeam : bool) (m : Match) : string :=
  if isTeam then "winner_team_id"
  else if bool_decide (is_Some (manual_entry1_id m)) || bool_decide (is_Some (manual_entry2_id m))
       then "winner_manual_entry_id"
       else "winner_player_id".

(** The winner field that fits what [slot] holds: [slotEntity] reads a
    team, or else the manual entry of the slot when there is one and the
    player otherwise. *)
Definition slotKindKey (isTeam : bool) (m : Match) (slot : Z) : string :=
  if isTeam then "winner_team_id"
  else if bool_decide (is_Some (if slot =? 1 then manual_entry1_id m else manual_entry2_id m))
       then "winner_manual_entry_id"
       else "winner_player_id".

(** The key of the slot that [advanceOpponent] sets to [null]. *)
Definition vacatedKey (isTeam : bool) (m : Match) (slot : Z) : string :=
  if slot =? 1 then
    if isTeam then "team1_id"
    else if bool_decide (is_Some (manual_entry1_id m)) then "manual_entry1_id" else "player1_id"
  else
    if isTeam then "team2_id"
    else if bool_decide (is_Some (manual_entry2_id m)) then "manual_entry2_id" else "player2_id".

(** [setWinner(matchId, slot)] *)
Definition setWinner (st : AppState) (matchId : ident) (slot : Z) (resp : Response) : Outcome :=
  match findMatch st matchId with
  | None => Ignored
  | Some m =>
      let isTeam := isTeamFormat st in
      let winnerId := slotEntity isTeam m slot in
      match winnerId with
      | Some w =>
          if negb (truthyId winnerId) then Ignored
          else
            let body := {[ winnerKey isTeam m := JId w ]} in
            Sent {| method := "PATCH"; url := matchUrl st matchId; body := body |}
                 (errorOfPatch resp "Failed to set winner")
      | None => Ignored
      end
  end.

(** [advanceOpponent(matchId, slot)]: [slot] is the slot that dropped out. *)
Definition advanceOpponent (st : AppState) (matchId : ident) (slot : Z) (resp : Response) : Outcome :=
  match findMatch st matchId with
  | None => Ignored
  | Some m =>
      let isTeam := isTeamFormat st in
      let opponentSlot := if slot =? 1 then 2 else 1 in
      let winnerId := slotEntity isTeam m opponentSlot in
      match winnerId with
      | Some w =>
          if negb (truthyId winnerId) then Ignored
          else
            let body := {[ winnerKey isTeam m := JId w ]} in
            let body := <[ vacatedKey isTeam m slot := JNull ]> body in
            Sent {| method := "PATCH"; url := matchUrl st matchId; body := body |}
                 (errorOfPatch resp "Failed to advance")
      | None => Ignored
      end
  end.

(** [clearWinner(matchId)] *)
Definition clearWinner (st : AppState) (matchId : ident) (resp : Response) : Outcome :=
  Sent {| method := "POST"; url := matchUrl st matchId +:+ "/clear-winner"; body := ∅ |}
       (errorUnlessOk resp "Failed to clear winner").

(** [swapWinner(matchId)] *)
Definition swapWinner (st : AppState) (matchId : ident) (resp : Response) : Outcome :=
  Sent {| method := "POST"; url := matchUrl st matchId +:+ "/swap-winner"; body := ∅ |}
       (errorUnlessOk resp "Failed to swap winner").

(** [swapSlots(fromMatchId, fromSlot, toMatchId, toSlot)] *)
Definition swapSlots (st : AppState) (fromMatchId : ident) (fromSlot : Z)
    (toMatchId : ident) (toSlot : Z) (resp : Response) : Outcome :=
  if strictEq fromMatchId toMatchId && (fromSlot =? toSlot) then Ignored
  else
    Sent {| method := "POST";
            url := "/api/tournaments/" +:+ numStr (tournamentId st)
                   +:+ "/bracket/matches/swap-slots";
            body := {[ "from_match_id" := JId fromMatchId;
                       "from_slot" := JNum fromSlot;
                       "to_match_id" := JId toMatchId;
                       "to_slot" := JNum toSlot ]} |}
         (errorUnlessOk resp "Failed to swap").

(** What a drag carries: [{ type: 'bracket_slot', matchId, slot }] from a
    bracket box, or an entity [{ ...entity, type }] from a list. *)
Inductive DragData : Type :=
| SlotDrag (matchId : ident) (slot : Z)
| EntityDrag (type : option string) (id : ident).

(** [updateMatch(matchId, slot, entity)] *)
Definition updateMatch (st : AppState) (matchId : ident) (slot : Z) (entity : DragData)
    (resp : Response) : Outcome :=
  match entity with
  | EntityDrag (Some "team") id =>
      Sent {| method := "PATCH"; url := matchUrl st matchId;
              body := {[ (if slot =? 1 then "team1_id" else "team2_id") := JId id ]} |}
           (match resp with
            | NetworkError message => Some message
            | Reply true _ _ => None
            | Reply false _ _ => Some "Failed to update"
            end)
  | EntityDrag (Some "manual_entry") id =>
      Sent {| method := "PATCH"; url := matchUrl st matchId;
              body := {[ (if slot =? 1 then "manual_entry1_id" else "manual_entry2_id") := JId id ]} |}
           (match resp with
            | NetworkError message => Some message
            | Reply true _ _ => None
            | Reply false _ _ => Some "Failed to update"
            end)
  | _ => Ignored
  end.

(** [handleDrop(e)] of [BracketBox] and [MatchSlot], followed by the handler
    it calls: [onSwapSlots] is [swapSlots], [onDrop] is [updateMatch].
    [data] is the parsed drag payload, [None] when there is none or it is
    not JSON. *)
Definition handleDrop (st : AppState) (onSwapSlots onDrop : bool)
    (matchId : ident) (slot : Z) (data : option DragData) (resp : Response) : Outcome :=
  match data with
  | None => Ignored
  | Some d =>
      match d with
      | SlotDrag fromMatch fromSlot =>
          if onSwapSlots && negb (strictEq fromMatch matchId && (fromSlot =? slot))
          then swapSlots st fromMatch fromSlot matchId slot resp
          else if onDrop then updateMatch st matchId slot d resp
          else Ignored
      | EntityDrag _ _ =>
          if onDrop then updateMatch st matchId slot d resp else Ignored
      end
  end.

(** [const bracketCount = fmt === '1v1' ? participants.length : (teams?.length ?? 0)] *)
Definition bracketCount (fmt : option string) (participants : list Entrant)
    (teams : list Team) : nat :=
  if bool_decide (fmt = Some "1v1") then length participants else length teams.

(** [const generateDisabled = !bracketCount
       || (bracketType === 'double_elim' && bracketCount < 8)] *)
Definition generateDisabled (bracketType : string) (bracketCount : nat) : bool :=
  (bracketCount =? 0)%nat
  || (bool_decide (bracketType = "double_elim") && (bracketCount <? 8)%nat).

(** [generateBracket()] *)
Definition generateBracket (st : AppState) (bracketType : string) (resp : Response) : Outcome :=
  Sent {| method := "POST";
          url := "/api/tournaments/" +:+ numStr (tournamentId st) +:+ "/bracket/generate";
          body := {[ "use_manual_order" := JBool true; "bracket_type" := JStr bracketType ]} |}
       (match resp with
        | NetworkError message => Some message
        | Reply ok status content =>
            match parseJson status content with
            | inr thrown => Some thrown
            | inl data => if ok then None else Some (detailOr data "Failed to generate")
            end
        end).


(** An outcome that ends in an error message. *)
Definition reportsError (o : Outcome) : Prop :=
  match o with
  | Sent _ (Some _) => True
  | _ => False
  end.

End Client.

(** ** The advancement engine behind the API

    The server that executes [setWinner], [clearWinner] and [swapSlots] is
    not among the sources; the client only posts to it.  This module
    follows section 4.4 of the specification. *)
Module Engine.

(** Modelled from the spec: the content of a slot of the missing server-side
    match record: empty ("TBD"), the BYE sentinel, or a reference to an
    entrant or team. *)
Inductive Content : Type :=
| Empty
| Bye
| Entity (e : Z).

#[global] Instance Content_eq_dec : EqDecision Content.
Proof. solve_decision. Defined.

(** Modelled from the spec: the two input positions of the missing match
    record, named by [parent_match_slot]. *)
Inductive Slot : Type := Slot1 | Slot2.

#[global] Instance Slot_eq_dec : EqDecision Slot.
Proof. solve_decision. Defined.

(** Modelled from the spec: the [bracket_section] of the missing match
    record. *)
Inductive BracketSection : Type := Winners | Losers | GrandFinals.

#[global] Instance BracketSection_eq_dec : EqDecision BracketSection.
Proof. solve_decision. Defined.

(** Modelled from the spec: the missing server-side match record
    [{id, round_num, bracket_section, slot1, slot2, winner, parent_match_id,
    parent_match_slot}] of the data model; [id] is [match_id] here. *)
Record Match : Type := {
  match_id : Z;
  round_num : Z;
  bracket_section : BracketSection;
  slot1 : Content;
  slot2 : Content;
  winner : option Z;
  parent_match_id : option Z;
  parent_match_slot : option Slot
}.

#[global] Instance Match_eq_dec : EqDecision Match.
Proof. solve_decision. Defined.

(** Modelled from the spec: the missing match set of a tournament. *)
Abbreviation Bracket := (list Match) (only parsing).

(** Modelled from the spec: the error kinds of section 7 that the missing
    advancement operations report. *)
Inductive Error : Type :=
| NotFoundError
| PreconditionError (detail : string)
| ConflictError (detail : string)
| NoOpError.

(** Modelled from the spec: reading a slot of the missing match record. *)
Definition slotOf (m : Match) (s : Slot) : Content :=
  match s with
  | Slot1 => slot1 m
  | Slot2 => slot2 m
  end.

(** Modelled from the spec: the missing record with one slot replaced. *)
Definition withSlot (s : Slot) (c : Content) (m : Match) : Match :=
  {| match_id := match_id m; round_num := round_num m;
     bracket_section := bracket_section m;
     slot1 := match s with Slot1 => c | Slot2 => slot1 m end;
     slot2 := match s with Slot1 => slot2 m | Slot2 => c end;
     winner := winner m;
     parent_match_id := parent_match_id m;
     parent_match_slot := parent_match_slot m |}.

(** Modelled from the spec: the missing record with its winner replaced. *)
Definition withWinner (w : option Z) (m : Match) : Match :=
  {| match_id := match_id m; round_num := round_num m;
     bracket_section := bracket_section m;
     slot1 := slot1 m; slot2 := slot2 m;
     winner := w;
     parent_match_id := parent_match_id m;
     parent_match_slot := parent_match_slot m |}.

(** Modelled from the spec: the states of the missing per-match state
    machine: a slot is filled when it is not empty. *)
Definition filled (c : Content) : bool :=
  match c with
  | Empty => false
  | Bye | Entity _ => true
  end.

(** Modelled from the spec: the state [decided] of the missing state
    machine: the winner is set. *)
Definition decided (m : Match) : bool := bool_decide (is_Some (winner m)).

(** Modelled from the spec: the missing match set addressed by match id. *)
Definition find (b : Bracket) (k : Z) : option Match :=
  List.find (fun m => match_id m =? k) b.

(** Modelled from the spec: a mutation of the fields of one match of the
    missing match set. *)
Definition update (b : Bracket) (k : Z) (f : Match -> Match) : Bracket :=
  map (fun m => if match_id m =? k then f m else m) b.

(** Modelled from the spec: the downstream match of the missing record. *)
Definition parentOf (b : Bracket) (m : Match) : option Match :=
  parent_match_id m ≫= find b.

(** Modelled from the spec: the missing propagation step, "writes the
    winner into [parent_match_id]'s [parent_match_slot]"; the final match
    has no parent. *)
Definition propagate (b : Bracket) (m : Match) (e : Z) : Bracket :=
  match parent_match_id m, parent_match_slot m with
  | Some p, Some s => update b p (withSlot s (Entity e))
  | _, _ => b
  end.

(** Modelled from the spec: the missing test "the parent match has itself
    reached decided using that winner as an input to its own decision". *)
Definition parentDecidedOn (b : Bracket) (m : Match) (e : Z) : bool :=
  match parentOf b m, parent_match_slot m with
  | Some pm, Some s => decided pm && bool_decide (slotOf pm s = Entity e)
  | _, _ => false
  end.

(** Modelled from the spec: the missing test "the winner has already
    propagated into a parent match that has itself progressed further". *)
Definition parentProgressed (b : Bracket) (m : Match) : bool :=
  match parentOf b m with
  | Some pm => decided pm
  | None => false
  end.

(** Modelled from the spec: the missing server operation
    [setWinner(match_id, slot)]: "requires both slots filled
    (PreconditionError otherwise: cannot set a winner before both slots are
    filled); sets winner to the entity in slot, marks decided, and
    propagates: writes the winner into parent_match_id's parent_match_slot.
    Idempotent if called again with the same slot; fails with ConflictError
    if the match already has a different winner recorded and the winner has
    already propagated into a parent match that has itself progressed
    further"; a slot holding no real entrant cannot win. *)
Definition setWinner (b : Bracket) (k : Z) (s : Slot) : Error + Bracket :=
  match find b k with
  | None => inl NotFoundError
  | Some m =>
      if negb (filled (slot1 m) && filled (slot2 m)) then
        inl (PreconditionError "cannot set a winner before both slots are filled")
      else
        match slotOf m s with
        | Entity e =>
            match winner m with
            | Some w =>
                if w =? e then inr b
                else if parentProgressed b m then
                  inl (ConflictError "downstream match already decided on this result; clear it first")
                else inr (propagate (update b k (withWinner (Some e))) m e)
            | None => inr (propagate (update b k (withWinner (Some e))) m e)
            end
        | Empty | Bye => inl (PreconditionError "no real entrant present")
        end
  end.

(** Modelled from the spec: the missing step that clears "the value it had
    written into the parent slot". *)
Definition unpropagate (b : Bracket) (m : Match) (e : Z) : Bracket :=
  match parent_match_id m, parent_match_slot m with
  | Some p, Some s =>
      update b p (fun pm => if bool_decide (slotOf pm s = Entity e)
                            then withSlot s Empty pm else pm)
  | _, _ => b
  end.

(** Modelled from the spec: the missing server operation
    [clearWinner(match_id)]: "reverts the match to ready and must also clear
    the value it had written into the parent slot, UNLESS the parent match
    has itself reached decided using that winner as an input to its own
    decision - in which case the operation fails with ConflictError"; a
    match without a winner is left as it is. *)
Definition clearWinner (b : Bracket) (k : Z) : Error + Bracket :=
  match find b k with
  | None => inl NotFoundError
  | Some m =>
      match winner m with
      | None => inr b
      | Some e =>
          if parentDecidedOn b m e then
            inl (ConflictError "downstream match already decided on this result; clear it first")
          else inr (unpropagate (update b k (withWinner None)) m e)
      end
  end.

(** Modelled from the spec: the missing server operation
    [swapSlots(matchA, slotA, matchB, slotB)]: "exchanges the two slot
    contents atomically; fails with NoOpError if
    (matchA,slotA) == (matchB,slotB)".  Both contents are read first and
    both slots written in the one transition. *)
Definition swapSlots (b : Bracket) (ka : Z) (sa : Slot) (kb : Z) (sb : Slot)
  : Error + Bracket :=
  if (ka =? kb) && bool_decide (sa = sb) then inl NoOpError
  else
    match find b ka, find b kb with
    | Some ma, Some mb =>
        inr (update (update b ka (withSlot sa (slotOf mb sb)))
                    kb (withSlot sb (slotOf ma sa)))
    | _, _ => inl NotFoundError
    end.

(** Modelled from the spec: the downstream match and slot that the missing
    record's [parent_match_id] / [parent_match_slot] identify, if any. *)
Definition target (m : Match) : option (Z * Slot) :=
  match parent_match_id m, parent_match_slot m with
  | Some p, Some s => Some (p, s)
  | _, _ => None
  end.

(** Modelled from the spec: the state [ready] of the missing per-match state
    machine: both slots filled, no winner. *)
Definition ready (m : Match) : Prop :=
  filled (slot1 m) = true /\ filled (slot2 m) = true /\ winner m = None.

End Engine.

(** ** Concrete data for the examples of Part II *)
Module Samples.
Import Js Roster Teams Bracket Client.

Definition sampleEntrant (n : Z) (name : string) : Entrant :=
  {| entry_id := IdNum n; display_name := name;
     list_type := Some "participant"; original_list_type := Some "participant";
     source := Some "manual" |}.

(** A standby entry waiting on the bench, and one substituted into a team. *)
Definition bench : Entrant :=
  {| entry_id := IdNum 8; display_name := "Eve";
     list_type := Some "standby"; original_list_type := Some "standby";
     source := Some "manual" |}.

Definition substitute : Entrant :=
  {| entry_id := IdNum 9; display_name := "Fay";
     list_type := Some "participant"; original_list_type := Some "standby";
     source := Some "manual" |}.

Definition sampleTeams : list Team :=
  [ {| team_id := IdNum 1; team_name := "Team 1";
       members := [ {| member_id := IdNum 1; member_display_name := "Ann" |};
                    {| member_id := IdNum 2; member_display_name := "Bob" |} ] |};
    {| team_id := IdNum 2; team_name := "Team 2";
       members := [ {| member_id := IdNum 3; member_display_name := "Cy" |} ] |} ].

Definition samplePeople : list Entrant :=
  [ sampleEntrant 1 "Ann"; sampleEntrant 2 "Bob"; sampleEntrant 3 "Cy"; sampleEntrant 4 "Dee" ].

(** A match of a team bracket with the given slot names and ids. *)
Definition teamMatch (id round : Z) (section : option string)
    (n1 n2 : option string) (i1 i2 : option Z)
    (winner : option string) (parent : option Z) (slot : option Z) : Match :=
  {| match_id := IdNum id; round_num := round; bracket_section := section;
     team1_id := IdNum <$> i1; team2_id := IdNum <$> i2;
     manual_entry1_id := None; manual_entry2_id := None;
     player1_id := None; player2_id := None;
     team1_name := n1; team2_name := n2;
     player1_name := None; player2_name := None;
     winner_team_id := None; winner_manual_entry_id := None; winner_player_id := None;
     winner_name := winner;
     parent_match_id := IdNum <$> parent; parent_match_slot := slot;
     inferred_winner := false |}.

(** A semifinal without a recorded winner whose first team already sits in
    slot 1 of the final. *)
Definition semi : Match :=
  teamMatch 1 1 None (Some "Alpha") (Some "Beta") (Some 11) (Some 12) None (Some 3) (Some 1).

Definition semi2 : Match :=
  teamMatch 2 1 None (Some "Gamma") (Some "Delta") (Some 13) (Some 14) None (Some 3) (Some 2).

Definition final : Match :=
  teamMatch 3 2 None (Some "Alpha") None (Some 11) None None None None.

(** A decided first-round match of a two-round bracket. *)
Definition decided : Match :=
  teamMatch 1 1 None (Some "Alpha") (Some "Beta") (Some 11) (Some 12) (Some "Alpha") (Some 3) (Some 1).

Definition decidedRounds : list (Z * list Match) := [(1, [decided; semi2]); (2, [final])].

Definition allHandlers : Handlers :=
  {| onUpdateMatch := true; onSwapSlots := true; onAdvanceOpponent := true;
     onSetWinner := true; onSwapWinner := true; onClearWinner := true |}.

(** A first-round match whose second team has withdrawn, and a match with
    two empty slots. *)
Definition walkover : Match :=
  teamMatch 4 1 None (Some "Alpha") None (Some 11) None None (Some 3) (Some 1).

Definition vacant : Match :=
  teamMatch 5 1 None None None None None None None None.

(** The state of [App] on a 2v2 tournament showing these matches. *)
Definition sampleState : AppState :=
  {| tournamentId := Some 7;
     bracket := Some {| rounds := Some [(1, [decided; semi2; walkover; vacant]); (2, [final])];
                        format := Some "2v2" |} |}.

(** A match of a 1v1 bracket between the manual entry 7 and the player 6,
    and the state of [App] on a 1v1 tournament showing it. *)
Definition mixed : Match :=
  {| match_id := IdNum 8; round_num := 1; bracket_section := None;
     team1_id := None; team2_id := None;
     manual_entry1_id := Some (IdNum 7); manual_entry2_id := None;
     player1_id := None; player2_id := Some (IdNum 6);
     team1_name := None; team2_name := None;
     player1_name := Some "Ann"; player2_name := Some "Bob";
     winner_team_id := None; winner_manual_entry_id := None; winner_player_id := None;
     winner_name := None;
     parent_match_id := None; parent_match_slot := None;
     inferred_winner := false |}.

Definition soloState : AppState :=
  {| tournamentId := Some 7;
     bracket := Some {| rounds := Some [(1, [mixed])]; format := Some "1v1" |} |}.

Definition sampleRounds : list (Z * list Match) := [(1, [semi; semi2]); (2, [final])].
Definition sampleStore : list Match := [semi; semi2; final].
Definition sampleRefs : list (Z * list nat) := [(1, [0%nat; 1%nat]); (2, [2%nat])].

End Samples.

(** ** Concrete brackets for the examples of the engine *)
Module EngineSamples.
Import Engine.

Definition engineMatch (k round : Z) (c1 c2 : Content) (w : option Z)
    (parent : option (Z * Slot)) : Match :=
  {| match_id := k; round_num := round; bracket_section := Winners;
     slot1 := c1; slot2 := c2; winner := w;
     parent_match_id := fst <$> parent; parent_match_slot := snd <$> parent |}.

(** Entrants 10 and 20 meet in match 1, which feeds slot 1 of match 2. *)
Definition opening : Match :=
  engineMatch 1 1 (Entity 10) (Entity 20) None (Some (2, Slot1)).

(** The usual state: the downstream slot is still empty. *)
Definition fresh : list Match :=
  [opening; engineMatch 2 2 Empty Empty None None].

(** Entrant 30 was placed by hand ([setSlot]) in the downstream slot. *)
Definition prefilled : list Match :=
  [opening; engineMatch 2 2 (Entity 30) Empty None None].

End EngineSamples.

(** ** The other team edits of [TeamsView] and its pool of unassigned people *)
Module TeamEdits.
Import Js Roster Teams.

(** [new Set(teams.flatMap((t) => t.members.map((m) => m.id)))], as the list
    of its elements. *)
Definition assignedIds (teams : list Team) : list ident :=
  flat_map (fun t => map member_id (members t)) teams.

(** [allPeople.filter((p) => !assignedIds.has(p.id))]: [Set.has] compares
    numbers and strings as [===] does. *)
Definition unassigned (participants standby : list Entrant) (teams : list Team) : list Person :=
  List.filter (fun p => negb (existsb (strictEq (entry_id (person p))) (assignedIds teams)))
              (allPeople participants standby).

(** The id a [DraggablePlayer] registers: [`player-${id}`]; the id of the
    drop zone of a [TeamCard]: [`team-${team.id}`]. *)
Definition playerId (id : ident) : string := "player-" +:+ toStr id.

(** [handleAddTeam()]; [now] is the value of [Date.now()].  The result is
    the argument of [onUpdateTeams]. *)
Definition handleAddTeam (now : Z) (teams : list Team) : list Team :=
  let num := Z.of_nat (length teams) + 1 in
  teams ++ [ {| team_id := IdStr ("new-" +:+ toStr (IdNum now));
                team_name := "Team " +:+ toStr (IdNum num);
                members := [] |} ].

(** [handleRemoveTeam(teamId)]; [None] when it returns without calling
    [onUpdateTeams]. *)
Definition handleRemoveTeam (teams : list Team) (teamId : ident) : option (list Team) :=
  match List.find (fun t => bool_decide (toStr (team_id t) = toStr teamId)) teams with
  | None => None
  | Some _ =>
      Some (List.filter (fun t => negb (bool_decide (toStr (team_id t) = toStr teamId))) teams)
  end.

(** [handleRenameTeam(teamId, newName)] *)
Definition handleRenameTeam (teams : list Team) (teamId : ident) (newName : string) : list Team :=
  map (fun t => if bool_decide (toStr (team_id t) = toStr teamId)
                then {| team_id := team_id t; team_name := newName; members := members t |}
                else t) teams.

(** The exchange a drop on another player performs on a member:
    [_sameId(m.id, entryId) ? { id: targetPerson.id, ... }
       : _sameId(m.id, targetId) ? { id: person.id, ... } : m]. *)
Definition exchange (entryId targetId : ident) (who targetPerson : Person) (m : Member) : Member :=
  if _sameId (member_id m) entryId then asMember targetPerson
  else if _sameId (member_id m) targetId then asMember who
  else m.

(** A person is a member of at most one team of the list. *)
Definition inOneTeam (x : ident) (teams : list Team) : Prop :=
  forall t1 t2, In t1 teams -> In t2 teams ->
    hasMember x t1 = true -> hasMember x t2 = true -> t1 = t2.

End TeamEdits.

(** ** The grid of [BracketTree] *)
Module Layout.
Import Js Bracket.

(** [const totalRows = Math.max(firstRoundMatches * 2, 4)] *)
Definition totalRows (firstRoundMatches : nat) : Z :=
  Z.max (Z.of_nat firstRoundMatches * 2) 4.

(** [const rowSpan = Math.max(1, Math.floor(rows / matches.length))].  It is
    read inside [matches.forEach] only, that is for a round with at least
    one match. *)
Definition rowSpan (rows : Z) (n : nat) : Z :=
  Z.max 1 (rows / Z.of_nat n).

(** A grid cell: [gridColumn: colIdx + 1],
    [gridRow: `${r + 1} / span ${rowSpan}`] with [r = i * rowSpan], and the
    match it shows. *)
Record Cell : Type := {
  gridColumn : Z;
  gridRowStart : Z;
  gridRowSpan : Z;
  shown : Match
}.

(** The body of [roundEntries.forEach(([roundNum, matches], colIdx) => ...)]. *)
Definition columnCells (rows : Z) (colIdx : nat) (matches : list Match) : list Cell :=
  imap (fun i m =>
          {| gridColumn := Z.of_nat colIdx + 1;
             gridRowStart := Z.of_nat i * rowSpan rows (length matches) + 1;
             gridRowSpan := rowSpan rows (length matches);
             shown := m |})
       matches.

(** [cells], column after column; without round entries the component
    returns before building any. *)
Definition cells (rounds : Rounds) : list (list Cell) :=
  let entries := roundEntries rounds in
  match entries with
  | [] => []
  | (_, first) :: _ =>
      let rows := totalRows (length first) in
      imap (fun colIdx e => columnCells rows colIdx e.2) entries
  end.

End Layout.

(** ** The tabs of [App] and the address bar *)
Module Navigation.
Import Js.

(** A tournament of the list [App] keeps: its [id] and [format]. *)
Record Tournament : Type := {
  tournament_id : Z;
  tournament_format : option string
}.

(** [tournaments.find((t) => t.id === tournamentId)?.format]; the selected
    id is a number or [null]. *)
Definition formatOf (tournaments : list Tournament) (tournamentId : option Z) : option string :=
  List.find (fun t => bool_decide (Some (tournament_id t) = tournamentId)) tournaments
  ≫= tournament_format.

(** [const isTeamFormat = fmt && fmt !== '1v1'] *)
Definition isTeamFormat (fmt : option string) : bool :=
  truthyStr fmt && negb (bool_decide (fmt = Some "1v1")).

(** [const tabs = ['players', ...(isTeamFormat ? ['teams'] : []), 'bracket']] *)
Definition tabs (fmt : option string) : list string :=
  ["players"] ++ (if isTeamFormat fmt then ["teams"] else []) ++ ["bracket"].

(** The target of a tab's link: [tab === 'players' ? '/' : `/${tab}`]. *)
Definition tabPath (tab : string) : string :=
  if bool_decide (tab = "players") then "/" else "/" +:+ tab.

Definition validTabs : list string := ["players"; "teams"; "bracket"].

(** What the effect that follows [location.pathname] does. *)
Inductive TabEffect : Type :=
| Navigate (path : string)
| SetActiveTab (tab : string)
| NoEffect.

(** The effect "Sync activeTab with URL path". *)
Definition syncTab (path : string) (tournaments : list Tournament) (tournamentId : option Z)
  : TabEffect :=
  if bool_decide (path = "/participants") || bool_decide (path = "/standby") then Navigate "/"
  else
    let tabFromPath := if bool_decide (path = "/") then "players" else dropStr 1 path in
    if bool_decide (tabFromPath ∈ validTabs) then
      let fmt := formatOf tournaments tournamentId in
      let knowFormat :=
        (0 <? length tournaments)%nat && truthyNum tournamentId && truthyStr fmt in
      if bool_decide (tabFromPath = "teams") && knowFormat && negb (isTeamFormat fmt)
      then Navigate "/"
      else SetActiveTab tabFromPath
    else NoEffect.

(** What [fetchTournaments] selects once the list has arrived:
    [const valid = saved && list.some((t) => t.id === saved)], then
    [setTournamentId(valid ? saved : list[0].id)]; with an empty list the
    selection is left alone ([None]).  [saved] is the stored id, [None] when
    nothing usable is stored. *)
Definition selectAfterFetch (saved : option Z) (list : list Tournament) : option Z :=
  match list with
  | [] => None
  | first :: _ =>
      let valid :=
        truthyNum saved
        && existsb (fun t => bool_decide (Some (tournament_id t) = saved)) list in
      if valid then saved else Some (tournament_id first)
  end.

End Navigation.

(** ** The session of [AuthContext] *)
Module Auth.
Import Js.

(** The user object: [{ username, role }]; a reply without a [role] gives
    [None]. *)
Record User : Type := {
  username : string;
  role : option string
}.

(** [const canEdit = user && (user.role === 'moderator' || user.role === 'admin')] *)
Definition canEdit (user : option User) : bool :=
  match user with
  | Some u => bool_decide (role u = Some "moderator") || bool_decide (role u = Some "admin")
  | None => false
  end.

(** [const isAdmin = user && user.role === 'admin'] *)
Definition isAdmin (user : option User) : bool :=
  match user with
  | Some u => bool_decide (role u = Some "admin")
  | None => false
  end.

(** The token in [localStorage] and the [user] state. *)
Record Session : Type := {
  token : option string;
  user : option User
}.

(** The headers [authFetch] sends:
    [if (t) { headers.Authorization = `Bearer ${t}`; headers['X-Auth-Token'] = t }]. *)
Definition authHeaders (s : Session) (headers : gmap string string) : gmap string string :=
  match token s with
  | Some t =>
      if truthyStr (Some t)
      then <["X-Auth-Token" := t]> (<["Authorization" := "Bearer " +:+ t]> headers)
      else headers
  | None => headers
  end.

(** [logout()] *)
Definition logout (s : Session) : Session :=
  {| token := None; user := None |}.

(** [authFetch(url, opts)] on a reply with the given status: the headers it
    sent and the session it leaves. *)
Definition authFetch (s : Session) (headers : gmap string string) (status : Z)
  : gmap string string * Session :=
  (authHeaders s headers,
   if status =? 401 then {| token := None; user := None |} else s).

End Auth.

(** ** The moves of [ParticipantsAndStandbyView] and the roster requests *)
Module RosterMoves.
Import Js Roster Client.

(** [list.findIndex(f)]: the first index, [-1] without one. *)
Fixpoint findIndex {A : Type} (f : A -> bool) (l : list A) : Z :=
  match l with
  | [] => -1
  | x :: l' =>
      if f x then 0
      else let i := findIndex f l' in if i <? 0 then -1 else i + 1
  end.

Section Moves.

(** [arrayMove] of [@dnd-kit/sortable], which the sources import. *)
Variable arrayMove : list ident -> Z -> Z -> list ident.

(** [moveUp(list, id, onReorder)]: the argument of [onReorder], [None] when
    it returns without calling it.  The source's [list] is [items] here. *)
Definition moveUp (items : list Entrant) (id : ident) : option (list ident) :=
  let idx := findIndex (fun i => strictEq (entry_id i) id) items in
  if idx <=? 0 then None
  else
    let ids := map entry_id items in
    Some (arrayMove ids idx (idx - 1)).

(** [moveDown(list, id, onReorder)] *)
Definition moveDown (items : list Entrant) (id : ident) : option (list ident) :=
  let idx := findIndex (fun i => strictEq (entry_id i) id) items in
  if (idx <? 0) || (Z.of_nat (length items) - 1 <=? idx) then None
  else
    let ids := map entry_id items in
    Some (arrayMove ids idx (idx + 1)).

End Moves.

(** [id] first occurs at position [i] of the roster. *)
Definition firstAt (items : list Entrant) (id : ident) (i : nat) : Prop :=
  exists x, items !! i = Some x /\ entry_id x = id
            /\ forall j y, (j < i)%nat -> items !! j = Some y -> entry_id y <> id.

(** The error of a handler that awaits [authFetch] without looking at the
    reply: only a rejected [fetch] reaches [catch]. *)
Definition errorOfNetwork (resp : Response) : option string :=
  match resp with
  | NetworkError message => Some message
  | Reply _ _ _ => None
  end.

(** [removeParticipant(id)] *)
Definition removeParticipant (st : AppState) (id : ident) (resp : Response) : Outcome :=
  let base := "/api/tournaments/" +:+ numStr (tournamentId st) in
  let isDiscord :=
    match id with
    | IdStr s => startsWith s "discord:"
    | IdNum _ => false
    end in
  if isDiscord then
    let playerId := removeFirst "discord:" (toStr id) in
    Sent {| method := "DELETE"; url := base +:+ "/registrations/" +:+ playerId; body := ∅ |}
         (errorOfNetwork resp)
  else
    Sent {| method := "DELETE"; url := base +:+ "/participants/" +:+ toStr id; body := ∅ |}
         (errorOfNetwork resp).

(** [const manualIds = entryIds.filter((id) => typeof id === 'number')], the
    [entry_ids] that [reorderParticipants] sends. *)
Definition manualIds (entryIds : list ident) : list ident :=
  List.filter (fun id => match id with IdNum _ => true | IdStr _ => false end) entryIds.

(** [const hasData = fmt === '1v1' ? participants.length >= 2 : teams.length >= 2],
    in [fetchPreview] and in the effect that calls it. *)
Definition hasData (fmt : option string) (participants : list Entrant)
    (teams : list Teams.Team) : bool :=
  if bool_decide (fmt = Some "1v1") then (2 <=? length participants)%nat
  else (2 <=? length teams)%nat.

(** The preview effect:
    [if (activeTab === 'bracket' && !hasBracket && hasData) fetchPreview()
     else setPreviewBracket(null)]; [true]: [fetchPreview] is called. *)
Definition previewWanted (activeTab : string) (hasBracket : bool) (fmt : option string)
    (participants : list Entrant) (teams : list Teams.Team) : bool :=
  bool_decide (activeTab = "bracket") && negb hasBracket && hasData fmt participants teams.

End RosterMoves.

(** ** The drag between the two roster lists *)
Module RosterDrag.
Import Js Roster.

Section Drag.

(** JavaScript numbers as [handleDragEnd] meets them: [Number(s)],
    [Number.isFinite(n)], and [id === n] for an id of the payload. *)
Variable number : Type.
Variable Number : string -> number.
Variable isFinite : number -> bool.
Variable sameNumber : ident -> number -> bool.

(** [handleDragEnd(event)] of [ParticipantsAndStandbyView]: the arguments of
    [onMoveEntry], [None] when it is not called. *)
Definition handleDragEnd (standby : list Entrant) (activeId : string) (over : option string)
  : option (number * string) :=
  match over with
  | None => None
  | Some overId =>
      if bool_decide (overId = "zone-standby") && startsWith activeId "p-" then
        let rawId := removeFirst "p-" activeId in
        let entryId := Number rawId in
        if isFinite entryId && negb (startsWith rawId "discord:")
        then Some (entryId, "standby")
        else None
      else if bool_decide (overId = "zone-participants") && startsWith activeId "s-" then
        let entryId := Number (removeFirst "s-" activeId) in
        match List.find (fun s => sameNumber (entry_id s) entryId) standby with
        | Some item =>
            if bool_decide (list_type item = Some "standby")
            then Some (entryId, "participant")
            else None
        | None => None
        end
      else None
  end.

End Drag.

(** The id a [RosterItem] registers for dragging: [`${prefix}-${item.id}`]. *)
Definition dragId (prefix : string) (it : Entrant) : string :=
  prefix +:+ "-" +:+ toStr (entry_id it).

End RosterDrag.

(** ** Clicks, and more concrete data for the examples *)
Module ViewSamples.
Import Js Bracket Samples.

(** The props of a view that received no callback, as the preview does. *)
Definition noHandlers : Handlers :=
  {| onUpdateMatch := false; onSwapSlots := false; onAdvanceOpponent := false;
     onSetWinner := false; onSwapWinner := false; onClearWinner := false |}.

(** The match a click is about: the first argument of the callback. *)
Definition matchOf (a : action) : ident :=
  match a with
  | SetWinner i _ | AdvanceOpponent i _ | SwapWinner i | ClearWinner i => i
  end.

(** A small double-elimination payload: a decided winners match, a losers
    match and the grand final. *)
Definition upper : Match :=
  teamMatch 1 1 (Some "winners") (Some "Alpha") (Some "Beta") (Some 11) (Some 12)
            (Some "Alpha") None None.
Definition lower : Match :=
  teamMatch 2 11 (Some "losers") (Some "Beta") (Some "Gamma") (Some 12) (Some 13)
            None None None.
Definition grand : Match :=
  teamMatch 3 21 (Some "grand_finals") (Some "Alpha") None (Some 11) None None None None.
Definition doubleRounds : list (Z * list Match) := [(1, [upper]); (11, [lower]); (21, [grand])].

End ViewSamples.

(** ** Proof tactics *)

Ltac roster_cases :=
  repeat match goal with
         | H : _ \/ _ |- _ => destruct H as [H|H]
         | H : (_, _) = (_, _) |- _ => first [discriminate H | injection H as <-]
         | H : False |- _ => destruct H
         | H : _ /\ _ |- _ => destruct H
         | H : true = false |- _ => discriminate H
         end; auto.

Ltac eval_digit :=
  match goal with
  | |- context [Js.digitVal ?c] =>
      let v := eval vm_compute in (Js.digitVal c) in change (Js.digitVal c) with v
  end.

Ltac view_cases :=
  repeat match goal with
         | H : _ ∈ _ ++ _ |- _ => apply elem_of_app in H as [H|H]
         | H : _ ∈ (if ?b then _ else _) |- _ => destruct b eqn:?
         | H : _ ∈ [] |- _ => inversion H
         | H : _ ∈ _ :: _ |- _ => apply elem_of_cons in H as [H|H]
         | H : ?a = _, Hc : Bracket.correction ?a = true |- _ => subst a; simpl in Hc
         | H : false = true |- _ => discriminate H
         | H : Bracket.correction (if ?b then _ else _) = true |- _ => destruct b eqn:?
         | H : _ && _ = true |- _ => apply andb_true_iff in H as [? ?]
         | H : negb _ = true |- _ => apply negb_true_iff in H
         end.

(* ====================================================================== *)
(** * Part II.  Properties *)
(* ====================================================================== *)

Section RosterProperties.
Import Js Roster Samples.

Lemma inGame_spec (it : Entrant) :
  inGame it = true <->
  original_list_type it = Some "standby" /\ list_type it <> Some "standby".
Proof.
  unfold inGame. rewrite andb_true_iff, negb_true_iff.
  rewrite bool_decide_eq_true, bool_decide_eq_false. reflexivity.
Qed.

(** C5 (in-game lock).  In the standby column an entry is "in game" exactly
    when [original_list_type = 'standby'] and [list_type <> 'standby'].  For
    such an entry the row receives no remove callback and [canRemove] is
    false, so no Remove button is rendered whatever the row's state; every
    other standby entry keeps its Remove button in an editable row, and the
    click calls [removeStandby] with the entry's id. *)
Theorem standby_remove_locked_iff_inGame (it : Entrant) :
  (inGame it = true <->
     original_list_type it = Some "standby" /\ list_type it <> Some "standby")
  /\ (forall ro, onRemove (standbyItem ro it) = None <-> inGame it = true)
  /\ (forall ro, canRemove (standbyItem ro it) = negb (inGame it))
  /\ (forall ro editing eff,
        In (RemoveBtn, eff) (RosterItem (standbyItem ro it) editing) ->
        inGame it = false /\ eff = Some (removeStandby, entry_id it))
  /\ (forall editing ro,
        In (RemoveBtn, Some (removeStandby, entry_id it))
           (RosterItem (standbyItem ro it) editing)
        <-> inGame it = false /\ ro = false /\ editing = false).
Proof.
  split; [apply inGame_spec|].
  split; [intros ro; simpl; destruct (inGame it); split; congruence|].
  split; [reflexivity|].
  split.
  - intros ro editing eff. unfold RosterItem; simpl.
    destruct ro, editing, (inGame it); simpl; intros H; roster_cases.
  - intros editing ro. unfold RosterItem; simpl.
    destruct ro, editing, (inGame it); simpl; split; intros H; roster_cases.
Qed.

(** Eve on the bench can be removed; Fay, playing in a team, cannot. *)
Lemma standby_remove_locked_iff_inGame_witness :
  In (RemoveBtn, Some (removeStandby, entry_id bench))
     (RosterItem (standbyItem false bench) false)
  /\ inGame substitute = true.
Proof.
  split.
  - apply (proj2 (proj2 (proj2 (proj2 (standby_remove_locked_iff_inGame bench)))) false false).
    repeat split.
  - apply (proj1 (standby_remove_locked_iff_inGame substitute)).
    split; [reflexivity|discriminate].
Defined.

End RosterProperties.

Section TeamsProperties.
Import Js Roster Teams.

Variable format : option string.
Variables participants standby : list Entrant.

Lemma fits_filter cap t f :
  fits cap t -> fits cap (withMembers t (List.filter f (members t))).
Proof.
  unfold fits; simpl; intros H.
  pose proof (List.filter_length_le f (members t)). lia.
Qed.

Lemma fits_map cap t g :
  fits cap t -> fits cap (withMembers t (map g (members t))).
Proof. unfold fits; simpl. now rewrite List.length_map. Qed.

Lemma fits_append cap t m :
  Z.of_nat (length (members t)) < cap ->
  fits cap (withMembers t (members t ++ [m])).
Proof. unfold fits; simpl. rewrite List.length_app; simpl. lia. Qed.

(** With pairwise distinct [String(t.id)], the team that [teams.find] returns
    for an id is the only team of the list carrying that id. *)
Lemma find_by_id_unique (teams : list Team) tid target t :
  NoDup (map (fun t => toStr (team_id t)) teams) ->
  List.find (fun t => bool_decide (toStr (team_id t) = tid)) teams = Some target ->
  In t teams -> toStr (team_id t) = tid -> t = target.
Proof.
  induction teams as [|a teams IH]; simpl; [discriminate|].
  intros Hnd Hfind Hin Hid. apply NoDup_cons in Hnd as [Hnotin Hnd].
  case_bool_decide as Ha.
  - injection Hfind as <-. destruct Hin as [->|Hin]; [reflexivity|].
    exfalso. apply Hnotin. apply list_elem_of_In, List.in_map_iff.
    exists t. split; [congruence|assumption].
  - destruct Hin as [->|Hin]; [contradiction|]. now apply IH.
Qed.

Lemma handleDragEnd_fits teams activeId over newTeams :
  NoDup (map (fun t => toStr (team_id t)) teams) ->
  Forall (fits (maxPerTeam format)) teams ->
  handleDragEnd format participants standby teams activeId over = Some newTeams ->
  Forall (fits (maxPerTeam format)) newTeams.
Proof.
  intros Hnd Hfit. unfold handleDragEnd.
  destruct over as [overId|]; [|discriminate].
  destruct (startsWith activeId "player-"); simpl; [|discriminate].
  set (entryId := IdStr (removeFirst "player-" activeId)).
  rewrite List.Forall_forall in Hfit.
  case_bool_decide as Hun.
  { (* dropped on the pool *)
    intros [= <-]. apply List.Forall_forall. intros t Ht.
    apply List.filter_In in Ht as [Ht _].
    apply List.in_map_iff in Ht as (t0 & <- & Ht0).
    apply (fits_filter _ t0), Hfit, Ht0. }
  destruct (startsWith overId "player-").
  { (* dropped on another player *)
    destruct (_sameId _ entryId); [discriminate|].
    destruct (List.find _ _) as [who|]; [|discriminate].
    destruct (List.find _ _) as [targetPerson|]; [|discriminate].
    intros [= <-]. apply List.Forall_forall. intros t Ht.
    apply List.in_map_iff in Ht as (t0 & <- & Ht0).
    specialize (Hfit _ Ht0).
    repeat match goal with |- context [if ?b then _ else _] => destruct b end;
      simpl; auto using fits_map. }
  destruct (startsWith overId "team-"); [|discriminate].
  (* dropped on a team *)
  set (teamId := removeFirst "team-" overId).
  destruct (List.find (fun t => bool_decide (toStr (team_id t) = teamId)) teams)
    as [targetTeam|] eqn:Htarget; [|discriminate].
  destruct (Z.leb_spec (maxPerTeam format) (Z.of_nat (length (members targetTeam))))
    as [|Hroom]; [discriminate|].
  destruct (List.find _ (allPeople _ _)) as [who|]; [|discriminate].
  assert (Happend : forall t0, In t0 teams -> toStr (team_id t0) = teamId ->
            fits (maxPerTeam format) (withMembers t0 (members t0 ++ [asMember who]))).
  { intros t0 Ht0 Hid. rewrite (find_by_id_unique teams teamId targetTeam t0); auto.
    now apply fits_append. }
  destruct (List.find (hasMember entryId) teams) as [c|];
    intros [= <-]; apply List.Forall_forall; intros t Ht;
    apply List.in_map_iff in Ht as (t0 & <- & Ht0); specialize (Hfit _ Ht0);
    repeat case_bool_decide; try destruct (hasMember entryId t0);
    auto using fits_filter.
Qed.

End TeamsProperties.

Section FormatProperties.
Import Js Teams.

Lemma beforeFirst_digits d rest :
  beforeFirst "v" (NilEmpty.string_of_uint d +:+ String "v" rest)
  = NilEmpty.string_of_uint d.
Proof. induction d; simpl; congruence. Qed.

Lemma digitsAcc_pos d a :
  digitsAcc digitVal 10 (NilEmpty.string_of_uint d) (Some (Z.pos a))
  = Some (Z.pos (Pos.of_uint_acc d a)).
Proof.
  revert a; induction d; intros a; [reflexivity|..];
    cbn -[Z.mul Z.add Pos.mul Pos.add digitVal]; eval_digit; cbv iota;
    match goal with
    | |- digitsAcc _ _ _ (Some ?z) = Some (Z.pos (Pos.of_uint_acc _ ?q)) =>
        replace z with (Z.pos q) by lia
    end; apply IHd.
Qed.

Lemma digitsAcc_zero d :
  d <> Decimal.Nil ->
  digitsAcc digitVal 10 (NilEmpty.string_of_uint d) (Some 0)
  = Some (Z.of_N (Pos.of_uint d)).
Proof.
  induction d; intros Hd; [contradiction|..];
    cbn -[Z.mul Z.add Pos.mul Pos.add digitVal]; eval_digit; cbv iota.
  - destruct d; [reflexivity|apply IHd; discriminate..].
  - apply (digitsAcc_pos d 1).
  - apply (digitsAcc_pos d 2).
  - apply (digitsAcc_pos d 3).
  - apply (digitsAcc_pos d 4).
  - apply (digitsAcc_pos d 5).
  - apply (digitsAcc_pos d 6).
  - apply (digitsAcc_pos d 7).
  - apply (digitsAcc_pos d 8).
  - apply (digitsAcc_pos d 9).
Qed.

Lemma digitsAcc_start d :
  d <> Decimal.Nil ->
  digitsAcc digitVal 10 (NilEmpty.string_of_uint d) None
  = Some (Z.of_N (Pos.of_uint d)).
Proof.
  intros Hd. rewrite <- (digitsAcc_zero d Hd).
  destruct d; [contradiction|reflexivity..].
Qed.

(** [parseInt] reads the digits of a positive number as the double nearest
    to it. *)
Lemma parseInt_decimal p :
  parseInt (decimal (Z.pos p)) = Some (toDouble (Z.pos p)).
Proof.
  unfold decimal. cbn [Z.to_int NilZero.string_of_int].
  pose proof (DecimalPos.Unsigned.to_uint_nonnil p) as Hnil.
  pose proof (DecimalPos.Unsigned.of_to p) as Hval.
  assert (Hparse : parseInt (NilEmpty.string_of_uint (Pos.to_uint p))
                   = toDouble <$> digitsAcc digitVal 10
                                    (NilEmpty.string_of_uint (Pos.to_uint p)) None).
  { destruct (Pos.to_uint p) as [|d|d|d|d|d|d|d|d|d|d]; try reflexivity.
    destruct d; reflexivity. }
  unfold NilZero.string_of_uint.
  destruct (Pos.to_uint p) eqn:E; try contradiction;
    rewrite Hparse, digitsAcc_start, Hval by discriminate; reflexivity.
Qed.

(** Up to 2^53 the double nearest to an integer is the integer. *)
Lemma toDouble_exact n : n <= 2 ^ 53 -> toDouble n = n.
Proof. intros H. unfold toDouble. now rewrite (proj2 (Z.leb_le _ _) H). Qed.

Lemma beforeFirst_decimal p rest :
  beforeFirst "v" (decimal (Z.pos p) +:+ String "v" rest) = decimal (Z.pos p).
Proof.
  unfold decimal. cbn [Z.to_int NilZero.string_of_int]. unfold NilZero.string_of_uint.
  pose proof (DecimalPos.Unsigned.to_uint_nonnil p) as Hnil.
  destruct (Pos.to_uint p) eqn:E; try contradiction;
    rewrite <- E at 1; rewrite <- E; apply beforeFirst_digits.
Qed.

(** The format ['NvN'] gives the double nearest to [N]: [N] itself up to
    2^53. *)
Lemma maxPerTeam_NvN p :
  maxPerTeam (Some (decimal (Z.pos p) +:+ "v" +:+ decimal (Z.pos p)))
  = toDouble (Z.pos p).
Proof.
  unfold maxPerTeam. cbn [mbind option_bind].
  change (decimal (Z.pos p) +:+ "v" +:+ decimal (Z.pos p))
    with (decimal (Z.pos p) +:+ String "v" (decimal (Z.pos p))).
  rewrite beforeFirst_decimal, parseInt_decimal.
  destruct (Z.eqb_spec (toDouble (Z.pos p)) 0) as [H0|]; [|reflexivity].
  exfalso. unfold toDouble in H0.
  destruct (Z.leb_spec (Z.pos p) (2 ^ 53)); [lia|].
  revert H0. cbv zeta.
  set (e := Z.log2 (Z.pos p) - 52).
  assert (He : 0 < e).
  { unfold e. assert (53 <= Z.log2 (Z.pos p)); [|lia].
    apply Z.log2_le_pow2; lia. }
  intros H0. rewrite Z.shiftl_mul_pow2 in H0 by lia.
  assert (Hq : 0 < Z.shiftr (Z.pos p) e).
  { rewrite Z.shiftr_div_pow2 by lia. apply Z.div_str_pos. split; [lia|].
    apply Z.log2_le_pow2; [lia|]. unfold e. lia. }
  assert (0 < 2 ^ e) by (apply Z.pow_pos_nonneg; lia).
  destruct (_ || _); lia.
Qed.

End FormatProperties.

Section TeamCapacity.
Import Js Roster Teams Samples.

Lemma team_drop_id tid :
  bool_decide ("team-" +:+ tid = "unassigned") = false
  /\ startsWith ("team-" +:+ tid) "player-" = false
  /\ startsWith ("team-" +:+ tid) "team-" = true
  /\ removeFirst "team-" ("team-" +:+ tid) = tid.
Proof.
  change ("team-" +:+ tid)
    with (String "t" (String "e" (String "a" (String "m" (String "-" tid))))).
  unfold startsWith. split; [reflexivity|]. split; [reflexivity|].
  split; cbn; now destruct tid.
Qed.

Lemma handleDragEnd_full_team_rejected format participants standby teams activeId tid target :
  List.find (fun t => bool_decide (toStr (team_id t) = tid)) teams = Some target ->
  maxPerTeam format <= Z.of_nat (length (members target)) ->
  handleDragEnd format participants standby teams activeId (Some ("team-" +:+ tid)) = None.
Proof.
  intros Hfind Hfull. unfold handleDragEnd.
  destruct (startsWith activeId "player-"); [|reflexivity].
  destruct (team_drop_id tid) as (-> & -> & -> & ->).
  cbn -[maxPerTeam]. rewrite Hfind.
  destruct (Z.leb_spec (maxPerTeam format) (Z.of_nat (length (members target))));
    [reflexivity|lia].
Qed.

(** C6 (team capacity), as amended.  The capacity is [maxPerTeam format];
    for the format ['NvN'] with [N] written in decimal it is the double
    nearest to [N], so [N] itself for every [N] from 1 to 2^53.  Team ids
    are keys: the teams of the list carry pairwise distinct [String(id)].
    From such a team list in which every team holds at most the capacity,
    whatever drag ends on the pool, on another player or on a team, the
    list handed to [onUpdateTeams] again holds at most the capacity in
    every team; and a drop on a team that already holds the capacity
    returns without calling [onUpdateTeams]. *)
Theorem handleDragEnd_capacity format participants standby teams :
  NoDup (map (fun t => toStr (team_id t)) teams) ->
  Forall (fits (maxPerTeam format)) teams ->
  (forall activeId over newTeams,
      handleDragEnd format participants standby teams activeId over = Some newTeams ->
      Forall (fits (maxPerTeam format)) newTeams)
  /\ (forall activeId tid target,
      List.find (fun t => bool_decide (toStr (team_id t) = tid)) teams = Some target ->
      maxPerTeam format <= Z.of_nat (length (members target)) ->
      handleDragEnd format participants standby teams activeId (Some ("team-" +:+ tid)) = None)
  /\ (forall N : positive,
      maxPerTeam (Some (decimal (Z.pos N) +:+ "v" +:+ decimal (Z.pos N)))
      = toDouble (Z.pos N))
  /\ (forall N : positive,
      Z.pos N <= 2 ^ 53 ->
      maxPerTeam (Some (decimal (Z.pos N) +:+ "v" +:+ decimal (Z.pos N))) = Z.pos N).
Proof.
  intros Hnd Hfit. split; [|split; [|split]].
  - intros activeId over newTeams. now apply handleDragEnd_fits.
  - intros activeId tid target. apply handleDragEnd_full_team_rejected.
  - apply maxPerTeam_NvN.
  - intros N HN. rewrite maxPerTeam_NvN. now apply toDouble_exact.
Qed.

(** Dee joins Team 2 of a 2v2 tournament; Team 1 is full and refuses her. *)
Lemma handleDragEnd_capacity_witness :
  (exists newTeams,
      handleDragEnd (Some "2v2") samplePeople [] sampleTeams "player-4" (Some "team-2")
      = Some newTeams
      /\ Forall (fits 2) newTeams)
  /\ handleDragEnd (Some "2v2") samplePeople [] sampleTeams "player-4" (Some "team-1") = None.
Proof.
  assert (Hnd : NoDup (map (fun t => toStr (team_id t)) sampleTeams)).
  { refine (bool_decide_unpack _ _). vm_compute. exact I. }
  assert (Hfit : Forall (fits (maxPerTeam (Some "2v2"))) sampleTeams).
  { repeat constructor; unfold fits; simpl; vm_compute; discriminate. }
  destruct (handleDragEnd_capacity (Some "2v2") samplePeople [] sampleTeams Hnd Hfit)
    as (Hkeep & Hfull & _).
  split.
  - eexists. split; [reflexivity|]. apply (Hkeep "player-4" (Some "team-2")). reflexivity.
  - apply (Hfull "player-4" "1" _ eq_refl). vm_compute. discriminate.
Defined.

(** The claim as stated fails twice.  Two teams whose ids, [7] and ['7'],
    read the same as strings: both hold at most two members, Dee is dropped
    on 'team-7'; the capacity test reads the first team with that id, the
    update rewrites every team with that id, and the second team ends with
    three members.  And the format '9007199254740993v9007199254740993'
    gives the capacity 9007199254740992, the double nearest to 2^53 + 1. *)
Example handleDragEnd_shared_team_id :
  let teams :=
    [ {| team_id := IdNum 7; team_name := "A"; members := [] |};
      {| team_id := IdStr "7"; team_name := "B";
         members := [ {| member_id := IdNum 1; member_display_name := "Ann" |};
                      {| member_id := IdNum 2; member_display_name := "Bob" |} ] |} ] in
  maxPerTeam (Some "2v2") = 2
  /\ Forall (fits (maxPerTeam (Some "2v2"))) teams
  /\ handleDragEnd (Some "2v2") samplePeople [] teams "player-4" (Some "team-7")
     = Some
       [ {| team_id := IdNum 7; team_name := "A";
            members := [ {| member_id := IdNum 4; member_display_name := "Dee" |} ] |};
         {| team_id := IdStr "7"; team_name := "B";
            members := [ {| member_id := IdNum 1; member_display_name := "Ann" |};
                         {| member_id := IdNum 2; member_display_name := "Bob" |};
                         {| member_id := IdNum 4; member_display_name := "Dee" |} ] |} ]
  /\ (forall newTeams,
        handleDragEnd (Some "2v2") samplePeople [] teams "player-4" (Some "team-7")
        = Some newTeams ->
        ~ Forall (fits (maxPerTeam (Some "2v2"))) newTeams)
  /\ maxPerTeam (Some "9007199254740993v9007199254740993") = 9007199254740992
  /\ maxPerTeam (Some "9007199254740993v9007199254740993") <> 9007199254740993.
Proof.
  intros teams.
  assert (Hcap : maxPerTeam (Some "2v2") = 2) by (vm_compute; reflexivity).
  split; [exact Hcap|]. rewrite Hcap.
  split; [repeat constructor; unfold fits; simpl; lia|].
  assert (Hrun : handleDragEnd (Some "2v2") samplePeople [] teams "player-4" (Some "team-7")
                 = Some
                   [ {| team_id := IdNum 7; team_name := "A";
                        members := [ {| member_id := IdNum 4; member_display_name := "Dee" |} ] |};
                     {| team_id := IdStr "7"; team_name := "B";
                        members := [ {| member_id := IdNum 1; member_display_name := "Ann" |};
                                     {| member_id := IdNum 2; member_display_name := "Bob" |};
                                     {| member_id := IdNum 4; member_display_name := "Dee" |} ] |} ])
    by (vm_compute; reflexivity).
  split; [exact Hrun|]. split; [|split].
  - intros newTeams. rewrite Hrun. intros [= <-] Hall.
    apply Forall_cons in Hall as [_ Hall]. apply Forall_cons in Hall as [Hb _].
    unfold fits in Hb. simpl in Hb. lia.
  - vm_compute. reflexivity.
  - vm_compute. discriminate.
Qed.

End TeamCapacity.

Section EnrichmentStore.
Import Js Bracket.

Lemma bind_run {A B : Type} (c : St A) (f : A -> St B) h a h' :
  c h = Some (a, h') -> (c ≫= f) h = f a h'.
Proof. unfold mbind, St_bind. now intros ->. Qed.

Lemma get_run (h : store) l m : h !! l = Some m -> get l h = Some (m, h).
Proof. unfold get. now intros ->. Qed.

Lemma assign_last (h : store) m f :
  assign (length h) f (h ++ [m]) = Some (tt, h ++ [f m]).
Proof.
  unfold assign. rewrite list_lookup_middle by reflexivity. simpl.
  rewrite insert_app_r_alt by lia. now rewrite Nat.sub_diag.
Qed.

Lemma agree_lookupById h0 byS byV id :
  agree h0 byS byV ->
  match lookupById byS id with
  | Some r => exists p, h0 !! r = Some p /\ lookupById byV id = Some p
  | None => lookupById byV id = None
  end.
Proof.
  intros Hag. destruct id as [i|]; simpl; [|reflexivity].
  destruct (Hag (toStr i)) as [Hv Hvalid].
  destruct (byS !! toStr i) as [r|] eqn:E; simpl in *.
  - destruct (Hvalid r eq_refl) as [p Hp]. exists p. split; [exact Hp|congruence].
  - exact Hv.
Qed.

(** One call of the [matches.map] callback: it allocates one object after
    the store it runs in, writes to that object only, and the allocated
    object ends up as the value-level callback computes it. *)
Lemma enrichMatchSt_run h0 byS byV extra l m :
  agree h0 byS byV ->
  h0 !! l = Some m ->
  enrichMatchSt byS l (h0 ++ extra)
  = Some (length (h0 ++ extra), (h0 ++ extra) ++ [enrichMatch byV m]).
Proof.
  intros Hag Hl. unfold enrichMatchSt, enrichMatch.
  set (h := h0 ++ extra).
  assert (Hin : forall r p, h0 !! r = Some p -> h !! r = Some p).
  { intros r p Hr. unfold h. now apply lookup_app_l_Some. }
  rewrite (bind_run (get l) _ h m h) by (apply get_run; auto).
  rewrite (bind_run (new m) _ h (length h) (h ++ [m])) by reflexivity.
  rewrite (bind_run (get (length h)) _ (h ++ [m]) m (h ++ [m]))
    by (apply get_run, list_lookup_middle; reflexivity).
  destruct (negb (truthyStr (winner_name m)) && truthyId (parent_match_id m));
    [|reflexivity].
  pose proof (agree_lookupById h0 byS byV (parent_match_id m) Hag) as Hp.
  destruct (lookupById byS (parent_match_id m)) as [r|].
  - destruct Hp as (p & Hr & ->).
    rewrite (bind_run (get r) _ (h ++ [m]) p (h ++ [m]))
      by (apply get_run, lookup_app_l_Some; auto).
    destruct (realName (advancedName p (parent_match_slot m))); [|reflexivity].
    rewrite (bind_run _ _ _ tt _ (assign_last h m _)).
    rewrite (bind_run _ _ _ tt _ (assign_last h _ _)).
    reflexivity.
  - rewrite Hp. reflexivity.
Qed.

Lemma enrichMatchesSt_run h0 byS byV ls ms :
  agree h0 byS byV ->
  Forall2 (fun l m => h0 !! l = Some m) ls ms ->
  forall extra,
    mapSt (enrichMatchSt byS) ls (h0 ++ extra)
    = Some (seq (length (h0 ++ extra)) (length ls),
            (h0 ++ extra) ++ map (enrichMatch byV) ms).
Proof.
  intros Hag. induction 1 as [|l m ls ms Hl _ IH]; intros extra; simpl.
  - unfold mret, St_ret. now rewrite app_nil_r.
  - rewrite (bind_run _ _ _ _ _ (enrichMatchSt_run h0 byS byV extra l m Hag Hl)).
    rewrite <- (assoc_L (++)).
    rewrite (bind_run _ _ _ _ _ (IH (extra ++ [enrichMatch byV m]))).
    unfold mret, St_ret. rewrite !(assoc_L (++)), !length_app. simpl.
    rewrite <- !(assoc_L (++)). simpl.
    now replace (length h0 + length extra + 1)%nat with (S (length h0 + length extra)) by lia.
Qed.

Lemma entries_run (h : store) ls ms :
  Forall2 (fun l m => h !! l = Some m) ls ms ->
  mapSt (fun l => m ← get l; mret (toStr (match_id m), l)) ls h
  = Some (zip_with (fun l m => (toStr (match_id m), l)) ls ms, h).
Proof.
  induction 1 as [|l m ls ms Hl _ IH]; simpl; [reflexivity|].
  rewrite (bind_run _ _ h (toStr (match_id m), l) h).
  - now rewrite (bind_run _ _ _ _ _ IH).
  - now rewrite (bind_run _ _ _ _ _ (get_run h l m Hl)).
Qed.

Lemma agree_insert h0 byS byV k l m :
  h0 !! l = Some m -> agree h0 byS byV -> agree h0 (<[k := l]> byS) (<[k := m]> byV).
Proof.
  intros Hl Hag k'. destruct (decide (k = k')) as [<-|Hne].
  - rewrite !lookup_insert_eq. simpl. split; [congruence|].
    intros r [= <-]. eauto.
  - rewrite !lookup_insert_ne by assumption. apply Hag.
Qed.

Lemma agree_fromEntries h0 ls ms :
  Forall2 (fun l m => h0 !! l = Some m) ls ms ->
  agree h0 (fromEntries (zip_with (fun l m => (toStr (match_id m), l)) ls ms))
           (fromEntries (map (fun m => (toStr (match_id m), m)) ms)).
Proof.
  unfold fromEntries. intros H.
  assert (Hempty : agree h0 ∅ ∅).
  { intros k. rewrite !lookup_empty. split; [reflexivity|discriminate]. }
  revert Hempty. generalize (∅ : gmap string ref) (∅ : gmap string Match).
  induction H as [|l m ls ms Hl _ IH]; intros accS accV Hag; simpl; [exact Hag|].
  apply IH. now apply agree_insert.
Qed.

Lemma readRounds_holds h rounds roundsV :
  readRounds h rounds = Some roundsV <-> holds h rounds roundsV.
Proof.
  unfold readRounds, holds. rewrite mapM_Some.
  split; intros H; induction H as [|[r ls] [r' ms] ? ? Hx _ IH]; constructor; auto.
  - simpl. destruct (mapM _ ls) as [ms'|] eqn:E; simpl in Hx; [|discriminate].
    injection Hx as <- <-. split; [reflexivity|]. now apply mapM_Some.
  - simpl in Hx. destruct Hx as [<- Hx]. apply mapM_Some in Hx. now rewrite Hx.
Qed.

Lemma holds_allMatches h rounds roundsV :
  holds h rounds roundsV ->
  Forall2 (fun l m => h !! l = Some m) (allMatchesOf rounds) (allMatchesOf roundsV).
Proof.
  unfold allMatchesOf. induction 1 as [|x y ? ? [_ Hx] _ IH]; simpl; [constructor|].
  now apply Forall2_app.
Qed.

Lemma lookup_fresh_block (h xs rest : store) :
  Forall2 (fun l m => ((h ++ xs) ++ rest) !! l = Some m) (seq (length h) (length xs)) xs.
Proof.
  revert h. induction xs as [|x xs IH]; intros h; simpl; constructor.
  - rewrite <- (assoc_L (++)). now apply list_lookup_middle.
  - specialize (IH (h ++ [x])). rewrite length_app in IH. simpl in IH.
    rewrite <- (assoc_L (++) h [x] xs) in IH. simpl in IH.
    now replace (S (length h)) with (length h + 1)%nat by lia.
Qed.

Lemma holds_extend h rest rounds roundsV :
  holds h rounds roundsV -> holds (h ++ rest) rounds roundsV.
Proof.
  unfold holds. intros H. eapply Forall2_impl; [exact H|].
  intros x y [Hr Hx]. split; [exact Hr|].
  eapply Forall2_impl; [exact Hx|]. intros l m. apply lookup_app_l_Some.
Qed.

(** The loop over the rounds: every object it allocates lies after the
    store it started in, which it leaves as it was. *)
Lemma enrichLoop_run h0 byS byV rounds roundsV :
  agree h0 byS byV ->
  holds h0 rounds roundsV ->
  forall extra, exists out,
    mapSt (fun '(r, matches) => ms ← mapSt (enrichMatchSt byS) matches; mret (r, ms))
          rounds (h0 ++ extra)
    = Some (out, (h0 ++ extra) ++ map (enrichMatch byV) (allMatchesOf roundsV))
    /\ holds ((h0 ++ extra) ++ map (enrichMatch byV) (allMatchesOf roundsV)) out
             (map (fun '(r, ms) => (r, map (enrichMatch byV) ms)) roundsV)
    /\ Forall (fun x => Forall (fun l => (length (h0 ++ extra) <= l)%nat) x.2) out.
Proof.
  intros Hag. induction 1 as [|[r ls] [r' ms] rounds roundsV [Hr Hx] _ IH];
    intros extra; simpl in *.
  - exists []. rewrite app_nil_r. repeat split; constructor.
  - subst r'. unfold allMatchesOf; simpl. fold (allMatchesOf roundsV).
    rewrite map_app.
    destruct (IH (extra ++ map (enrichMatch byV) ms)) as (out & Hrun & Hout & Hfresh).
    exists ((r, seq (length (h0 ++ extra)) (length ls)) :: out).
    rewrite (bind_run _ _ (h0 ++ extra)
               (r, seq (length (h0 ++ extra)) (length ls))
               ((h0 ++ extra) ++ map (enrichMatch byV) ms)).
    2:{ now rewrite (bind_run _ _ _ _ _
                       (enrichMatchesSt_run h0 byS byV ls ms Hag Hx extra)). }
    rewrite <- (assoc_L (++) h0 extra) at 1.
    rewrite (bind_run _ _ _ _ _ Hrun).
    rewrite !(assoc_L (++)) in *.
    split; [reflexivity|]. split.
    + constructor; [|exact Hout]. simpl. split; [reflexivity|].
      rewrite (Forall2_length _ _ _ Hx), <- (length_map (enrichMatch byV) ms).
      apply lookup_fresh_block.
    + constructor.
      * simpl. apply Forall_forall. intros l Hl. apply elem_of_seq in Hl. lia.
      * eapply Forall_impl; [exact Hfresh|]. intros x Hxs.
        eapply Forall_impl; [exact Hxs|]. intros l. simpl.
        rewrite !length_app. lia.
Qed.

End EnrichmentStore.

Section EnrichmentProperties.
Import Js Bracket.

Lemma fromEntries_snoc {V : Type} (es : list (string * V)) x :
  fromEntries (es ++ [x]) = <[x.1 := x.2]> (fromEntries es).
Proof. unfold fromEntries. now rewrite foldl_snoc. Qed.

(** A key is bound in [Object.fromEntries(es)] exactly when some entry has
    it, and it is bound to the value of one of its entries. *)
Lemma fromEntries_lookup {V : Type} (es : list (string * V)) k :
  (forall v, fromEntries es !! k = Some v -> (k, v) ∈ es)
  /\ (is_Some (fromEntries es !! k) <-> k ∈ map fst es).
Proof.
  induction es as [|[k' v'] es [IH1 IH2]] using rev_ind.
  - unfold fromEntries; simpl. rewrite lookup_empty. split; [discriminate|].
    split; [intros [? ?]; discriminate|intros H; inversion H].
  - rewrite fromEntries_snoc, map_app; simpl.
    destruct (decide (k' = k)) as [->|Hne].
    + rewrite lookup_insert_eq. split.
      * intros v [= <-]. apply elem_of_app. right. now left.
      * split; [|eauto]. intros _. apply elem_of_app. right. now left.
    + rewrite lookup_insert_ne by assumption. split.
      * intros v Hv. apply elem_of_app. left. auto.
      * rewrite IH2, elem_of_app. split; [auto|].
        intros [H|H]; [exact H|]. apply list_elem_of_singleton in H. congruence.
Qed.

(** [byId[id]] finds a match of the same rounds object that carries the
    id, and finds one whenever some match of the rounds carries it. *)
Lemma byIdOf_lookup (rounds : Rounds) id :
  (forall p, lookupById (byIdOf rounds) (Some id) = Some p ->
             p ∈ allMatchesOf rounds /\ toStr (match_id p) = toStr id)
  /\ (is_Some (lookupById (byIdOf rounds) (Some id)) <->
      exists p, p ∈ allMatchesOf rounds /\ toStr (match_id p) = toStr id).
Proof.
  unfold byIdOf; simpl.
  destruct (fromEntries_lookup
              (map (fun m => (toStr (match_id m), m)) (allMatchesOf rounds)) (toStr id))
    as [H1 H2].
  split.
  - intros p Hp. apply H1 in Hp. apply list_elem_of_In, List.in_map_iff in Hp.
    destruct Hp as (q & [= Hk <-] & Hq). split; [now apply list_elem_of_In|exact Hk].
  - rewrite H2. rewrite List.map_map; simpl. split.
    + intros H. apply list_elem_of_In, List.in_map_iff in H as (q & Hk & Hq).
      exists q. split; [now apply list_elem_of_In|exact Hk].
    + intros (q & Hq & Hk). apply list_elem_of_In, List.in_map_iff.
      exists q. split; [exact Hk|now apply list_elem_of_In].
Qed.

Lemma enrichMatch_inferred byId m parent :
  truthyStr (winner_name m) = false ->
  truthyId (parent_match_id m) = true ->
  lookupById byId (parent_match_id m) = Some parent ->
  realName (advancedName parent (parent_match_slot m)) = true ->
  enrichMatch byId m
  = set_inferred_winner true
      (set_winner_name (advancedName parent (parent_match_slot m)) m).
Proof. unfold enrichMatch. now intros -> -> -> ->. Qed.

Lemma enrichMatch_unchanged byId m :
  truthyStr (winner_name m) = true
  \/ truthyId (parent_match_id m) = false
  \/ lookupById byId (parent_match_id m) = None
  \/ (exists parent, lookupById byId (parent_match_id m) = Some parent
                     /\ realName (advancedName parent (parent_match_slot m)) = false) ->
  enrichMatch byId m = m.
Proof.
  unfold enrichMatch. intros [->|[->|[->|(parent & -> & ->)]]]; simpl;
    rewrite ?andb_false_r; try reflexivity;
    now destruct (negb _ && _).
Qed.

Lemma enrichRoundsSt_run h rounds (roundsV : Rounds) :
  holds h rounds roundsV ->
  exists out,
    enrichRoundsSt rounds h
    = Some (out, h ++ map (enrichMatch (byIdOf roundsV)) (allMatchesOf roundsV))
    /\ holds (h ++ map (enrichMatch (byIdOf roundsV)) (allMatchesOf roundsV)) out
             (map (fun '(r, ms) => (r, map (enrichMatch (byIdOf roundsV)) ms)) roundsV)
    /\ Forall (fun x => Forall (fun l => (length h <= l)%nat) x.2) out.
Proof.
  intros Hh. unfold enrichRoundsSt.
  pose proof (holds_allMatches h rounds roundsV Hh) as Hall.
  rewrite (bind_run _ _ _ _ _ (entries_run h _ _ Hall)).
  pose proof (agree_fromEntries h _ _ Hall) as Hag. fold (byIdOf roundsV) in Hag.
  destruct (enrichLoop_run h _ _ rounds roundsV Hag Hh []) as (out & Hrun & Hout & Hfresh).
  rewrite app_nil_r in *. eauto.
Qed.

End EnrichmentProperties.

Section InferredWinners.
Import Js Bracket Samples.

(** C2 (inferred-winner display).  [enrichRoundsWithInferredWinners] maps
    every match of every round through [enrichMatch], with [byId] built from
    all matches of the same rounds object; [byId[id]] only finds matches of
    that object.  A match without a truthy [winner_name], with a truthy
    [parent_match_id] that [byId] resolves, whose parent holds a real name
    (not empty, not 'TBD', not 'BYE') in the slot [parent_match_slot] names
    (slot 1 when it is 1, slot 2 otherwise), comes back with
    [winner_name] equal to that name and [inferred_winner] equal to [true],
    every other field as it was.  Every other match comes back equal to
    what it was.  On the store, the function reads the input objects and
    writes only to the objects it allocates: every object of the input
    store and the input structure read as before, and the result consists
    of new objects. *)
Theorem enrichRoundsWithInferredWinners_spec (rounds : Rounds) :
  enrichRoundsWithInferredWinners (Some rounds)
  = Some (map (fun '(r, ms) => (r, map (enrichMatch (byIdOf rounds)) ms)) rounds)
  /\ (forall id p,
        lookupById (byIdOf rounds) (Some id) = Some p ->
        p ∈ allMatchesOf rounds /\ toStr (match_id p) = toStr id)
  /\ (forall p,
        advancedName p (Some 1) = orElse truthyStr (team1_name p) (player1_name p)
        /\ advancedName p (Some 2) = orElse truthyStr (team2_name p) (player2_name p))
  /\ (forall m parent,
        truthyStr (winner_name m) = false ->
        truthyId (parent_match_id m) = true ->
        lookupById (byIdOf rounds) (parent_match_id m) = Some parent ->
        realName (advancedName parent (parent_match_slot m)) = true ->
        winner_name (enrichMatch (byIdOf rounds) m)
        = advancedName parent (parent_match_slot m)
        /\ inferred_winner (enrichMatch (byIdOf rounds) m) = true
        /\ samePayload m (enrichMatch (byIdOf rounds) m))
  /\ (forall m,
        truthyStr (winner_name m) = true
        \/ truthyId (parent_match_id m) = false
        \/ lookupById (byIdOf rounds) (parent_match_id m) = None
        \/ (exists parent,
               lookupById (byIdOf rounds) (parent_match_id m) = Some parent
               /\ realName (advancedName parent (parent_match_slot m)) = false) ->
        enrichMatch (byIdOf rounds) m = m)
  /\ (forall h refs,
        readRounds h refs = Some rounds ->
        exists out h',
          enrichRoundsSt refs h = Some (out, h')
          /\ (forall l o, h !! l = Some o -> h' !! l = Some o)
          /\ readRounds h' refs = Some rounds
          /\ readRounds h' out = enrichRoundsWithInferredWinners (Some rounds)
          /\ (forall l, l ∈ allMatchesOf out -> (length h <= l)%nat)).
Proof.
  split; [reflexivity|].
  split; [intros id p; apply byIdOf_lookup|].
  split; [intros p; split; reflexivity|].
  split.
  { intros m parent Hw Hp Hlook Hreal.
    rewrite (enrichMatch_inferred _ m parent Hw Hp Hlook Hreal).
    split; [reflexivity|]. split; [reflexivity|]. repeat split. }
  split; [intros m; apply enrichMatch_unchanged|].
  intros h refs Hread. apply readRounds_holds in Hread.
  destruct (enrichRoundsSt_run h refs rounds Hread) as (out & Hrun & Hout & Hfresh).
  eexists out, _. split; [exact Hrun|].
  split; [intros l o; apply lookup_app_l_Some|].
  split; [apply readRounds_holds, holds_extend, Hread|].
  split; [apply readRounds_holds, Hout|].
  intros l Hl. unfold allMatchesOf in Hl.
  apply list_elem_of_In, List.in_concat in Hl as (ls & Hls & Hl).
  apply List.in_map_iff in Hls as (x & <- & Hx). apply list_elem_of_In in Hl.
  rewrite Forall_forall in Hfresh. apply list_elem_of_In in Hx.
  specialize (Hfresh x Hx). rewrite Forall_forall in Hfresh. auto.
Qed.

(** The sample bracket: the first semifinal comes back with the winner
    name "Alpha" and the inferred mark, its other fields as they were; the
    other two matches are copied as they are; and the three input objects
    are still in place. *)
Lemma enrichRoundsWithInferredWinners_witness :
  exists out h' semi',
    enrichRoundsSt sampleRefs sampleStore = Some (out, h')
    /\ (forall l o, sampleStore !! l = Some o -> h' !! l = Some o)
    /\ readRounds h' sampleRefs = Some sampleRounds
    /\ readRounds h' out = Some [(1, [semi'; semi2]); (2, [final])]
    /\ winner_name semi' = Some "Alpha"
    /\ inferred_winner semi' = true
    /\ samePayload semi semi'
    /\ winner_name semi = None /\ inferred_winner semi = false
    /\ (forall l, l ∈ allMatchesOf out -> (length sampleStore <= l)%nat).
Proof.
  destruct (enrichRoundsWithInferredWinners_spec sampleRounds)
    as (_ & _ & _ & Hinf & _ & Hstore).
  destruct (Hstore sampleStore sampleRefs eq_refl) as (out & h' & Hrun & Hkeep & Hin & Hout & Hnew).
  destruct (Hinf semi final eq_refl eq_refl eq_refl eq_refl) as (Hname & Hmark & Hsame).
  exists out, h', (enrichMatch (byIdOf sampleRounds) semi).
  split; [exact Hrun|]. split; [exact Hkeep|]. split; [exact Hin|].
  split; [rewrite Hout; reflexivity|].
  split; [exact Hname|]. split; [exact Hmark|]. split; [exact Hsame|].
  split; [reflexivity|]. split; [reflexivity|]. exact Hnew.
Defined.

End InferredWinners.

Section ViewProperties.
Import Js Bracket.

Lemma elem_of_insertByKey {V : Type} (x y : Z * V) l :
  y ∈ insertByKey x l <-> y = x \/ y ∈ l.
Proof.
  induction l as [|z l IH]; simpl.
  - rewrite list_elem_of_singleton. split; [auto|]. intros [?|H]; [auto|inversion H].
  - destruct (x.1 <=? z.1); rewrite !elem_of_cons; [reflexivity|].
    rewrite IH. tauto.
Qed.

(** Sorting keeps the entries. *)
Lemma elem_of_sortByKey {V : Type} (y : Z * V) l :
  y ∈ sortByKey l <-> y ∈ l.
Proof.
  unfold sortByKey. induction l as [|x l IH]; simpl; [reflexivity|].
  rewrite elem_of_insertByKey, elem_of_cons, IH. reflexivity.
Qed.

Lemma elem_of_roundEntries (rounds : Rounds) e :
  e ∈ roundEntries rounds <-> e ∈ rounds /\ e.1 < 10.
Proof.
  unfold roundEntries. rewrite elem_of_sortByKey, !list_elem_of_In, List.filter_In.
  rewrite Z.ltb_lt. reflexivity.
Qed.

Lemma addToRound_inv m acc r ms :
  (r, ms) ∈ addToRound m acc ->
  (exists ms0, ((r, ms0) ∈ acc \/ ms0 = []) /\ (ms = ms0 \/ (ms = ms0 ++ [m] /\ r = round_num m))).
Proof.
  induction acc as [|[k ks] acc IH]; simpl.
  - intros H. apply list_elem_of_singleton in H. simplify_eq.
    exists []. split; [now right|]. right. split; reflexivity.
  - destruct (Z.eqb_spec k (round_num m)) as [->|Hne]; rewrite elem_of_cons.
    + intros [[= -> ->]|H].
      * exists ks. split; [left; now left|]. right. split; reflexivity.
      * exists ms. split; [left; now right|]. now left.
    + intros [[= -> ->]|H].
      * exists ks. split; [left; now left|]. now left.
      * destruct (IH H) as (ms0 & [H0| ->] & Hms).
        -- exists ms0. split; [left; now right|]. exact Hms.
        -- exists []. split; [now right|]. exact Hms.
Qed.

(** Every match of a group of [groupByRound l] is a match of [l] with the
    group's round number. *)
Lemma groupByRound_sound l r ms m :
  (r, ms) ∈ groupByRound l -> m ∈ ms -> m ∈ l /\ round_num m = r.
Proof.
  unfold groupByRound.
  assert (Hgen : forall acc,
             (forall r ms m, (r, ms) ∈ acc -> m ∈ ms -> m ∈ l /\ round_num m = r) ->
             forall l', (forall m, m ∈ l' -> m ∈ l) ->
             forall r ms m, (r, ms) ∈ foldl (fun acc m => addToRound m acc) acc l' ->
                            m ∈ ms -> m ∈ l /\ round_num m = r).
  { intros acc Hacc l'. revert acc Hacc.
    induction l' as [|x l' IH]; intros acc Hacc Hsub; simpl; [exact Hacc|].
    apply IH; [|intros m0 Hm0; apply Hsub; now right].
    intros r0 ms0 m0 Hin Hm0.
    apply addToRound_inv in Hin as (ms1 & Hms1 & Hcase).
    destruct Hcase as [->|[-> ->]].
    - destruct Hms1 as [H1| ->]; [eauto|inversion Hm0].
    - apply elem_of_app in Hm0 as [Hm0|Hm0].
      + destruct Hms1 as [H1| ->]; [eauto|inversion Hm0].
      + apply list_elem_of_singleton in Hm0 as ->. split; [|reflexivity].
        apply Hsub. now left. }
  apply (Hgen [] (fun r ms m H => False_ind _ (not_elem_of_nil _ H)) l (fun m H => H)).
Qed.

Lemma displayRound_losers r :
  10 <= r -> displayRound (Some "Losers") r = r - 10.
Proof.
  intros H. unfold displayRound. simpl.
  destruct (Z.leb_spec 10 r); [reflexivity|lia].
Qed.

Lemma allMatchesOf_map (f : Match -> Match) (rounds : Rounds) :
  allMatchesOf (map (fun '(r, ms) => (r, map f ms)) rounds) = map f (allMatchesOf rounds).
Proof.
  unfold allMatchesOf. induction rounds as [|[r ms] rounds IH]; simpl; [reflexivity|].
  now rewrite map_app, IH.
Qed.

Lemma elem_of_allMatchesOf (rounds : Rounds) r ms m :
  (r, ms) ∈ rounds -> m ∈ ms -> m ∈ allMatchesOf rounds.
Proof.
  intros Hr Hm. unfold allMatchesOf. apply list_elem_of_In, List.in_concat.
  exists ms. split; [|now apply list_elem_of_In].
  apply List.in_map_iff. exists (r, ms). split; [reflexivity|now apply list_elem_of_In].
Qed.

Lemma elem_of_map {A B : Type} (f : A -> B) l y :
  y ∈ map f l <-> exists x, f x = y /\ x ∈ l.
Proof.
  rewrite list_elem_of_In, List.in_map_iff.
  split; intros (x & ? & ?); exists x; split; auto; now apply list_elem_of_In.
Qed.

Lemma elem_of_filter_bool {A : Type} (f : A -> bool) l x :
  x ∈ List.filter f l <-> x ∈ l /\ f x = true.
Proof. now rewrite !list_elem_of_In, List.filter_In. Qed.

(** Every card of the bracket view shows a match of the enriched rounds. *)
Lemma renderBracket_cards h isPreview canEdit bracket_type (rawRounds : Rounds) col m acts :
  col ∈ renderBracket h isPreview canEdit bracket_type rawRounds ->
  (m, acts) ∈ cards col ->
  exists raw, raw ∈ allMatchesOf rawRounds /\ m = enrichMatch (byIdOf rawRounds) raw.
Proof.
  unfold renderBracket. cbn [enrichRoundsWithInferredWinners default from_option id].
  set (rounds := map _ rawRounds).
  assert (Hall : forall x, x ∈ allMatchesOf rounds ->
            exists raw, raw ∈ allMatchesOf rawRounds /\ x = enrichMatch (byIdOf rawRounds) raw).
  { intros x. unfold rounds. rewrite allMatchesOf_map, elem_of_map.
    intros (raw & <- & Hraw). eauto. }
  intros Hcol Hcard. apply Hall. clear Hall.
  case_bool_decide.
  - rewrite !elem_of_app in Hcol. destruct Hcol as [Hcol|[Hcol|Hcol]].
    + unfold BracketTree in Hcol. apply elem_of_map in Hcol as ([r ms] & <- & Hin).
      simpl in Hcard. apply elem_of_map in Hcard as (m' & [= -> <-] & Hm).
      apply elem_of_roundEntries in Hin as [Hin _]. rewrite elem_of_sortByKey in Hin.
      destruct (groupByRound_sound _ _ _ _ Hin Hm) as [Hf _].
      now apply elem_of_filter_bool in Hf as [Hf _].
    + apply elem_of_map in Hcol as ([r ms] & <- & Hin).
      simpl in Hcard. apply elem_of_map in Hcard as (m' & [= -> <-] & Hm).
      rewrite elem_of_sortByKey in Hin.
      destruct (groupByRound_sound _ _ _ _ Hin Hm) as [Hf _].
      now apply elem_of_filter_bool in Hf as [Hf _].
    + destruct (0 <? _)%nat; [|inversion Hcol].
      apply list_elem_of_singleton in Hcol as ->.
      simpl in Hcard. apply elem_of_map in Hcard as (m' & [= -> <-] & Hm).
      now apply elem_of_filter_bool in Hm as [Hm _].
  - unfold BracketVisual in Hcol. apply elem_of_map in Hcol as ([r ms] & <- & Hin).
    simpl in Hcard. apply elem_of_map in Hcard as (m' & [= -> <-] & Hm).
    apply elem_of_roundEntries in Hin as [Hin _]. rewrite elem_of_sortByKey in Hin.
    apply elem_of_filter_bool in Hin as [Hin _].
    eapply elem_of_allMatchesOf; eauto.
Qed.

Lemma BracketBox_no_correction name p d id slot adv sw ho cs ce a :
  a ∈ BracketBox name p d id slot adv sw ho cs ce -> correction a = false.
Proof.
  unfold BracketBox. intros H.
  repeat match goal with
         | H : _ ∈ _ ++ _ |- _ => apply elem_of_app in H as [H|H]
         | H : _ ∈ (if ?b then _ else _) |- _ => destruct b eqn:?
         | H : _ ∈ [] |- _ => inversion H
         | H : _ ∈ _ :: _ |- _ => apply elem_of_cons in H as [H|H]
         end; subst;
    repeat match goal with |- context [if ?b then _ else _] => destruct b end;
    reflexivity.
Qed.

Lemma MatchSlot_no_correction label name id slot adv ho a :
  a ∈ MatchSlot label name id slot adv ho -> correction a = false.
Proof.
  unfold MatchSlot. intros H. destruct (_ && _); [|inversion H].
  apply list_elem_of_singleton in H as ->. reflexivity.
Qed.

Lemma renderMatchBlock_correction h p last m r a :
  a ∈ renderMatchBlock h p last m r -> correction a = true -> offeredOnRecorded m a.
Proof.
  unfold renderMatchBlock, bothFilled, offeredOnRecorded. intros H Hc.
  apply elem_of_app in H as [H|H];
    [apply BracketBox_no_correction in H; congruence|].
  apply elem_of_app in H as [H|H];
    [apply BracketBox_no_correction in H; congruence|].
  view_cases; subst; auto 10.
Qed.

Lemma renderMatch_correction h p m a :
  a ∈ renderMatch h p m -> correction a = true -> offeredOnRecorded m a.
Proof.
  unfold renderMatch, offeredOnRecorded. intros H Hc.
  apply elem_of_app in H as [H|H].
  - destruct (_ && _); [|inversion H].
    apply elem_of_app in H as [H|H]; apply MatchSlot_no_correction in H; congruence.
  - view_cases; subst; auto 10.
Qed.

Lemma renderRound_correction h p canEdit r ms label m acts a :
  (m, acts) ∈ cards (renderRound h p canEdit r ms label) ->
  a ∈ acts -> correction a = true -> offeredOnRecorded m a.
Proof.
  unfold renderRound, offeredOnRecorded. simpl. intros Hcard H Hc.
  apply elem_of_map in Hcard as (m' & [= -> <-] & _).
  apply elem_of_app in H as [H|H].
  - destruct p; [inversion H|].
    apply elem_of_app in H as [H|H]; apply MatchSlot_no_correction in H; congruence.
  - view_cases; subst; auto 10.
Qed.

Lemma renderBracket_correction h isPreview canEdit bracket_type (rawRounds : Rounds)
    col m acts a :
  col ∈ renderBracket h isPreview canEdit bracket_type rawRounds ->
  (m, acts) ∈ cards col -> a ∈ acts -> correction a = true ->
  offeredOnRecorded m a.
Proof.
  unfold renderBracket. cbn [enrichRoundsWithInferredWinners default from_option id].
  intros Hcol Hcard Ha Hc. case_bool_decide.
  - rewrite !elem_of_app in Hcol. destruct Hcol as [Hcol|[Hcol|Hcol]].
    + unfold BracketTree in Hcol. apply elem_of_map in Hcol as ([r ms] & <- & _).
      simpl in Hcard. apply elem_of_map in Hcard as (m' & [= -> <-] & _).
      eapply renderMatch_correction; eauto.
    + apply elem_of_map in Hcol as ([r ms] & <- & _).
      eapply renderRound_correction; eauto.
    + destruct (0 <? _)%nat; [|inversion Hcol].
      apply list_elem_of_singleton in Hcol as ->.
      eapply renderRound_correction; eauto.
  - unfold BracketVisual in Hcol. apply elem_of_map in Hcol as ([r ms] & <- & _).
    simpl in Hcard. apply elem_of_map in Hcard as (m' & [= -> <-] & _).
    eapply renderMatchBlock_correction; eauto.
Qed.

(** An enriched match that shows a winner without the inferred mark is the
    payload's own match, with its recorded winner. *)
Lemma enrichMatch_recorded byId raw :
  truthyStr (winner_name (enrichMatch byId raw)) = true ->
  inferred_winner (enrichMatch byId raw) = false ->
  enrichMatch byId raw = raw /\ truthyStr (winner_name raw) = true.
Proof.
  unfold enrichMatch.
  destruct (truthyStr (winner_name raw)) eqn:Hw; simpl; [auto|].
  destruct (truthyId (parent_match_id raw)); simpl; [|congruence].
  destruct (lookupById byId (parent_match_id raw)) as [parent|]; [|congruence].
  destruct (realName _); simpl; congruence.
Qed.

End ViewProperties.

Section Corrections.
Import Js Bracket Samples.

(** C3 (an inferred winner is not authoritative).  Take any card of the
    bracket view, in either layout, with whatever callbacks and edit
    rights.  The card shows the enrichment of a match of the payload.  If
    that match has no recorded winner (so that the winner shown, if any, is
    an inferred one), or the card's match carries the inferred mark, the
    card offers neither Swap nor Undo.  When a card does offer Swap or
    Undo, its match is the payload's own match, with a recorded winner
    name, no inferred mark and an entity in both slots, and the click calls
    [swapWinner] or [clearWinner] with the id of that match. *)
Theorem corrections_only_on_recorded_winners
    h isPreview canEdit bracket_type (rawRounds : Rounds) col m acts :
  col ∈ renderBracket h isPreview canEdit bracket_type rawRounds ->
  (m, acts) ∈ cards col ->
  (exists raw, raw ∈ allMatchesOf rawRounds /\ m = enrichMatch (byIdOf rawRounds) raw)
  /\ (forall raw, m = enrichMatch (byIdOf rawRounds) raw ->
                  truthyStr (winner_name raw) = false ->
                  forall a, a ∈ acts -> correction a = false)
  /\ (inferred_winner m = true -> forall a, a ∈ acts -> correction a = false)
  /\ (forall a, a ∈ acts -> correction a = true ->
        m ∈ allMatchesOf rawRounds
        /\ truthyStr (winner_name m) = true /\ inferred_winner m = false
        /\ filled1 m = true /\ filled2 m = true
        /\ (a = SwapWinner (match_id m) \/ a = ClearWinner (match_id m))).
Proof.
  intros Hcol Hcard.
  pose proof (renderBracket_cards _ _ _ _ _ _ _ _ Hcol Hcard) as Hraw.
  assert (Hoff : forall a, a ∈ acts -> correction a = true -> offeredOnRecorded m a).
  { intros a. now apply (renderBracket_correction h isPreview canEdit bracket_type rawRounds col). }
  split; [exact Hraw|]. split; [|split].
  - intros raw -> Hnone a Ha. destruct (correction a) eqn:Hc; [|reflexivity].
    destruct (Hoff a Ha Hc) as (Hw & Hi & _).
    destruct (enrichMatch_recorded _ _ Hw Hi) as [_ Hrec]. congruence.
  - intros Hinf a Ha. destruct (correction a) eqn:Hc; [|reflexivity].
    destruct (Hoff a Ha Hc) as (_ & Hi & _). congruence.
  - intros a Ha Hc. destruct (Hoff a Ha Hc) as (Hw & Hi & H1 & H2 & Hid).
    destruct Hraw as (raw & Hin & ->).
    destruct (enrichMatch_recorded _ _ Hw Hi) as [Heq Hrec].
    rewrite Heq in *. auto 10.
Qed.

(** In the sample bracket the decided match offers Swap; the second
    semifinal, without a recorded winner, offers nothing of the kind. *)
Lemma corrections_only_on_recorded_winners_witness :
  decided ∈ allMatchesOf decidedRounds
  /\ truthyStr (winner_name decided) = true /\ inferred_winner decided = false
  /\ filled1 decided = true /\ filled2 decided = true
  /\ (SwapWinner (IdNum 1) = SwapWinner (match_id decided)
      \/ SwapWinner (IdNum 1) = ClearWinner (match_id decided)).
Proof.
  eapply (fun col acts Hcol Hcard =>
            proj2 (proj2 (proj2
              (corrections_only_on_recorded_winners allHandlers false true None
                 decidedRounds col decided acts Hcol Hcard)))
              (SwapWinner (IdNum 1))).
  - vm_compute. apply list_elem_of_here.
  - vm_compute. apply list_elem_of_here.
  - vm_compute. apply list_elem_of_here.
  - reflexivity.
Defined.

End Corrections.

Section RoundNumbers.
Import Js Bracket Samples.

Lemma groupByRound_snoc l x :
  groupByRound (l ++ [x]) = addToRound x (groupByRound l).
Proof. unfold groupByRound. now rewrite foldl_snoc. Qed.

Lemma addToRound_adds m acc :
  exists ms, (round_num m, ms) ∈ addToRound m acc /\ m ∈ ms.
Proof.
  induction acc as [|[k ks] acc (ms & Hin & Hm)]; simpl.
  - exists [m]. split; apply list_elem_of_here.
  - destruct (Z.eqb_spec k (round_num m)) as [->|Hne].
    + exists (ks ++ [m]). split; [apply list_elem_of_here|].
      apply elem_of_app. right. apply list_elem_of_here.
    + exists ms. split; [now apply list_elem_of_further|exact Hm].
Qed.

Lemma addToRound_keeps m acc r ms x :
  (r, ms) ∈ acc -> x ∈ ms -> exists ms', (r, ms') ∈ addToRound m acc /\ x ∈ ms'.
Proof.
  induction acc as [|[k ks] acc IH]; simpl; [intros H; inversion H|].
  rewrite elem_of_cons. intros [[= -> ->]|Hin] Hx.
  - destruct (k =? round_num m).
    + exists (ks ++ [m]). split; [apply list_elem_of_here|].
      apply elem_of_app. now left.
    + exists ks. split; [apply list_elem_of_here|exact Hx].
  - destruct (IH Hin Hx) as (ms' & Hin' & Hx').
    destruct (k =? round_num m).
    + exists ms. split; [now apply list_elem_of_further|exact Hx].
    + exists ms'. split; [now apply list_elem_of_further|exact Hx'].
Qed.

(** Every match of [l] is in the group of its round number. *)
Lemma groupByRound_complete l m :
  m ∈ l -> exists ms, (round_num m, ms) ∈ groupByRound l /\ m ∈ ms.
Proof.
  induction l as [|x l IH] using rev_ind; [intros H; inversion H|].
  rewrite groupByRound_snoc, elem_of_app, list_elem_of_singleton.
  intros [Hm| ->].
  - destruct (IH Hm) as (ms & Hin & Hms). eapply addToRound_keeps; eauto.
  - apply addToRound_adds.
Qed.

(** C7 (round-number storage convention).  A losers-bracket round stored
    as [k + 10] is displayed as round [k]: for a stored number of 10 or more
    the heading shows the stored number minus 10.  The winners views
    ([BracketVisual], [BracketTree]) show exactly the entries of the rounds
    object whose stored number is below 10.  In the double-elimination
    layout the columns without a section label are the winners rounds below
    10 with their winners-section matches, a "Losers" column of stored round
    [r] is headed [r - 10] when [r >= 10], and the grand-finals matches, if
    there are any, are all shown in one "Grand Finals" column headed by
    round 21. *)
Theorem round_number_convention :
  (forall k, 0 <= k -> displayRound (Some "Losers") (k + 10) = k)
  /\ (forall r, 10 <= r -> displayRound (Some "Losers") r = r - 10)
  /\ (forall (rounds : Rounds) e, e ∈ roundEntries rounds <-> e ∈ rounds /\ e.1 < 10)
  /\ (forall h p (rounds : Rounds),
        map displayed (BracketVisual h p rounds) = map fst (roundEntries rounds)
        /\ map displayed (BracketTree h p rounds) = map fst (roundEntries rounds))
  /\ (forall h p canEdit (rawRounds : Rounds) col,
        col ∈ renderBracket h p canEdit (Some "double_elim") rawRounds ->
        match sectionLabel col with
        | None =>
            displayed col < 10
            /\ forall m acts, (m, acts) ∈ cards col ->
                 inWinners m = true /\ round_num m = displayed col
        | Some label =>
            (label = "Losers"
             /\ exists r, displayed col = (if 10 <=? r then r - 10 else r)
                  /\ forall m acts, (m, acts) ∈ cards col ->
                       inLosers m = true /\ round_num m = r)
            \/ (label = "Grand Finals" /\ displayed col = 21
                /\ forall m acts, (m, acts) ∈ cards col -> inGrandFinals m = true)
        end)
  /\ (forall h p canEdit (rawRounds : Rounds) m,
        m ∈ allMatchesOf
              (default [] (enrichRoundsWithInferredWinners (Some rawRounds))) ->
        (inGrandFinals m = true ->
           exists col acts,
             col ∈ renderBracket h p canEdit (Some "double_elim") rawRounds
             /\ sectionLabel col = Some "Grand Finals" /\ displayed col = 21
             /\ (m, acts) ∈ cards col)
        /\ (inWinners m = true -> round_num m < 10 ->
           exists col acts,
             col ∈ renderBracket h p canEdit (Some "double_elim") rawRounds
             /\ sectionLabel col = None /\ displayed col = round_num m
             /\ (m, acts) ∈ cards col)
        /\ (inLosers m = true -> 10 <= round_num m ->
           exists col acts,
             col ∈ renderBracket h p canEdit (Some "double_elim") rawRounds
             /\ sectionLabel col = Some "Losers" /\ displayed col = round_num m - 10
             /\ (m, acts) ∈ cards col)).
Proof.
  split; [intros k Hk; rewrite displayRound_losers by lia; lia|].
  split; [exact displayRound_losers|].
  split; [exact elem_of_roundEntries|].
  split.
  { intros h p rounds. unfold BracketVisual, BracketTree.
    rewrite !List.map_map. split; apply List.map_ext; now intros [r ms]. }
  split.
  - intros h p canEdit rawRounds col. unfold renderBracket.
    cbn [enrichRoundsWithInferredWinners default from_option id].
    set (rounds := map _ rawRounds). simpl.
    rewrite !elem_of_app. intros [Hcol|[Hcol|Hcol]].
    + unfold BracketTree in Hcol. apply elem_of_map in Hcol as ([r ms] & <- & Hin).
      simpl. apply elem_of_roundEntries in Hin as [Hin Hlt]. simpl in Hlt.
      rewrite elem_of_sortByKey in Hin. split; [exact Hlt|].
      intros m acts Hcard. apply elem_of_map in Hcard as (m' & [= -> <-] & Hm).
      destruct (groupByRound_sound _ _ _ _ Hin Hm) as [Hf Hr].
      apply elem_of_filter_bool in Hf as [_ Hf]. auto.
    + apply elem_of_map in Hcol as ([r ms] & <- & Hin). simpl. left.
      split; [reflexivity|]. exists r. split; [reflexivity|].
      intros m acts Hcard. apply elem_of_map in Hcard as (m' & [= -> <-] & Hm).
      rewrite elem_of_sortByKey in Hin.
      destruct (groupByRound_sound _ _ _ _ Hin Hm) as [Hf Hr].
      apply elem_of_filter_bool in Hf as [_ Hf]. auto.
    + destruct (0 <? _)%nat; [|inversion Hcol].
      apply list_elem_of_singleton in Hcol as ->. simpl. right.
      split; [reflexivity|]. split; [reflexivity|].
      intros m acts Hcard. apply elem_of_map in Hcard as (m' & [= -> <-] & Hm).
      now apply elem_of_filter_bool in Hm as [_ Hm].
  - intros h p canEdit rawRounds m. unfold renderBracket.
    cbn [enrichRoundsWithInferredWinners default from_option id].
    set (rounds := map _ rawRounds). simpl. intros Hm.
    split; [|split].
    + intros Hgf.
      assert (Hin : m ∈ List.filter inGrandFinals (allMatchesOf rounds))
        by now apply elem_of_filter_bool.
      assert (Hlen : (0 <? length (List.filter inGrandFinals (allMatchesOf rounds)))%nat
                     = true).
      { destruct (List.filter _ _); [inversion Hin|reflexivity]. }
      rewrite Hlen. eexists _, _. split.
      * rewrite !elem_of_app. right. right. simpl. apply list_elem_of_here.
      * simpl. split; [reflexivity|]. split; [reflexivity|].
        apply elem_of_map. exists m. split; [reflexivity|exact Hin].
    + intros Hw Hlt.
      assert (Hin : m ∈ List.filter inWinners (allMatchesOf rounds))
        by now apply elem_of_filter_bool.
      apply groupByRound_complete in Hin as (ms & Hin & Hms).
      eexists _, _. split.
      * rewrite !elem_of_app. left. unfold BracketTree. apply elem_of_map.
        exists (round_num m, ms). split; [reflexivity|].
        apply elem_of_roundEntries. split; [|exact Hlt].
        now rewrite elem_of_sortByKey.
      * simpl. split; [reflexivity|]. split; [reflexivity|].
        apply elem_of_map. exists m. split; [reflexivity|exact Hms].
    + intros Hl Hge.
      assert (Hin : m ∈ List.filter inLosers (allMatchesOf rounds))
        by now apply elem_of_filter_bool.
      apply groupByRound_complete in Hin as (ms & Hin & Hms).
      eexists _, _. split.
      * rewrite !elem_of_app. right. left. apply elem_of_map.
        exists (round_num m, ms). split; [reflexivity|].
        now rewrite elem_of_sortByKey.
      * simpl. split; [reflexivity|]. split; [now apply displayRound_losers|].
        apply elem_of_map. exists m. split; [reflexivity|exact Hms].
Qed.

(** Losers round 2 is stored as 12 and displayed as 2. *)
Lemma round_number_convention_witness :
  displayRound (Some "Losers") (2 + 10) = 2 /\ displayRound (Some "Losers") 12 = 12 - 10.
Proof.
  split.
  - apply (proj1 round_number_convention 2). lia.
  - apply (proj1 (proj2 round_number_convention) 12). lia.
Defined.

End RoundNumbers.

Section EngineProperties.
Import Engine.

Lemma find_update (b : Bracket) k k' f :
  (forall x, match_id (f x) = match_id x) ->
  find (update b k f) k' = (if k' =? k then f <$> find b k' else find b k').
Proof.
  intros Hid. unfold find, update. induction b as [|x b IH]; simpl.
  - now destruct (k' =? k).
  - destruct (Z.eqb_spec (match_id x) k) as [Hx|Hx].
    + rewrite Hid. destruct (Z.eqb_spec (match_id x) k') as [Hx'|Hx'].
      * subst. now rewrite Z.eqb_refl.
      * exact IH.
    + destruct (Z.eqb_spec (match_id x) k') as [Hx'|Hx'].
      * subst. destruct (Z.eqb_spec (match_id x) k); [contradiction|reflexivity].
      * exact IH.
Qed.

Lemma withWinner_id w x : match_id (withWinner w x) = match_id x.
Proof. reflexivity. Qed.

Lemma withSlot_id s c x : match_id (withSlot s c x) = match_id x.
Proof. reflexivity. Qed.

Lemma withWinner_undo e m : winner m = None -> withWinner None (withWinner (Some e) m) = m.
Proof. destruct m; simpl; now intros ->. Qed.

Lemma withSlot_undo s e pm : withSlot s Empty (withSlot s (Entity e) pm) = withSlot s Empty pm.
Proof. now destruct s. Qed.

Lemma withSlot_same s pm : slotOf pm s = Empty -> withSlot s Empty pm = pm.
Proof. destruct pm, s; simpl; now intros ->. Qed.

Lemma slotOf_withSlot s c pm : slotOf (withSlot s c pm) s = c.
Proof. now destruct s. Qed.

Lemma target_Some m p ps :
  target m = Some (p, ps) <-> parent_match_id m = Some p /\ parent_match_slot m = Some ps.
Proof.
  unfold target. destruct (parent_match_id m), (parent_match_slot m); split;
    intros H; try discriminate; try (destruct H; discriminate).
  - now injection H as -> ->.
  - destruct H as [[= ->] [= ->]]. reflexivity.
Qed.

Lemma target_withWinner w m : target (withWinner w m) = target m.
Proof. reflexivity. Qed.

Lemma propagate_target (b : Bracket) m e :
  propagate b m e
  = match target m with
    | Some (p, ps) => update b p (withSlot ps (Entity e))
    | None => b
    end.
Proof. unfold propagate, target. now destruct (parent_match_id m), (parent_match_slot m). Qed.

Lemma unpropagate_target (b : Bracket) m e :
  unpropagate b m e
  = match target m with
    | Some (p, ps) =>
        update b p (fun pm => if bool_decide (slotOf pm ps = Entity e)
                              then withSlot ps Empty pm else pm)
    | None => b
    end.
Proof. unfold unpropagate, target. now destruct (parent_match_id m), (parent_match_slot m). Qed.

Lemma parentDecidedOn_target (b : Bracket) m e :
  parentDecidedOn b m e
  = match target m with
    | Some (p, ps) =>
        match find b p with
        | Some pm => decided pm && bool_decide (slotOf pm ps = Entity e)
        | None => false
        end
    | None => false
    end.
Proof.
  unfold parentDecidedOn, parentOf, target.
  destruct (parent_match_id m) as [p|], (parent_match_slot m); simpl; try reflexivity;
    now destruct (find b p).
Qed.

Lemma parentProgressed_target (b : Bracket) m p ps pm :
  target m = Some (p, ps) -> find b p = Some pm -> parentProgressed b m = decided pm.
Proof.
  intros Ht Hp. apply target_Some in Ht as [Hid _].
  unfold parentProgressed, parentOf. rewrite Hid. simpl. now rewrite Hp.
Qed.

Lemma clear_step_id ps e x :
  match_id (if bool_decide (slotOf x ps = Entity e) then withSlot ps Empty x else x)
  = match_id x.
Proof. now destruct (bool_decide _). Qed.

Lemma setWinner_clearWinner_restores (b : Bracket) k s m e :
  find b k = Some m -> ready m -> slotOf m s = Entity e ->
  (forall ps, target m <> Some (k, ps)) ->
  parentProgressed b m = false ->
  exists b1 b2,
    setWinner b k s = inr b1 /\ clearWinner b1 k = inr b2
    /\ find b1 k = Some (withWinner (Some e) m)
    /\ find b2 k = Some m
    /\ (forall k', (forall ps, target m <> Some (k', ps)) -> find b2 k' = find b k')
    /\ (forall p ps pm, target m = Some (p, ps) -> find b p = Some pm ->
          find b1 p = Some (withSlot ps (Entity e) pm)
          /\ find b2 p = Some (withSlot ps Empty pm)
          /\ (slotOf pm ps = Empty -> find b2 p = Some pm)).
Proof.
  intros Hm (H1 & H2 & Hw) Hs Hself Hprog.
  unfold setWinner. rewrite Hm, H1, H2, Hs, Hw. simpl.
  rewrite propagate_target.
  destruct (target m) as [[p ps]|] eqn:Ht; eexists _, _;
    (split; [reflexivity|]); unfold clearWinner.
  - assert (Hpk : p <> k) by (intros ->; now apply (Hself ps)).
    assert (Hb1k : find (update (update b k (withWinner (Some e))) p (withSlot ps (Entity e))) k
                   = Some (withWinner (Some e) m)).
    { rewrite find_update by apply withSlot_id.
      destruct (Z.eqb_spec k p); [congruence|].
      rewrite find_update, Z.eqb_refl, Hm by apply withWinner_id. reflexivity. }
    assert (Hb1p : find (update (update b k (withWinner (Some e))) p (withSlot ps (Entity e))) p
                   = withSlot ps (Entity e) <$> find b p).
    { rewrite find_update, Z.eqb_refl by apply withSlot_id.
      rewrite find_update by apply withWinner_id.
      destruct (Z.eqb_spec p k); [congruence|reflexivity]. }
    rewrite Hb1k. simpl. rewrite parentDecidedOn_target, target_withWinner, Ht, Hb1p.
    assert (Hnoconf : match withSlot ps (Entity e) <$> find b p with
                      | Some pm => decided pm && bool_decide (slotOf pm ps = Entity e)
                      | None => false
                      end = false).
    { destruct (find b p) as [pm|] eqn:Hp; simpl; [|reflexivity].
      rewrite (parentProgressed_target b m p ps pm Ht Hp) in Hprog.
      unfold decided in *. simpl. now rewrite Hprog. }
    rewrite Hnoconf. split; [reflexivity|].
    rewrite unpropagate_target, target_withWinner, Ht.
    split; [reflexivity|]. split; [|split].
    + rewrite find_update by (intros x; apply clear_step_id).
      destruct (Z.eqb_spec k p); [congruence|].
      rewrite find_update, Z.eqb_refl, Hb1k by apply withWinner_id. simpl.
      now rewrite withWinner_undo.
    + intros k' Hk'. assert (k' <> p) by (intros ->; now apply (Hk' ps)).
      rewrite find_update by (intros x; apply clear_step_id).
      destruct (Z.eqb_spec k' p); [congruence|].
      rewrite find_update by apply withWinner_id.
      destruct (Z.eqb_spec k' k) as [->|Hk].
      * rewrite Hb1k, Hm. simpl. now rewrite withWinner_undo.
      * rewrite find_update by apply withSlot_id.
        destruct (Z.eqb_spec k' p); [congruence|].
        rewrite find_update by apply withWinner_id.
        destruct (Z.eqb_spec k' k); [congruence|reflexivity].
    + intros p' ps' pm [= <- <-] Hp. rewrite Hb1p, Hp. simpl.
      split; [reflexivity|].
      assert (Hb2p : find (update (update (update (update b k (withWinner (Some e))) p
                                              (withSlot ps (Entity e))) k (withWinner None)) p
                             (fun pm0 => if bool_decide (slotOf pm0 ps = Entity e)
                                         then withSlot ps Empty pm0 else pm0)) p
                     = Some (withSlot ps Empty pm)).
      { rewrite find_update, Z.eqb_refl by (intros x; apply clear_step_id).
        rewrite find_update by apply withWinner_id.
        destruct (Z.eqb_spec p k); [congruence|].
        rewrite Hb1p, Hp. simpl. rewrite slotOf_withSlot.
        rewrite bool_decide_eq_true_2 by reflexivity. now rewrite withSlot_undo. }
      split; [exact Hb2p|]. intros Hempty. now rewrite Hb2p, withSlot_same.
  - assert (Hb1k : find (update b k (withWinner (Some e))) k = Some (withWinner (Some e) m)).
    { rewrite find_update, Z.eqb_refl, Hm by apply withWinner_id. reflexivity. }
    rewrite Hb1k. simpl. rewrite parentDecidedOn_target, target_withWinner, Ht.
    split; [reflexivity|].
    rewrite unpropagate_target, target_withWinner, Ht.
    split; [reflexivity|]. split; [|split].
    + rewrite find_update, Z.eqb_refl, Hb1k by apply withWinner_id. simpl.
      now rewrite withWinner_undo.
    + intros k' _. rewrite find_update by apply withWinner_id.
      destruct (Z.eqb_spec k' k) as [->|Hk].
      * rewrite Hb1k, Hm. simpl. now rewrite withWinner_undo.
      * rewrite find_update by apply withWinner_id.
        destruct (Z.eqb_spec k' k); [congruence|reflexivity].
    + intros p ps pm [=].
Qed.

(** After a successful [clearWinner] the undone winner is not in the
    downstream slot. *)
Lemma clearWinner_no_orphan (b b' : Bracket) k m e p ps pm' :
  find b k = Some m -> winner m = Some e ->
  target m = Some (p, ps) -> p <> k ->
  clearWinner b k = inr b' ->
  find b' p = Some pm' ->
  slotOf pm' ps <> Entity e.
Proof.
  intros Hm Hw Ht Hpk. unfold clearWinner. rewrite Hm, Hw.
  destruct (parentDecidedOn b m e); [discriminate|].
  intros [= <-]. rewrite unpropagate_target, Ht.
  rewrite find_update, Z.eqb_refl by (intros x; apply clear_step_id).
  rewrite find_update by apply withWinner_id.
  destruct (Z.eqb_spec p k); [congruence|].
  destruct (find b p) as [pm|]; simpl; [|discriminate].
  intros [= <-]. case_bool_decide as Hslot; [|exact Hslot].
  rewrite slotOf_withSlot. discriminate.
Qed.

End EngineProperties.

Section RoundTrip.
Import Engine EngineSamples.

(** C1 (round trip of [setWinner] and [clearWinner]), as amended.  On a
    ready match whose downstream match, if any, is another match and is not
    decided, [setWinner] on a slot holding an entrant succeeds and records
    that entrant; [clearWinner] then succeeds too and gives back the match
    as it was (winner unset, both slots as before).  Every match other than
    the downstream one is as before, and the downstream slot named by
    [parent_match_slot] ends up empty: that is its value from before
    [setWinner] whenever it was empty then.  In general, after any
    successful [clearWinner] the downstream slot does not hold the undone
    winner. *)
Theorem setWinner_clearWinner_round_trip :
  (forall (b : Bracket) k s m e,
      find b k = Some m -> ready m -> slotOf m s = Entity e ->
      (forall ps, target m <> Some (k, ps)) ->
      parentProgressed b m = false ->
      exists b1 b2,
        setWinner b k s = inr b1 /\ clearWinner b1 k = inr b2
        /\ find b1 k = Some (withWinner (Some e) m)
        /\ find b2 k = Some m
        /\ (forall k', (forall ps, target m <> Some (k', ps)) -> find b2 k' = find b k')
        /\ (forall p ps pm, target m = Some (p, ps) -> find b p = Some pm ->
              find b1 p = Some (withSlot ps (Entity e) pm)
              /\ find b2 p = Some (withSlot ps Empty pm)
              /\ (slotOf pm ps = Empty -> find b2 p = Some pm)))
  /\ (forall (b b' : Bracket) k m e p ps pm',
      find b k = Some m -> winner m = Some e ->
      target m = Some (p, ps) -> p <> k ->
      clearWinner b k = inr b' ->
      find b' p = Some pm' ->
      slotOf pm' ps <> Entity e).
Proof.
  split.
  - exact setWinner_clearWinner_restores.
  - exact clearWinner_no_orphan.
Qed.

(** The usual state: the round trip gives back the whole bracket. *)
Lemma setWinner_clearWinner_round_trip_witness :
  exists b1 b2,
    setWinner fresh 1 Slot1 = inr b1 /\ clearWinner b1 1 = inr b2
    /\ find b1 1 = Some (withWinner (Some 10) opening)
    /\ find b2 1 = Some opening
    /\ find b2 2 = find fresh 2.
Proof.
  destruct (proj1 setWinner_clearWinner_round_trip fresh 1 Slot1 opening 10)
    as (b1 & b2 & Hset & Hclear & Hwon & Hback & _ & Hparent).
  - reflexivity.
  - repeat split.
  - reflexivity.
  - intros ps. vm_compute. discriminate.
  - reflexivity.
  - exists b1, b2. repeat split; try assumption.
    destruct (Hparent 2 Slot1 (engineMatch 2 2 Empty Empty None None) eq_refl eq_refl)
      as (_ & _ & Hsame).
    rewrite (Hsame eq_refl). reflexivity.
Defined.

(** The claim as stated fails when the downstream slot was filled by hand
    before [setWinner]: the round trip leaves it empty, not as it was. *)
Lemma round_trip_loses_prefilled_parent_slot :
  exists b1 b2 pm pm2,
    find prefilled 1 = Some opening /\ ready opening
    /\ setWinner prefilled 1 Slot1 = inr b1 /\ clearWinner b1 1 = inr b2
    /\ find prefilled 2 = Some pm /\ find b2 2 = Some pm2
    /\ slotOf pm Slot1 = Entity 30 /\ slotOf pm2 Slot1 = Empty
    /\ slotOf pm2 Slot1 <> slotOf pm Slot1.
Proof.
  eexists _, _, _, _.
  split; [reflexivity|]. split; [repeat split|].
  split; [reflexivity|]. split; [reflexivity|].
  split; [reflexivity|]. split; [reflexivity|].
  split; [reflexivity|]. split; [reflexivity|]. discriminate.
Qed.

End RoundTrip.

Section SwapSlots.
Import Js Bracket Client Samples.

(** The engine's exchange, match by match: after [swapSlots] every match
    is found under its id as before, with the slot [sa] of [ka] and the slot
    [sb] of [kb] rewritten. *)
Lemma Engine_find_swapSlots (b : list Engine.Match) ka sa kb sb ma mb :
  Engine.find b ka = Some ma -> Engine.find b kb = Some mb ->
  ka <> kb \/ sa <> sb ->
  exists b',
    Engine.swapSlots b ka sa kb sb = inr b'
    /\ forall k,
         Engine.find b' k
         = (fun m =>
              (if k =? kb then Engine.withSlot sb (Engine.slotOf ma sa) else id)
                ((if k =? ka then Engine.withSlot sa (Engine.slotOf mb sb) else id) m))
           <$> Engine.find b k.
Proof.
  intros Ha Hb Hne. unfold Engine.swapSlots.
  assert (Hsame : (ka =? kb) && bool_decide (sa = sb) = false).
  { apply andb_false_iff. destruct Hne as [H|H];
      [left; now apply Z.eqb_neq|right; now apply bool_decide_eq_false]. }
  rewrite Hsame, Ha, Hb. eexists. split; [reflexivity|].
  intros k. rewrite !find_update by (intros x; now destruct sb || now destruct sa).
  destruct (k =? kb), (k =? ka), (Engine.find b k); reflexivity.
Qed.

(** C10 (swapping a slot with itself), as amended.  [swapSlots] called with
    the same match and slot as source and target returns at once: no
    request, and the error state is what it was; so does a bracket box on
    which its own drag payload is dropped.  For two distinct positions it
    sends one POST to [.../bracket/matches/swap-slots] that names both
    positions, and nothing else.  In the engine that request reaches,
    [swapSlots] on two distinct positions of matches of the bracket is one
    transition after which each of the two slots holds what the other held,
    every other slot, every winner and every link is as before, and the
    same call once more gives back the contents. *)
Theorem swapSlots_same_position_ignored :
  (forall st m s resp before reload,
      swapSlots st m s m s resp = Ignored
      /\ banner before (swapSlots st m s m s resp) reload = before)
  /\ (forall st onSwap onDrop m s resp,
        handleDrop st onSwap onDrop m s (Some (SlotDrag m s)) resp = Ignored)
  /\ (forall st m1 s1 m2 s2 resp,
        m1 <> m2 \/ s1 <> s2 ->
        swapSlots st m1 s1 m2 s2 resp
        = Sent {| method := "POST";
                  url := "/api/tournaments/" +:+ numStr (tournamentId st)
                         +:+ "/bracket/matches/swap-slots";
                  body := {[ "from_match_id" := JId m1; "from_slot" := JNum s1;
                             "to_match_id" := JId m2; "to_slot" := JNum s2 ]} |}
               (errorUnlessOk resp "Failed to swap")
        /\ handleDrop st true true m2 s2 (Some (SlotDrag m1 s1)) resp
           = swapSlots st m1 s1 m2 s2 resp)
  /\ (forall (b : list Engine.Match) ka sa kb sb ma mb,
        Engine.find b ka = Some ma -> Engine.find b kb = Some mb ->
        ka <> kb \/ sa <> sb ->
        exists b' ma' mb',
          Engine.swapSlots b ka sa kb sb = inr b'
          /\ Engine.find b' ka = Some ma' /\ Engine.find b' kb = Some mb'
          /\ Engine.slotOf ma' sa = Engine.slotOf mb sb
          /\ Engine.slotOf mb' sb = Engine.slotOf ma sa
          /\ (forall k s m,
                Engine.find b k = Some m -> (k, s) <> (ka, sa) -> (k, s) <> (kb, sb) ->
                exists m', Engine.find b' k = Some m'
                           /\ Engine.slotOf m' s = Engine.slotOf m s)
          /\ (forall k m,
                Engine.find b k = Some m ->
                exists m', Engine.find b' k = Some m'
                           /\ Engine.match_id m' = Engine.match_id m
                           /\ Engine.round_num m' = Engine.round_num m
                           /\ Engine.bracket_section m' = Engine.bracket_section m
                           /\ Engine.winner m' = Engine.winner m
                           /\ Engine.parent_match_id m' = Engine.parent_match_id m
                           /\ Engine.parent_match_slot m' = Engine.parent_match_slot m)
          /\ (forall k, Engine.find b k = None -> Engine.find b' k = None)
          /\ exists b'',
               Engine.swapSlots b' ka sa kb sb = inr b''
               /\ forall k, Engine.find b'' k = Engine.find b k).
Proof.
  split; [|split; [|split]].
  - intros st m s resp before reload. unfold swapSlots, strictEq.
    now rewrite bool_decide_eq_true_2, Z.eqb_refl.
  - intros st onSwap onDrop m s resp. unfold handleDrop, strictEq.
    rewrite bool_decide_eq_true_2, Z.eqb_refl by reflexivity. simpl.
    rewrite andb_false_r. now destruct onDrop.
  - intros st m1 s1 m2 s2 resp Hne.
    assert (Hsame : strictEq m1 m2 && (s1 =? s2) = false).
    { unfold strictEq. apply andb_false_iff.
      destruct Hne as [Hm|Hs]; [left; now apply bool_decide_eq_false|right; now apply Z.eqb_neq]. }
    split.
    + unfold swapSlots. now rewrite Hsame.
    + unfold handleDrop. now rewrite Hsame.
  - intros b ka sa kb sb ma mb Ha Hb Hne.
    destruct (Engine_find_swapSlots b ka sa kb sb ma mb Ha Hb Hne) as (b' & Hrun & Hfind).
    pose proof (Hfind ka) as Hka. pose proof (Hfind kb) as Hkb.
    rewrite Ha in Hka. rewrite Hb in Hkb. simpl in Hka, Hkb.
    rewrite Z.eqb_refl in Hka, Hkb.
    eexists b', _, _. split; [exact Hrun|]. split; [exact Hka|]. split; [exact Hkb|].
    assert (Hcases : ka = kb /\ sa <> sb \/ ka <> kb).
    { destruct (decide (ka = kb)); [left|right; assumption].
      split; [assumption|]. destruct Hne; [contradiction|assumption]. }
    split; [|split; [|split; [|split; [|split]]]].
    + destruct Hcases as [[-> Hs]|Hk].
      * rewrite Z.eqb_refl. rewrite Ha in Hb. injection Hb as ->.
        destruct sa, sb; try contradiction; reflexivity.
      * rewrite (proj2 (Z.eqb_neq ka kb) Hk). simpl. now destruct sa.
    + destruct Hcases as [[-> Hs]|Hk].
      * rewrite Z.eqb_refl. now destruct sb.
      * assert (Hk' : kb <> ka) by congruence.
        rewrite (proj2 (Z.eqb_neq kb ka) Hk'). simpl. now destruct sb.
    + intros k s m Hm H1 H2. rewrite Hfind, Hm. simpl. eexists. split; [reflexivity|].
      destruct (Z.eqb_spec k kb) as [Ekb|Hkb'], (Z.eqb_spec k ka) as [Eka|Hka'];
        destruct s, sa, sb; simpl; try reflexivity; subst; congruence.
    + intros k m Hm. rewrite Hfind, Hm. simpl. eexists. split; [reflexivity|].
      destruct (k =? kb), (k =? ka), sa, sb; repeat split.
    + intros k Hk. now rewrite Hfind, Hk.
    + destruct (Engine_find_swapSlots b' ka sa kb sb _ _ Hka Hkb Hne) as (b'' & Hrun' & Hfind').
      exists b''. split; [exact Hrun'|]. intros k. rewrite Hfind', Hfind.
      destruct (Engine.find b k) as [m|] eqn:Hm; [|reflexivity]. simpl. f_equal.
      destruct Hcases as [[-> Hs]|Hk].
      * rewrite Ha in Hb. injection Hb as ->.
        destruct (Z.eqb_spec k kb) as [->|Hkb'].
        -- rewrite Ha in Hm. injection Hm as ->. rewrite !Z.eqb_refl.
           destruct m, sa, sb; try contradiction; reflexivity.
        -- reflexivity.
      * assert (Hk' : kb <> ka) by congruence.
        rewrite (proj2 (Z.eqb_neq ka kb) Hk), (proj2 (Z.eqb_neq kb ka) Hk').
        destruct (Z.eqb_spec k kb) as [Ekb|Hkb'], (Z.eqb_spec k ka) as [Eka|Hka'];
          try congruence; simpl.
        -- subst k. rewrite Hb in Hm. injection Hm as ->. destruct m, sa, sb; reflexivity.
        -- subst k. rewrite Ha in Hm. injection Hm as ->. destruct m, sa, sb; reflexivity.
        -- reflexivity.
Qed.

(** Moving the first slot of match 1 onto the first slot of match 2: the
    one request, and the exchange in the engine on the opening bracket. *)
Lemma swapSlots_same_position_ignored_witness :
  swapSlots sampleState (IdNum 1) 1 (IdNum 2) 1 (Reply true 200 EmptyBody)
  = Sent {| method := "POST";
            url := "/api/tournaments/" +:+ numStr (tournamentId sampleState)
                   +:+ "/bracket/matches/swap-slots";
            body := {[ "from_match_id" := JId (IdNum 1); "from_slot" := JNum 1;
                       "to_match_id" := JId (IdNum 2); "to_slot" := JNum 1 ]} |}
         (errorUnlessOk (Reply true 200 EmptyBody) "Failed to swap")
  /\ exists b' m1 m2,
       Engine.swapSlots EngineSamples.fresh 1 Engine.Slot1 2 Engine.Slot1 = inr b'
       /\ Engine.find b' 1 = Some m1 /\ Engine.find b' 2 = Some m2
       /\ Engine.slotOf m1 Engine.Slot1 = Engine.Empty
       /\ Engine.slotOf m2 Engine.Slot1 = Engine.Entity 10.
Proof.
  destruct swapSlots_same_position_ignored as (_ & _ & Hsend & Hengine).
  split.
  - assert (Hne : IdNum 1 <> IdNum 2 \/ 1 <> 1) by (left; discriminate).
    exact (proj1 (Hsend sampleState (IdNum 1) 1 (IdNum 2) 1 (Reply true 200 EmptyBody) Hne)).
  - assert (Hne : 1 <> 2 \/ Engine.Slot1 <> Engine.Slot1) by (left; discriminate).
    destruct (Hengine EngineSamples.fresh 1 Engine.Slot1 2 Engine.Slot1 _ _ eq_refl eq_refl Hne)
      as (b' & m1 & m2 & Hrun & H1 & H2 & Hs1 & Hs2 & _).
    exists b', m1, m2. auto.
Defined.

(** The claim as stated fails: swapping a slot with itself sends nothing
    and reports no error of any kind, whatever the server would have
    answered and whatever the error state was. *)
Lemma swapSlots_same_position_no_error :
  swapSlots sampleState (IdNum 1) 1 (IdNum 1) 1
            (Reply false 400 (JsonBody (VStr "NoOpError") VUndefined)) = Ignored
  /\ ~ reportsError (swapSlots sampleState (IdNum 1) 1 (IdNum 1) 1
                       (Reply false 400 (JsonBody (VStr "NoOpError") VUndefined)))
  /\ banner None (swapSlots sampleState (IdNum 1) 1 (IdNum 1) 1
                    (Reply false 400 (JsonBody (VStr "NoOpError") VUndefined))) None
     = None.
Proof. split; [reflexivity|]. split; [intros H; exact H|reflexivity]. Qed.

End SwapSlots.

Section GenerateGate.
Import Js Bracket Client Samples.





End GenerateGate.

Section WinnerClicks.
Import Js Bracket Client Samples.

(** The two kinds of click a [BracketBox] offers, with what they require. *)
Lemma BracketBox_clicks name p d id slot adv sw ho cs ce a :
  a ∈ BracketBox name p d id slot adv sw ho cs ce ->
  (a = SetWinner id slot /\ cs = true /\ realName name = true)
  \/ (a = AdvanceOpponent id (if slot =? 1 then 2 else 1)
      /\ realName name = true /\ ho = false).
Proof.
  unfold BracketBox. intros H.
  destruct (p || negb d); [inversion H|].
  destruct (ce && cs && realName name && sw) eqn:Hc; simpl in H.
  - left. apply andb_true_iff in Hc as [Hc _]. apply andb_true_iff in Hc as [Hc Hn].
    apply andb_true_iff in Hc as [_ Hcs].
    apply elem_of_cons in H as [->|H]; [auto|].
    apply list_elem_of_singleton in H as ->. auto.
  - destruct (ce && realName name && negb ho && adv) eqn:Hd; simpl in H; [|inversion H].
    right. apply andb_true_iff in Hd as [Hd _]. apply andb_true_iff in Hd as [Hd Hho].
    apply andb_true_iff in Hd as [_ Hn]. apply negb_true_iff in Hho.
    apply list_elem_of_singleton in H as ->. auto.
Qed.

Lemma MatchSlot_clicks label name id slot adv ho a :
  a ∈ MatchSlot label name id slot adv ho -> a = AdvanceOpponent id slot /\ ho = true.
Proof.
  unfold MatchSlot. intros H. destruct (_ && _) eqn:Hc; [|inversion H].
  apply list_elem_of_singleton in H as ->.
  apply andb_true_iff in Hc as [Hc _]. apply andb_true_iff in Hc as [_ Hho]. auto.
Qed.

(** Where the bracket view offers [setWinner]: only on a card whose match
    has an entity in both slots and no winner name, for one of its two
    slots, and only where that slot shows a real name. *)
Lemma renderBracket_setWinner h isPreview canEdit bracket_type (rawRounds : Rounds)
    col m acts i slot :
  col ∈ renderBracket h isPreview canEdit bracket_type rawRounds ->
  (m, acts) ∈ cards col -> SetWinner i slot ∈ acts ->
  i = match_id m
  /\ bothFilled m = true /\ truthyStr (winner_name m) = false
  /\ ((slot = 1 /\ realName (slotName1 m) = true)
      \/ (slot = 2 /\ realName (slotName2 m) = true)).
Proof.
  assert (Hslot : forall label name j s adv ho,
            SetWinner i slot ∈ MatchSlot label name j s adv ho -> False).
  { intros ? ? ? ? ? ? H. apply MatchSlot_clicks in H as [H _]. discriminate. }
  assert (Hzone : forall (b1 b2 : bool) a1 a2,
            SetWinner i slot ∈ (if b1 then a1 else []) ++ (if b2 then a2 else []) ->
            correction <$> a1 = [true] -> correction <$> a2 = [true] -> False).
  { intros b1 b2 a1 a2 H H1 H2. apply elem_of_app in H as [H|H];
      [destruct b1|destruct b2]; try (now inversion H);
      [destruct a1 as [|x [|]]|destruct a2 as [|x [|]]]; try discriminate;
      apply list_elem_of_singleton in H as <-; discriminate. }
  unfold renderBracket. cbn [enrichRoundsWithInferredWinners default from_option id].
  intros Hcol Hcard Ha. case_bool_decide.
  - exfalso. rewrite !elem_of_app in Hcol. destruct Hcol as [Hcol|[Hcol|Hcol]].
    + unfold BracketTree in Hcol. apply elem_of_map in Hcol as ([r ms] & <- & _).
      simpl in Hcard. apply elem_of_map in Hcard as (m' & [= -> <-] & _).
      unfold renderMatch in Ha. apply elem_of_app in Ha as [Ha|Ha].
      * destruct (_ && _); [|inversion Ha].
        apply elem_of_app in Ha as [Ha|Ha]; eauto.
      * destruct (truthyStr _); [|inversion Ha]. eapply Hzone; eauto.
    + apply elem_of_map in Hcol as ([r ms] & <- & _).
      simpl in Hcard. apply elem_of_map in Hcard as (m' & [= -> <-] & _).
      apply elem_of_app in Ha as [Ha|Ha].
      * destruct isPreview; [inversion Ha|]. apply elem_of_app in Ha as [Ha|Ha]; eauto.
      * destruct (truthyStr _); [|inversion Ha]. simpl in Ha. eapply Hzone; eauto.
    + destruct (0 <? _)%nat; [|inversion Hcol].
      apply list_elem_of_singleton in Hcol as ->.
      simpl in Hcard. apply elem_of_map in Hcard as (m' & [= -> <-] & _).
      apply elem_of_app in Ha as [Ha|Ha].
      * destruct isPreview; [inversion Ha|]. apply elem_of_app in Ha as [Ha|Ha]; eauto.
      * destruct (truthyStr _); [|inversion Ha]. simpl in Ha.
        destruct (_ && _); [|inversion Ha].
        apply elem_of_cons in Ha as [Ha|Ha]; [discriminate|].
        apply list_elem_of_singleton in Ha. discriminate.
  - unfold BracketVisual in Hcol. apply elem_of_map in Hcol as ([r ms] & <- & _).
    simpl in Hcard. apply elem_of_map in Hcard as (m' & [= -> <-] & _).
    unfold renderMatchBlock in Ha.
    apply elem_of_app in Ha as [Ha|Ha]; [|apply elem_of_app in Ha as [Ha|Ha]].
    + apply BracketBox_clicks in Ha as [(Heq & Hcs & Hn)|(Heq & _)]; [|discriminate].
      injection Heq as -> ->. apply andb_true_iff in Hcs as [Hb Hw].
      apply negb_true_iff in Hw. auto 10.
    + apply BracketBox_clicks in Ha as [(Heq & Hcs & Hn)|(Heq & _)]; [|discriminate].
      injection Heq as -> ->. apply andb_true_iff in Hcs as [Hb Hw].
      apply negb_true_iff in Hw. auto 10.
    + exfalso. destruct (truthyStr _); [|inversion Ha].
      destruct (_ && bool_decide _).
      * destruct (_ && _); [|inversion Ha].
        apply elem_of_app in Ha as [Ha|Ha];
          [destruct (onSwapWinner _)|destruct (onClearWinner _)]; try (now inversion Ha);
          apply list_elem_of_singleton in Ha; discriminate.
      * eapply Hzone; eauto.
Qed.

(** What [setWinner] and [advanceOpponent] show after a reply: nothing of
    their own when it is [ok]; otherwise [String(detail)] for a truthy
    [detail], else [String(error)] for a truthy [error], else the fallback,
    which also stands when the body is empty or not JSON. *)
Lemma errorOfPatch_cases resp fallback :
  (errorOfPatch resp fallback = None <-> exists status content, resp = Reply true status content)
  /\ (forall status detail error,
        errorOfPatch (Reply false status (JsonBody detail error)) fallback
        = Some (if truthy detail then toString detail
                else if truthy error then toString error
                else fallback))
  /\ (forall status,
        errorOfPatch (Reply false status EmptyBody) fallback = Some fallback)
  /\ (forall status head,
        errorOfPatch (Reply false status (NotJson head)) fallback = Some fallback).
Proof.
  split; [|split; [|split]].
  - split.
    + destruct resp as [msg|[] status content]; simpl; try discriminate; [eauto|].
      destruct content; discriminate.
    + intros (status & content & ->). reflexivity.
  - intros status detail error. simpl. unfold orValue.
    destruct (truthy detail) eqn:Hd; [now rewrite Hd|].
    now destruct (truthy error) eqn:He.
  - reflexivity.
  - reflexivity.
Qed.

(** What [setWinner] sends: when the match is not in the bracket or the
    chosen slot holds no entity, nothing; otherwise one PATCH of the match
    whose body is the id read from the chosen slot under [winnerKey]. *)
Lemma setWinner_cases st matchId slot resp :
  match findMatch st matchId with
  | None => setWinner st matchId slot resp = Ignored
  | Some m =>
      match slotEntity (isTeamFormat st) m slot with
      | Some w =>
          if truthyId (Some w)
          then setWinner st matchId slot resp
               = Sent {| method := "PATCH"; url := matchUrl st matchId;
                         body := {[ winnerKey (isTeamFormat st) m := JId w ]} |}
                      (errorOfPatch resp "Failed to set winner")
          else setWinner st matchId slot resp = Ignored
      | None => setWinner st matchId slot resp = Ignored
      end
  end.
Proof.
  unfold setWinner. destruct (findMatch st matchId) as [m|]; [|reflexivity].
  destruct (slotEntity _ m slot) as [w|]; [|reflexivity].
  now destruct (truthyId (Some w)).
Qed.

(** The winner key fits the chosen slot unless, in a 1v1 bracket, the slot
    holds no manual entry while the other slot holds one. *)
Lemma winnerKey_fits isTeam m slot :
  winnerKey isTeam m = slotKindKey isTeam m slot
  <-> ~ (isTeam = false
         /\ (if slot =? 1 then manual_entry1_id m else manual_entry2_id m) = None
         /\ is_Some (if slot =? 1 then manual_entry2_id m else manual_entry1_id m)).
Proof.
  unfold winnerKey, slotKindKey. destruct isTeam; [intuition congruence|].
  destruct (slot =? 1), (manual_entry1_id m) as [a|], (manual_entry2_id m) as [b|]; simpl;
    repeat (rewrite bool_decide_eq_true_2 by eauto);
    repeat (rewrite bool_decide_eq_false_2 by (intros [? ?]; discriminate));
    simpl; split; try (intros _ (_ & H & _); discriminate); try reflexivity;
    try discriminate;
    try (intros _ (_ & _ & [? ?]); discriminate);
    try (intros H; exfalso; apply H; eauto).
Qed.

(** C4 ([setWinner] on a filled match).  The single-elimination view offers
    [setWinner] for slot 2 of the 1v1 match between the manual entry 7 and
    the player 6: both slots are filled.  The chosen slot holds the player
    6, and the request names 6 under [winner_manual_entry_id]: the winner
    asked for is a manual entry, not the entity in the chosen slot.  In
    general the request carries the id read from the chosen slot, and its
    key is that of the slot's own kind exactly when the match does not mix
    a player in the chosen slot with a manual entry in the other.  For the
    rest: the bracket view offers [setWinner] only for a slot of a match
    that has an entity in both slots and shows no winner; on an unknown
    match or a slot without entity the handler returns without a request;
    and a reply that is not [ok] is shown by [String(detail)] for a truthy
    [detail], else [String(error)] for a truthy [error], else
    'Failed to set winner'. *)
Theorem setWinner_names_player_as_manual_entry :
  (exists col acts,
      col ∈ renderBracket allHandlers false true (Some "single_elim") [(1, [mixed])]
      /\ (mixed, acts) ∈ cards col /\ SetWinner (IdNum 8) 2 ∈ acts)
  /\ findMatch soloState (IdNum 8) = Some mixed
  /\ bothFilled mixed = true
  /\ manual_entry2_id mixed = None /\ player2_id mixed = Some (IdNum 6)
  /\ slotEntity (isTeamFormat soloState) mixed 2 = Some (IdNum 6)
  /\ slotKindKey (isTeamFormat soloState) mixed 2 = "winner_player_id"
  /\ (forall resp,
        setWinner soloState (IdNum 8) 2 resp
        = Sent {| method := "PATCH"; url := matchUrl soloState (IdNum 8);
                  body := {[ "winner_manual_entry_id" := JId (IdNum 6) ]} |}
               (errorOfPatch resp "Failed to set winner"))
  /\ (forall st matchId slot resp m w,
        findMatch st matchId = Some m ->
        slotEntity (isTeamFormat st) m slot = Some w ->
        truthyId (Some w) = true ->
        setWinner st matchId slot resp
        = Sent {| method := "PATCH"; url := matchUrl st matchId;
                  body := {[ winnerKey (isTeamFormat st) m := JId w ]} |}
               (errorOfPatch resp "Failed to set winner")
        /\ (winnerKey (isTeamFormat st) m = slotKindKey (isTeamFormat st) m slot
            <-> ~ (isTeamFormat st = false
                   /\ (if slot =? 1 then manual_entry1_id m else manual_entry2_id m) = None
                   /\ is_Some (if slot =? 1 then manual_entry2_id m
                               else manual_entry1_id m))))
  /\ (forall h isPreview canEdit bracket_type (rawRounds : Rounds) col m acts i slot,
        col ∈ renderBracket h isPreview canEdit bracket_type rawRounds ->
        (m, acts) ∈ cards col -> SetWinner i slot ∈ acts ->
        i = match_id m
        /\ bothFilled m = true /\ truthyStr (winner_name m) = false
        /\ ((slot = 1 /\ realName (slotName1 m) = true)
            \/ (slot = 2 /\ realName (slotName2 m) = true)))
  /\ (forall st matchId slot resp,
        findMatch st matchId = None
        \/ (exists m, findMatch st matchId = Some m
                      /\ truthyId (slotEntity (isTeamFormat st) m slot) = false) ->
        setWinner st matchId slot resp = Ignored)
  /\ (forall status detail error,
        errorOfPatch (Reply false status (JsonBody detail error)) "Failed to set winner"
        = Some (if truthy detail then toString detail
                else if truthy error then toString error
                else "Failed to set winner")).
Proof.
  split.
  { eexists _, _. split; [apply list_elem_of_here|]. split; [apply list_elem_of_here|].
    simpl. do 2 apply list_elem_of_further. apply list_elem_of_here. }
  split; [reflexivity|]. split; [reflexivity|]. split; [reflexivity|].
  split; [reflexivity|]. split; [reflexivity|]. split; [reflexivity|].
  split; [intros resp; reflexivity|].
  split; [|split; [exact renderBracket_setWinner|split]].
  - intros st matchId slot resp m w Hm Hw Ht.
    pose proof (setWinner_cases st matchId slot resp) as H.
    rewrite Hm, Hw, Ht in H. split; [exact H|apply winnerKey_fits].
  - intros st matchId slot resp Hno.
    pose proof (setWinner_cases st matchId slot resp) as H.
    destruct Hno as [Hm|(m & Hm & Hf)]; rewrite Hm in H; [exact H|].
    destruct (slotEntity (isTeamFormat st) m slot) as [w|]; [|exact H].
    now rewrite Hf in H.
  - intros status detail error.
    apply (proj1 (proj2 (errorOfPatch_cases (Reply true status EmptyBody) "Failed to set winner"))).
Qed.

(** [winnerKey] and [vacatedKey] never coincide. *)
Lemma winnerKey_neq_vacatedKey isTeam m slot : winnerKey isTeam m <> vacatedKey isTeam m slot.
Proof.
  unfold winnerKey, vacatedKey.
  repeat match goal with |- context [if ?b then _ else _] => destruct b end; discriminate.
Qed.

(** C8 ([advanceOpponent] on a dropout).  The double-elimination view
    offers Advance on slot 1 of the 1v1 match between the manual entry 7
    and the player 6.  The other slot holds the player 6, and the request
    names 6 under [winner_manual_entry_id] while it sets
    [manual_entry1_id] to [null]: the winner asked for is a manual entry,
    not the occupant of the other slot.  In general: with [slot] the slot
    that dropped out, when the other slot holds no entity or the match is
    unknown nothing is sent; otherwise one PATCH names the id read from the
    other slot under [winnerKey] and sets the id field of the vacated slot,
    chosen by what that slot holds, to [null], and nothing else; the winner
    key is that of the other slot's own kind exactly when the match does
    not mix a player there with a manual entry in the vacated slot. *)
Theorem advanceOpponent_names_player_as_manual_entry :
  (exists col acts,
      col ∈ renderBracket allHandlers false true (Some "double_elim") [(1, [mixed])]
      /\ (mixed, acts) ∈ cards col /\ AdvanceOpponent (IdNum 8) 1 ∈ acts)
  /\ findMatch soloState (IdNum 8) = Some mixed
  /\ manual_entry2_id mixed = None /\ player2_id mixed = Some (IdNum 6)
  /\ slotEntity (isTeamFormat soloState) mixed 2 = Some (IdNum 6)
  /\ slotKindKey (isTeamFormat soloState) mixed 2 = "winner_player_id"
  /\ (forall resp,
        advanceOpponent soloState (IdNum 8) 1 resp
        = Sent {| method := "PATCH"; url := matchUrl soloState (IdNum 8);
                  body := {[ "winner_manual_entry_id" := JId (IdNum 6);
                             "manual_entry1_id" := JNull ]} |}
               (errorOfPatch resp "Failed to advance"))
  /\ (forall st matchId slot resp m,
        findMatch st matchId = Some m ->
        let isTeam := isTeamFormat st in
        let other := if slot =? 1 then 2 else 1 in
        (truthyId (slotEntity isTeam m other) = false ->
         advanceOpponent st matchId slot resp = Ignored)
        /\ (forall w,
              slotEntity isTeam m other = Some w -> truthyId (Some w) = true ->
              advanceOpponent st matchId slot resp
              = Sent {| method := "PATCH"; url := matchUrl st matchId;
                        body := <[ vacatedKey isTeam m slot := JNull ]>
                                  {[ winnerKey isTeam m := JId w ]} |}
                     (errorOfPatch resp "Failed to advance")
              /\ winnerKey isTeam m <> vacatedKey isTeam m slot
              /\ (winnerKey isTeam m = slotKindKey isTeam m other
                  <-> ~ (isTeam = false
                         /\ (if other =? 1 then manual_entry1_id m
                             else manual_entry2_id m) = None
                         /\ is_Some (if other =? 1 then manual_entry2_id m
                                     else manual_entry1_id m)))))
  /\ (forall st matchId slot resp,
        findMatch st matchId = None -> advanceOpponent st matchId slot resp = Ignored)
  /\ (forall isTeam m slot,
        vacatedKey isTeam m slot
        = if isTeam then (if slot =? 1 then "team1_id" else "team2_id")
          else if slot =? 1
               then (if bool_decide (is_Some (manual_entry1_id m))
                     then "manual_entry1_id" else "player1_id")
               else (if bool_decide (is_Some (manual_entry2_id m))
                     then "manual_entry2_id" else "player2_id")).
Proof.
  split.
  { eexists _, _. split; [apply list_elem_of_here|]. split; [apply list_elem_of_here|].
    simpl. apply list_elem_of_here. }
  split; [reflexivity|]. split; [reflexivity|]. split; [reflexivity|].
  split; [reflexivity|]. split; [reflexivity|].
  split; [intros resp; reflexivity|].
  split; [|split].
  - intros st matchId slot resp m Hm isTeam other. split.
    + intros Hf. unfold advanceOpponent. rewrite Hm. fold isTeam other.
      destruct (slotEntity isTeam m other); [|reflexivity]. now rewrite Hf.
    + intros w Hw Ht. split; [|split].
      * unfold advanceOpponent. rewrite Hm. fold isTeam other. now rewrite Hw, Ht.
      * apply winnerKey_neq_vacatedKey.
      * apply winnerKey_fits.
  - intros st matchId slot resp H. unfold advanceOpponent. now rewrite H.
  - intros isTeam m slot. unfold vacatedKey. now destruct (slot =? 1), isTeam.
Qed.

End WinnerClicks.

(* ---------------------------------------------------------------------- *)
(** ** Further properties of the views, the team editor and the handlers *)
(* ---------------------------------------------------------------------- *)

Section ColumnOrder.
Import Js Bracket Samples.

(** Ascending keys. *)
Lemma insertByKey_sorted {V : Type} (x : Z * V) l :
  StronglySorted (fun a b => a.1 <= b.1) l ->
  StronglySorted (fun a b => a.1 <= b.1) (insertByKey x l).
Proof.
  induction l as [|y l IH]; simpl; intros Hs.
  - repeat constructor.
  - apply StronglySorted_inv in Hs as [Hs Hy].
    destruct (Z.leb_spec x.1 y.1) as [Hle|Hgt].
    + constructor; [now constructor|].
      constructor; [exact Hle|].
      eapply Forall_impl; [exact Hy|]. simpl. intros z Hz. lia.
    + constructor; [now apply IH|].
      apply Forall_forall. intros z Hz. apply elem_of_insertByKey in Hz as [->|Hz]; [lia|].
      rewrite Forall_forall in Hy. now apply Hy.
Qed.

Lemma sortByKey_sorted {V : Type} (l : list (Z * V)) :
  StronglySorted (fun a b => a.1 <= b.1) (sortByKey l).
Proof.
  unfold sortByKey. induction l as [|x l IH]; simpl; [constructor|].
  now apply insertByKey_sorted.
Qed.

Lemma insertByKey_perm {V : Type} (x : Z * V) l : insertByKey x l ≡ₚ x :: l.
Proof.
  induction l as [|y l IH]; simpl; [reflexivity|].
  destruct (x.1 <=? y.1); [reflexivity|].
  rewrite IH. apply Permutation_swap.
Qed.

Lemma sortByKey_perm {V : Type} (l : list (Z * V)) : sortByKey l ≡ₚ l.
Proof.
  unfold sortByKey. induction l as [|x l IH]; simpl; [reflexivity|].
  now rewrite insertByKey_perm, IH.
Qed.

(** Entries with the same key keep their order: the sort is stable. *)
Lemma insertByKey_stable {V : Type} (x : Z * V) l k :
  List.filter (fun e => e.1 =? k) (insertByKey x l)
  = List.filter (fun e => e.1 =? k) (x :: l).
Proof.
  induction l as [|y l IH]; [reflexivity|].
  cbn [insertByKey]. destruct (Z.leb_spec x.1 y.1) as [Hle|Hgt]; [reflexivity|].
  cbn [List.filter] in *. rewrite IH.
  destruct (Z.eqb_spec x.1 k) as [Hx|Hx]; [|reflexivity].
  destruct (Z.eqb_spec y.1 k) as [Hy|Hy]; [lia|reflexivity].
Qed.

Lemma sortByKey_stable {V : Type} (l : list (Z * V)) k :
  List.filter (fun e => e.1 =? k) (sortByKey l) = List.filter (fun e => e.1 =? k) l.
Proof.
  unfold sortByKey. induction l as [|x l IH]; [reflexivity|].
  cbn [foldr]. rewrite insertByKey_stable. cbn [List.filter]. now rewrite IH.
Qed.

(** A list in ascending key order is left as it is. *)
Lemma sortByKey_of_sorted {V : Type} (l : list (Z * V)) :
  StronglySorted (fun a b => a.1 <= b.1) l -> sortByKey l = l.
Proof.
  unfold sortByKey. induction l as [|x l IH]; [reflexivity|].
  intros Hs. apply StronglySorted_inv in Hs as [Hs Hx].
  cbn [foldr]. rewrite IH by assumption.
  destruct l as [|y l]; [reflexivity|]. simpl.
  apply Forall_cons in Hx as [Hxy _].
  destruct (Z.leb_spec x.1 y.1); [reflexivity|lia].
Qed.

Lemma filter_all {A : Type} (f : A -> bool) l :
  (forall x, x ∈ l -> f x = true) -> List.filter f l = l.
Proof.
  induction l as [|x l IH]; [reflexivity|]. intros H. simpl.
  rewrite (H x) by apply list_elem_of_here.
  f_equal. apply IH. intros y Hy. apply H. now apply list_elem_of_further.
Qed.

Lemma roundEntries_idempotent (rounds : Rounds) :
  roundEntries (roundEntries rounds) = roundEntries rounds.
Proof.
  unfold roundEntries at 1. rewrite filter_all.
  - apply sortByKey_of_sorted. unfold roundEntries. apply sortByKey_sorted.
  - intros e He. apply elem_of_roundEntries in He as [_ He]. now apply Z.ltb_lt.
Qed.

Lemma StronglySorted_map_fst {V : Type} (R : Z -> Z -> Prop) (l : list (Z * V)) :
  StronglySorted (fun a b => R a.1 b.1) l -> StronglySorted R (map fst l).
Proof.
  induction 1 as [|x l Hs IH Hx]; simpl; constructor; [exact IH|].
  apply Forall_forall. intros k Hk. apply elem_of_map in Hk as (y & <- & Hy).
  rewrite Forall_forall in Hx. now apply Hx.
Qed.

Lemma BracketVisual_displayed h p (rounds : Rounds) :
  map displayed (BracketVisual h p rounds) = map fst (roundEntries rounds).
Proof.
  unfold BracketVisual. rewrite List.map_map. apply List.map_ext. now intros [r ms].
Qed.

Lemma BracketTree_displayed h p (rounds : Rounds) :
  map displayed (BracketTree h p rounds) = map fst (roundEntries rounds).
Proof.
  unfold BracketTree. rewrite List.map_map. apply List.map_ext. now intros [r ms].
Qed.

(** Distinct keys in ascending order are in strictly ascending order. *)
Lemma sorted_nodup_strict (l : list Z) :
  StronglySorted Z.le l -> NoDup l -> StronglySorted Z.lt l.
Proof.
  induction 1 as [|x l Hs IH Hx]; intros Hnd; constructor.
  - apply IH. now apply NoDup_cons in Hnd as [_ Hnd].
  - apply NoDup_cons in Hnd as [Hx' _].
    apply Forall_forall. intros y Hy. rewrite Forall_forall in Hx.
    specialize (Hx y Hy). assert (x <> y) by (intros Heq; apply Hx'; now rewrite Heq). lia.
Qed.

Lemma NoDup_keys_filter {V : Type} (f : Z * V -> bool) (l : list (Z * V)) :
  NoDup (map fst l) -> NoDup (map fst (List.filter f l)).
Proof.
  induction l as [|[k v] l IH]; simpl; [constructor|].
  intros Hnd. apply NoDup_cons in Hnd as [Hk Hnd].
  destruct (f (k, v)); simpl; [|now apply IH].
  apply NoDup_cons. split; [|now apply IH].
  intros Hin. apply Hk. apply elem_of_map in Hin as (e & <- & He).
  apply elem_of_filter_bool in He as [He _]. apply elem_of_map. eauto.
Qed.

(** X1 (column order).  [sortByKey] returns the entries it was given, in
    ascending key order, entries with equal keys in their old order.  Hence
    the columns of [BracketVisual] and of [BracketTree] show the rounds
    below 10 in ascending order, strictly ascending when the keys of the
    rounds object are distinct. *)
Theorem bracket_columns_ascending :
  (forall (V : Type) (l : list (Z * V)),
      StronglySorted (fun a b => a.1 <= b.1) (sortByKey l)
      /\ sortByKey l ≡ₚ l
      /\ (forall k, List.filter (fun e => e.1 =? k) (sortByKey l)
                    = List.filter (fun e => e.1 =? k) l))
  /\ (forall h p (rounds : Rounds),
        StronglySorted Z.le (map displayed (BracketVisual h p rounds))
        /\ StronglySorted Z.le (map displayed (BracketTree h p rounds))
        /\ (NoDup (map fst rounds) ->
            StronglySorted Z.lt (map displayed (BracketVisual h p rounds))
            /\ StronglySorted Z.lt (map displayed (BracketTree h p rounds))))
  /\ (forall rounds : Rounds,
        roundEntries rounds ≡ₚ List.filter (fun e => e.1 <? 10) rounds).
Proof.
  split; [|split].
  - intros V l. split; [apply sortByKey_sorted|]. split; [apply sortByKey_perm|].
    apply sortByKey_stable.
  - intros h p rounds. rewrite BracketVisual_displayed, BracketTree_displayed.
    assert (Hs : StronglySorted Z.le (map fst (roundEntries rounds))).
    { apply StronglySorted_map_fst. unfold roundEntries. apply sortByKey_sorted. }
    split; [exact Hs|]. split; [exact Hs|].
    intros Hnd.
    assert (Hnd' : NoDup (map fst (roundEntries rounds))).
    { unfold roundEntries. rewrite sortByKey_perm. now apply NoDup_keys_filter. }
    split; now apply sorted_nodup_strict.
  - intros rounds. unfold roundEntries. apply sortByKey_perm.
Qed.

End ColumnOrder.

Section SingleElimination.
Import Js Bracket Samples.

Lemma insertByKey_map {V W : Type} (g : V -> W) (x : Z * V) l :
  insertByKey (x.1, g x.2) (map (fun e => (e.1, g e.2)) l)
  = map (fun e => (e.1, g e.2)) (insertByKey x l).
Proof.
  induction l as [|y l IH]; [reflexivity|]. simpl.
  destruct (x.1 <=? y.1); simpl; [reflexivity|]. now rewrite IH.
Qed.

Lemma sortByKey_map {V W : Type} (g : V -> W) (l : list (Z * V)) :
  sortByKey (map (fun e => (e.1, g e.2)) l) = map (fun e => (e.1, g e.2)) (sortByKey l).
Proof.
  unfold sortByKey. induction l as [|x l IH]; [reflexivity|].
  cbn [map foldr]. rewrite IH. apply insertByKey_map.
Qed.

Lemma filter_key_map {V W : Type} (g : V -> W) (f : Z -> bool) (l : list (Z * V)) :
  List.filter (fun e => f e.1) (map (fun e => (e.1, g e.2)) l)
  = map (fun e => (e.1, g e.2)) (List.filter (fun e => f e.1) l).
Proof.
  induction l as [|x l IH]; [reflexivity|]. simpl.
  destruct (f x.1); simpl; now rewrite IH.
Qed.

(** Ordering the rounds and transforming their matches commute. *)
Lemma roundEntries_map (g : list Match -> list Match) (rounds : Rounds) :
  roundEntries (map (fun e => (e.1, g e.2)) rounds)
  = map (fun e => (e.1, g e.2)) (roundEntries rounds).
Proof.
  unfold roundEntries.
  rewrite (filter_key_map g (fun k => k <? 10)). apply sortByKey_map.
Qed.

Lemma enriched_as_map (rawRounds : Rounds) :
  default [] (enrichRoundsWithInferredWinners (Some rawRounds))
  = map (fun e => (e.1, map (enrichMatch (byIdOf rawRounds)) e.2)) rawRounds.
Proof.
  cbn [enrichRoundsWithInferredWinners default from_option id].
  apply List.map_ext. now intros [r ms].
Qed.

(** Without double elimination the view is [BracketVisual] on the enriched
    rounds: filtering and sorting them beforehand changes nothing. *)
Lemma renderBracket_as_BracketVisual h isPreview canEdit bracket_type (rawRounds : Rounds) :
  bracket_type <> Some "double_elim" ->
  renderBracket h isPreview canEdit bracket_type rawRounds
  = BracketVisual (gated canEdit h) isPreview
      (default [] (enrichRoundsWithInferredWinners (Some rawRounds))).
Proof.
  intros Hbt. unfold renderBracket. rewrite bool_decide_eq_false_2 by exact Hbt.
  set (rounds := default [] _).
  change (sortByKey (List.filter (fun e => e.1 <? 10) rounds)) with (roundEntries rounds).
  unfold BracketVisual. now rewrite roundEntries_idempotent.
Qed.

(** X2 (single-elimination view).  Without double elimination,
    [renderBracket] is [BracketVisual] with the gated callbacks on the
    enriched rounds: the filter and sort of [renderSingleElimTree] are the
    ones [BracketVisual] does itself.  The columns show the round numbers
    below 10 of the payload, in ascending order. *)
Theorem renderBracket_single_elim h isPreview canEdit bracket_type (rawRounds : Rounds) :
  bracket_type <> Some "double_elim" ->
  renderBracket h isPreview canEdit bracket_type rawRounds
  = BracketVisual (gated canEdit h) isPreview
      (default [] (enrichRoundsWithInferredWinners (Some rawRounds)))
  /\ map displayed (renderBracket h isPreview canEdit bracket_type rawRounds)
     = map fst (roundEntries rawRounds)
  /\ StronglySorted Z.le
       (map displayed (renderBracket h isPreview canEdit bracket_type rawRounds)).
Proof.
  intros Hbt.
  pose proof (renderBracket_as_BracketVisual h isPreview canEdit bracket_type rawRounds Hbt)
    as Heq.
  split; [exact Heq|].
  assert (Hkeys : map displayed (renderBracket h isPreview canEdit bracket_type rawRounds)
                  = map fst (roundEntries rawRounds)).
  { rewrite Heq, BracketVisual_displayed, enriched_as_map, roundEntries_map.
    rewrite List.map_map. reflexivity. }
  split; [exact Hkeys|].
  rewrite Hkeys. apply StronglySorted_map_fst. unfold roundEntries. apply sortByKey_sorted.
Qed.

Lemma renderBracket_single_elim_witness :
  renderBracket allHandlers false true None sampleRounds
  = BracketVisual (gated true allHandlers) false
      (default [] (enrichRoundsWithInferredWinners (Some sampleRounds)))
  /\ map displayed (renderBracket allHandlers false true None sampleRounds)
     = map fst (roundEntries sampleRounds)
  /\ StronglySorted Z.le
       (map displayed (renderBracket allHandlers false true None sampleRounds)).
Proof.
  apply (renderBracket_single_elim allHandlers false true None sampleRounds).
  discriminate.
Defined.

End SingleElimination.

Section RoundGroups.
Import Js Bracket Samples.

Lemma addToRound_keys m (acc : Rounds) :
  map fst (addToRound m acc)
  = map fst acc ++ (if bool_decide (round_num m ∈ map fst acc) then [] else [round_num m]).
Proof.
  induction acc as [|[k ms] acc IH]; [reflexivity|]. simpl.
  destruct (Z.eqb_spec k (round_num m)) as [->|Hne]; simpl.
  - rewrite bool_decide_eq_true_2 by apply list_elem_of_here. now rewrite app_nil_r.
  - rewrite IH. f_equal. f_equal.
    rewrite (bool_decide_ext (round_num m ∈ k :: map fst acc) (round_num m ∈ map fst acc));
      [reflexivity|].
    rewrite elem_of_cons. split; [|auto].
    intros [?|?]; [congruence|assumption].
Qed.

Lemma addToRound_NoDup m (acc : Rounds) :
  NoDup (map fst acc) -> NoDup (map fst (addToRound m acc)).
Proof.
  intros Hnd. rewrite addToRound_keys. case_bool_decide as Hin.
  - now rewrite app_nil_r.
  - apply NoDup_app. split; [exact Hnd|]. split; [|apply NoDup_singleton].
    intros k Hk Hk'. apply list_elem_of_singleton in Hk' as ->. contradiction.
Qed.

(** With distinct keys, the entries after [addToRound m]: the entries of
    other rounds as they were, and the entry of [m]'s round with [m] at its
    end. *)
Lemma addToRound_entry m (acc : Rounds) r ms :
  NoDup (map fst acc) ->
  (r, ms) ∈ addToRound m acc ->
  (r <> round_num m /\ (r, ms) ∈ acc)
  \/ (r = round_num m
      /\ exists ms0, ms = ms0 ++ [m]
           /\ ((r, ms0) ∈ acc \/ (ms0 = [] /\ r ∉ map fst acc))).
Proof.
  induction acc as [|[k ks] acc IH]; simpl; intros Hnd Hin.
  - apply list_elem_of_singleton in Hin. injection Hin as -> ->.
    right. split; [reflexivity|]. exists []. split; [reflexivity|].
    right. split; [reflexivity|]. apply not_elem_of_nil.
  - apply NoDup_cons in Hnd as [Hk Hnd].
    destruct (Z.eqb_spec k (round_num m)) as [->|Hne];
      apply elem_of_cons in Hin as [Hin|Hin].
    + injection Hin as -> ->. right. split; [reflexivity|].
      exists ks. split; [reflexivity|]. left. apply list_elem_of_here.
    + left. split; [|now apply list_elem_of_further].
      intros ->. apply Hk. apply elem_of_map. exists (round_num m, ms). auto.
    + injection Hin as -> ->. left. split; [exact Hne|apply list_elem_of_here].
    + destruct (IH Hnd Hin) as [[Hr Hacc]|(Hr & ms0 & Hms & Hcase)].
      * left. split; [exact Hr|now apply list_elem_of_further].
      * right. split; [exact Hr|]. exists ms0. split; [exact Hms|].
        destruct Hcase as [Hacc|[-> Hnot]].
        -- left. now apply list_elem_of_further.
        -- right. split; [reflexivity|]. rewrite elem_of_cons. intros [?|?]; [congruence|auto].
Qed.

Lemma filter_all_false {A : Type} (f : A -> bool) l :
  (forall x, x ∈ l -> f x <> true) -> List.filter f l = [].
Proof.
  induction l as [|x l IH]; [reflexivity|]. intros H. simpl.
  destruct (f x) eqn:E; [exfalso; apply (H x); [apply list_elem_of_here|exact E]|].
  apply IH. intros y Hy. apply H. now apply list_elem_of_further.
Qed.

Lemma filter_round_snoc l (x : Match) r :
  List.filter (fun m => round_num m =? r) (l ++ [x])
  = List.filter (fun m => round_num m =? r) l ++ (if round_num x =? r then [x] else []).
Proof. rewrite List.filter_app. simpl. now destruct (round_num x =? r). Qed.

(** The groups of [groupByRound l]: one per round number that occurs,
    holding the matches of that round in the order of [l]. *)
Lemma groupByRound_spec (l : list Match) :
  NoDup (map fst (groupByRound l))
  /\ (forall k, k ∈ map fst (groupByRound l) <-> exists m, m ∈ l /\ round_num m = k)
  /\ (forall r ms, (r, ms) ∈ groupByRound l ->
        ms = List.filter (fun m => round_num m =? r) l).
Proof.
  induction l as [|x l (Hnd & Hkeys & Hgroups)] using rev_ind.
  - split; [constructor|]. split.
    + intros k. split; [intros H; inversion H|intros (m & H & _); inversion H].
    + intros r ms H. inversion H.
  - rewrite groupByRound_snoc. split; [now apply addToRound_NoDup|]. split.
    + intros k. rewrite addToRound_keys, elem_of_app, Hkeys. split.
      * intros [(m & Hm & Hr)|Hk].
        -- exists m. split; [apply elem_of_app; now left|exact Hr].
        -- case_bool_decide; [inversion Hk|]. apply list_elem_of_singleton in Hk as ->.
           exists x. split; [apply elem_of_app; right; apply list_elem_of_here|reflexivity].
      * intros (m & Hm & Hr). apply elem_of_app in Hm as [Hm|Hm]; [left; eauto|].
        apply list_elem_of_singleton in Hm as ->. subst k.
        case_bool_decide as Hin; [left; now apply Hkeys|right; apply list_elem_of_here].
    + intros r ms Hin. rewrite filter_round_snoc.
      apply addToRound_entry in Hin as [[Hr Hacc]|(-> & ms0 & -> & Hcase)]; [|..|exact Hnd].
      * destruct (Z.eqb_spec (round_num x) r); [congruence|].
        rewrite app_nil_r. now apply Hgroups.
      * rewrite Z.eqb_refl. f_equal. destruct Hcase as [Hacc|[-> Hnot]]; [now apply Hgroups|].
        symmetry. apply filter_all_false. intros m Hm Hr. apply Z.eqb_eq in Hr.
        apply Hnot, Hkeys. eauto.
Qed.

End RoundGroups.

Section DoubleElimColumns.
Import Js Bracket Samples.

Lemma cards_matches {A : Type} (f : Match -> A) (ms : list Match) :
  map fst (map (fun m => (m, f m)) ms) = ms.
Proof. rewrite List.map_map. simpl. apply List.map_id. Qed.

Lemma groupByRound_nonempty (l : list Match) r ms :
  (r, ms) ∈ groupByRound l -> ms <> [].
Proof.
  intros Hin. destruct (groupByRound_spec l) as (_ & Hkeys & Hgroups).
  rewrite (Hgroups r ms Hin).
  assert (Hk : r ∈ map fst (groupByRound l)) by (apply elem_of_map; exists (r, ms); auto).
  apply Hkeys in Hk as (m & Hm & Hr).
  intros Hnil.
  assert (Hf : m ∈ List.filter (fun m => round_num m =? r) l).
  { apply elem_of_filter_bool. split; [exact Hm|now apply Z.eqb_eq]. }
  rewrite Hnil in Hf. inversion Hf.
Qed.

(** X3 (round columns of double elimination).  [groupByRound] makes one
    group per round number that occurs, with distinct keys, each group
    holding the matches of its round in the order of the list and never
    empty.  In the double-elimination view every column has cards: a
    winners column those of the winners matches of its round, a losers
    column those of the losers matches of one round, the grand-finals column
    those of all grand-finals matches, in payload order. *)
Theorem double_elim_columns_hold_rounds :
  (forall l : list Match,
      NoDup (map fst (groupByRound l))
      /\ (forall k, k ∈ map fst (groupByRound l) <-> exists m, m ∈ l /\ round_num m = k)
      /\ (forall r ms, (r, ms) ∈ groupByRound l ->
            ms = List.filter (fun m => round_num m =? r) l /\ ms <> []))
  /\ (forall h isPreview canEdit (rawRounds : Rounds) col,
        let shown := allMatchesOf (default [] (enrichRoundsWithInferredWinners (Some rawRounds))) in
        col ∈ renderBracket h isPreview canEdit (Some "double_elim") rawRounds ->
        cards col <> []
        /\ match sectionLabel col with
           | None =>
               map fst (cards col)
               = List.filter (fun m => round_num m =? displayed col) (List.filter inWinners shown)
           | Some label =>
               (label = "Losers"
                /\ exists r, displayed col = displayRound (Some "Losers") r
                     /\ map fst (cards col)
                        = List.filter (fun m => round_num m =? r) (List.filter inLosers shown))
               \/ (label = "Grand Finals"
                   /\ map fst (cards col) = List.filter inGrandFinals shown)
           end).
Proof.
  split.
  - intros l. destruct (groupByRound_spec l) as (Hnd & Hkeys & Hgroups).
    split; [exact Hnd|]. split; [exact Hkeys|].
    intros r ms Hin. split; [now apply Hgroups|]. eapply groupByRound_nonempty, Hin.
  - intros h isPreview canEdit rawRounds col shown. unfold renderBracket.
    fold shown. rewrite bool_decide_eq_true_2 by reflexivity.
    rewrite !elem_of_app. intros [Hcol|[Hcol|Hcol]].
    + unfold BracketTree in Hcol. apply elem_of_map in Hcol as ([r ms] & <- & Hin). simpl.
      apply elem_of_roundEntries in Hin as [Hin _]. rewrite elem_of_sortByKey in Hin.
      rewrite cards_matches.
      destruct (groupByRound_spec (List.filter inWinners shown)) as (_ & _ & Hgroups).
      split; [|now apply Hgroups].
      intros Hnil. apply (groupByRound_nonempty _ _ _ Hin).
      now destruct ms.
    + apply elem_of_map in Hcol as ([r ms] & <- & Hin). simpl.
      rewrite elem_of_sortByKey in Hin. rewrite cards_matches.
      destruct (groupByRound_spec (List.filter inLosers shown)) as (_ & _ & Hgroups).
      split.
      * intros Hnil. apply (groupByRound_nonempty _ _ _ Hin). now destruct ms.
      * left. split; [reflexivity|]. exists r. split; [reflexivity|now apply Hgroups].
    + destruct (List.filter inGrandFinals shown) as [|g gs] eqn:Hg; [inversion Hcol|].
      simpl in Hcol. apply list_elem_of_singleton in Hcol as ->. simpl.
      split; [discriminate|]. right. split; [reflexivity|].
      f_equal. apply (cards_matches _ gs).
Qed.

End DoubleElimColumns.

Section EnrichmentShape.
Import Js Bracket Samples.

(** Whatever [enrichMatch] does, putting back the winner name and the
    inferred mark gives the match it started from. *)
Lemma enrichMatch_restores byId m :
  set_winner_name (winner_name m)
    (set_inferred_winner (inferred_winner m) (enrichMatch byId m)) = m.
Proof.
  unfold enrichMatch.
  destruct (negb _ && _); [|now destruct m].
  destruct (lookupById _ _); [|now destruct m].
  destruct (realName _); now destruct m.
Qed.

Lemma enrichMatch_id byId m : match_id (enrichMatch byId m) = match_id m.
Proof.
  unfold enrichMatch.
  repeat match goal with
         | |- context [if ?b then _ else _] => destruct b
         | |- context [match ?o with Some _ => _ | None => _ end] => destruct o
         end; reflexivity.
Qed.

Lemma advancedName_enrichMatch byId p slot :
  advancedName (enrichMatch byId p) slot = advancedName p slot.
Proof.
  unfold enrichMatch.
  repeat match goal with
         | |- context [if ?b then _ else _] => destruct b
         | |- context [match ?o with Some _ => _ | None => _ end] => destruct o
         end; reflexivity.
Qed.

Lemma realName_truthy name : realName name = true -> truthyStr name = true.
Proof. unfold realName. intros H. now apply andb_true_iff in H as [H%andb_true_iff _]. Qed.

(** A match that the enrichment changes had no winner name and a parent in
    the dictionary with a real name in the slot it feeds. *)
Lemma enrichMatch_changed byId m :
  enrichMatch byId m <> m ->
  truthyStr (winner_name m) = false
  /\ exists parent,
       lookupById byId (parent_match_id m) = Some parent
       /\ realName (advancedName parent (parent_match_slot m)) = true
       /\ enrichMatch byId m
          = set_inferred_winner true
              (set_winner_name (advancedName parent (parent_match_slot m)) m).
Proof.
  unfold enrichMatch.
  destruct (truthyStr (winner_name m)); simpl; [congruence|].
  destruct (truthyId (parent_match_id m)); simpl; [|congruence].
  destruct (lookupById byId (parent_match_id m)) as [parent|]; [|congruence].
  destruct (realName _) eqn:Hreal; [|congruence].
  intros _. split; [reflexivity|]. exists parent. auto.
Qed.

(** X4 (what the enrichment touches).  The enriched rounds have the keys of
    the given ones and, round by round, as many matches.  Putting back
    [winner_name] and [inferred_winner] turns an enriched match into the
    match it came from: ids, slots, round, section, parent and winner ids
    are never changed.  A match that did change had no winner name, now
    carries the inferred mark and a real name, and that name is what the
    slot named by [parent_match_slot] shows in a match of the same rounds
    whose id is the match's [parent_match_id]. *)
Theorem enrichment_only_adds_winner_names (rounds : Rounds) :
  let out := default [] (enrichRoundsWithInferredWinners (Some rounds)) in
  map fst out = map fst rounds
  /\ Forall2 (fun a b =>
       Forall2 (fun m m' =>
         set_winner_name (winner_name m) (set_inferred_winner (inferred_winner m) m') = m
         /\ (m' <> m ->
             truthyStr (winner_name m) = false
             /\ inferred_winner m' = true
             /\ realName (winner_name m') = true
             /\ exists parent i,
                  parent ∈ allMatchesOf rounds
                  /\ parent_match_id m = Some i
                  /\ toStr (match_id parent) = toStr i
                  /\ winner_name m' = advancedName parent (parent_match_slot m)))
         a.2 b.2)
       rounds out.
Proof.
  intros out. unfold out. rewrite enriched_as_map. split.
  - rewrite List.map_map. reflexivity.
  - apply Forall2_fmap_r, Forall_Forall2_diag, Forall_forall. intros [r ms] _. simpl.
    apply Forall2_fmap_r, Forall_Forall2_diag, Forall_forall. intros m _.
    split; [apply enrichMatch_restores|].
    intros Hne. apply enrichMatch_changed in Hne as (Hw & parent & Hlook & Hreal & Heq).
    split; [exact Hw|]. rewrite Heq. simpl. split; [reflexivity|]. split; [exact Hreal|].
    destruct (parent_match_id m) as [i|] eqn:Hi; [|discriminate].
    apply byIdOf_lookup in Hlook as [Hin Hid].
    exists parent, i. auto.
Qed.

End EnrichmentShape.

Section EnrichmentTwice.
Import Js Bracket Samples.

Lemma fromEntries_fmap {V W : Type} (f : V -> W) (es : list (string * V)) :
  fromEntries (map (fun kv => (kv.1, f kv.2)) es) = f <$> fromEntries es.
Proof.
  induction es as [|[k v] es IH] using rev_ind.
  - unfold fromEntries. simpl. now rewrite fmap_empty.
  - rewrite map_app. simpl. rewrite !fromEntries_snoc. simpl.
    now rewrite IH, fmap_insert.
Qed.

(** The dictionary of the enriched rounds holds the enriched matches under
    the same keys. *)
Lemma byIdOf_enriched (rounds : Rounds) :
  byIdOf (map (fun e => (e.1, map (enrichMatch (byIdOf rounds)) e.2)) rounds)
  = enrichMatch (byIdOf rounds) <$> byIdOf rounds.
Proof.
  set (E := enrichMatch (byIdOf rounds)).
  assert (Hall : allMatchesOf (map (fun e => (e.1, map E e.2)) rounds)
                 = map E (allMatchesOf rounds)).
  { rewrite <- allMatchesOf_map. f_equal. apply List.map_ext. now intros [r ms]. }
  unfold byIdOf. rewrite Hall, List.map_map.
  rewrite <- fromEntries_fmap, List.map_map.
  f_equal. apply List.map_ext. intros m. simpl. unfold E. now rewrite enrichMatch_id.
Qed.

Lemma enrichMatch_twice (byId : gmap string Match) m :
  enrichMatch (enrichMatch byId <$> byId) (enrichMatch byId m) = enrichMatch byId m.
Proof.
  destruct (decide (enrichMatch byId m = m)) as [Heq|Hne].
  - rewrite Heq. apply enrichMatch_unchanged.
    destruct (truthyStr (winner_name m)) eqn:Hw; [now left|right].
    destruct (truthyId (parent_match_id m)) eqn:Hp; [right|now left].
    unfold lookupById. destruct (parent_match_id m) as [i|] eqn:Hi; [|now left].
    simpl. rewrite lookup_fmap.
    destruct (byId !! toStr i) as [parent|] eqn:Hl; [right|now left].
    exists (enrichMatch byId parent). split; [reflexivity|].
    rewrite advancedName_enrichMatch.
    destruct (realName (advancedName parent (parent_match_slot m))) eqn:Hreal; [|reflexivity].
    exfalso. unfold enrichMatch, lookupById in Heq. rewrite Hw, Hi, Hp in Heq.
    simpl in Heq. rewrite Hl, Hreal in Heq.
    apply (f_equal winner_name) in Heq. simpl in Heq.
    apply realName_truthy in Hreal. congruence.
  - apply enrichMatch_changed in Hne as (_ & parent & _ & Hreal & ->).
    apply enrichMatch_unchanged. left. simpl. now apply realName_truthy.
Qed.

(** X5 (enriching twice).  Enriching rounds that are already enriched gives
    them back unchanged. *)
Theorem enrichRoundsWithInferredWinners_idempotent (rounds : option Rounds) :
  enrichRoundsWithInferredWinners (enrichRoundsWithInferredWinners rounds)
  = enrichRoundsWithInferredWinners rounds.
Proof.
  destruct rounds as [rounds|]; [|reflexivity].
  assert (Hout : enrichRoundsWithInferredWinners (Some rounds)
                 = Some (map (fun e => (e.1, map (enrichMatch (byIdOf rounds)) e.2)) rounds)).
  { simpl. f_equal. apply List.map_ext. now intros [r ms]. }
  rewrite Hout. simpl. f_equal. rewrite byIdOf_enriched, List.map_map.
  apply List.map_ext. intros [r ms]. simpl. f_equal.
  rewrite List.map_map. apply List.map_ext. intros m. apply enrichMatch_twice.
Qed.

End EnrichmentTwice.


Section ReadOnlyBracket.
Import Js Bracket Samples ViewSamples.

Lemma renderMatchBlock_gated_off h p last m r :
  renderMatchBlock (gated false h) p last m r = [].
Proof.
  unfold renderMatchBlock, BracketBox. simpl. rewrite !orb_true_r. simpl.
  destruct (truthyStr (winner_name m)); [|reflexivity].
  destruct (_ && _); rewrite !andb_false_r; reflexivity.
Qed.

Lemma renderRound_readonly h p r ms label m acts :
  (m, acts) ∈ cards (renderRound h p false r ms label) -> acts = [].
Proof.
  unfold renderRound. simpl. intros H. apply elem_of_map in H as (m' & [= -> <-] & _).
  unfold MatchSlot. simpl. rewrite !andb_false_r. simpl.
  destruct p; simpl; destruct (truthyStr (winner_name m)); try reflexivity;
    destruct (bool_decide _); rewrite ?andb_false_r; reflexivity.
Qed.

Lemma renderMatch_no_handlers p m : renderMatch noHandlers p m = [].
Proof.
  unfold renderMatch. simpl. rewrite !andb_false_r. simpl.
  now destruct (truthyStr (winner_name m)).
Qed.

(** X6 (a viewer's bracket).  With [canEdit] false the single-elimination
    view offers no click on any card, whatever callbacks [BracketView]
    received, and in the double-elimination view the losers and grand-finals
    columns offer none.  A view without callbacks and without [canEdit], as
    the preview is rendered, offers none in either layout. *)
Theorem viewer_gets_no_bracket_actions :
  (forall h isPreview bracket_type (rawRounds : Rounds) col m acts,
      bracket_type <> Some "double_elim" ->
      col ∈ renderBracket h isPreview false bracket_type rawRounds ->
      (m, acts) ∈ cards col -> acts = [])
  /\ (forall h isPreview (rawRounds : Rounds) col m acts,
        col ∈ renderBracket h isPreview false (Some "double_elim") rawRounds ->
        is_Some (sectionLabel col) ->
        (m, acts) ∈ cards col -> acts = [])
  /\ (forall isPreview bracket_type (rawRounds : Rounds) col m acts,
        col ∈ renderBracket noHandlers isPreview false bracket_type rawRounds ->
        (m, acts) ∈ cards col -> acts = []).
Proof.
  assert (Hsingle : forall h isPreview bracket_type (rawRounds : Rounds) col m acts,
      bracket_type <> Some "double_elim" ->
      col ∈ renderBracket h isPreview false bracket_type rawRounds ->
      (m, acts) ∈ cards col -> acts = []).
  { intros h isPreview bt rawRounds col m acts Hbt Hcol Hcard.
    rewrite (renderBracket_as_BracketVisual h isPreview false bt rawRounds Hbt) in Hcol. unfold BracketVisual in Hcol.
    apply elem_of_map in Hcol as ([r ms] & <- & _). simpl in Hcard.
    apply elem_of_map in Hcard as (m' & [= -> <-] & _).
    apply renderMatchBlock_gated_off. }
  assert (Hdouble : forall h isPreview (rawRounds : Rounds) col m acts,
        col ∈ renderBracket h isPreview false (Some "double_elim") rawRounds ->
        (is_Some (sectionLabel col) \/ h = noHandlers) ->
        (m, acts) ∈ cards col -> acts = []).
  { intros h isPreview rawRounds col m acts Hcol Hlabel Hcard.
    unfold renderBracket in Hcol. rewrite bool_decide_eq_true_2 in Hcol by reflexivity.
    rewrite !elem_of_app in Hcol. destruct Hcol as [Hcol|[Hcol|Hcol]].
    - unfold BracketTree in Hcol. apply elem_of_map in Hcol as ([r ms] & <- & _).
      simpl in *. destruct Hlabel as [[? [=]]| ->].
      apply elem_of_map in Hcard as (m' & [= -> <-] & _). apply renderMatch_no_handlers.
    - apply elem_of_map in Hcol as ([r ms] & <- & _).
      eapply renderRound_readonly, Hcard.
    - destruct (0 <? _)%nat; [|inversion Hcol].
      apply list_elem_of_singleton in Hcol as ->.
      eapply renderRound_readonly, Hcard. }
  split; [exact Hsingle|]. split.
  - intros h isPreview rawRounds col m acts Hcol Hlabel. eapply Hdouble; eauto.
  - intros isPreview bt rawRounds col m acts Hcol Hcard.
    destruct (decide (bt = Some "double_elim")) as [->|Hbt].
    + eapply Hdouble; eauto.
    + eapply Hsingle; eauto.
Qed.

End ReadOnlyBracket.

Section CardActions.
Import Js Bracket Samples ViewSamples.

(** What a card of [BracketVisual] offers, click by click. *)
Lemma renderMatchBlock_clicks h p last m r a :
  a ∈ renderMatchBlock h p last m r ->
  (exists s, a = SetWinner (match_id m) s
             /\ bothFilled m = true /\ truthyStr (winner_name m) = false)
  \/ (exists s, a = AdvanceOpponent (match_id m) s
                /\ bothFilled m = false)
  \/ ((a = SwapWinner (match_id m) \/ a = ClearWinner (match_id m))
      /\ bothFilled m = true /\ truthyStr (winner_name m) = true).
Proof.
  unfold renderMatchBlock. rewrite !elem_of_app. intros [H|[H|H]].
  - apply BracketBox_clicks in H as [(-> & Hcs & _)|(-> & _ & Hho)].
    + left. exists 1. apply andb_true_iff in Hcs as [Hb Hw].
      apply negb_true_iff in Hw. auto.
    + right. left. eexists. split; [reflexivity|].
      unfold bothFilled. rewrite Hho. apply andb_false_r.
  - apply BracketBox_clicks in H as [(-> & Hcs & _)|(-> & _ & Hho)].
    + left. exists 2. apply andb_true_iff in Hcs as [Hb Hw].
      apply negb_true_iff in Hw. auto.
    + right. left. eexists. split; [reflexivity|].
      unfold bothFilled. now rewrite Hho.
  - right. right. destruct (truthyStr (winner_name m)); [|inversion H].
    destruct (bothFilled m).
    + split; [|split; reflexivity].
      repeat match goal with
             | H : _ ∈ _ ++ _ |- _ => apply elem_of_app in H as [H|H]
             | H : _ ∈ (if ?b then _ else _) |- _ => destruct b
             | H : _ ∈ [] |- _ => inversion H
             | H : _ ∈ _ :: _ |- _ => apply elem_of_cons in H as [H|H]
             end; auto.
    + exfalso. rewrite !andb_false_r in H. simpl in H.
      destruct (bool_decide _); inversion H.
Qed.

(** What a card of [BracketTree] or of a losers or grand-finals column
    offers: Advance, Swap, Undo. *)
Lemma renderMatch_clicks h p m a :
  a ∈ renderMatch h p m ->
  (exists s, a = AdvanceOpponent (match_id m) s)
  \/ a = SwapWinner (match_id m) \/ a = ClearWinner (match_id m).
Proof.
  unfold renderMatch. rewrite elem_of_app. intros [H|H].
  - destruct (_ && _); [|inversion H].
    apply elem_of_app in H as [H|H]; apply MatchSlot_clicks in H as [-> _]; eauto.
  - right.
    repeat match goal with
           | H : _ ∈ _ ++ _ |- _ => apply elem_of_app in H as [H|H]
           | H : _ ∈ (if ?b then _ else _) |- _ => destruct b
           | H : _ ∈ [] |- _ => inversion H
           | H : _ ∈ _ :: _ |- _ => apply elem_of_cons in H as [H|H]
           end; auto.
Qed.

Lemma renderRound_clicks h p canEdit r ms label m acts a :
  (m, acts) ∈ cards (renderRound h p canEdit r ms label) -> a ∈ acts ->
  (exists s, a = AdvanceOpponent (match_id m) s)
  \/ a = SwapWinner (match_id m) \/ a = ClearWinner (match_id m).
Proof.
  unfold renderRound. simpl. intros Hcard H.
  apply elem_of_map in Hcard as (m' & [= -> <-] & _).
  apply elem_of_app in H as [H|H].
  - destruct p; [inversion H|].
    apply elem_of_app in H as [H|H]; apply MatchSlot_clicks in H as [-> _]; eauto.
  - right.
    repeat match goal with
           | H : _ ∈ _ ++ _ |- _ => apply elem_of_app in H as [H|H]
           | H : _ ∈ (if ?b then _ else _) |- _ => destruct b
           | H : _ ∈ [] |- _ => inversion H
           | H : _ ∈ _ :: _ |- _ => apply elem_of_cons in H as [H|H]
           end; auto.
Qed.

(** In [BracketTree] and in the losers and grand-finals columns an Advance
    button sits on a slot whose opponent slot holds an entity. *)
Lemma MatchSlot_advance label name id slot adv ho i s :
  AdvanceOpponent i s ∈ MatchSlot label name id slot adv ho -> i = id /\ s = slot /\ ho = true.
Proof. intros H. apply MatchSlot_clicks in H as [[= -> ->] ->]. auto. Qed.

(** X8 (one kind of click per card).  In the single-elimination view every
    click of a card is about the card's match, and a card offers clicks of
    one kind only: set-winner clicks when both slots hold an entity and no
    winner name is shown, advance clicks when a slot holds no entity, Swap
    and Undo when both slots hold an entity and a winner name is shown. *)
Theorem single_elim_card_offers_one_kind
    h isPreview canEdit bracket_type (rawRounds : Rounds) col m acts :
  bracket_type <> Some "double_elim" ->
  col ∈ renderBracket h isPreview canEdit bracket_type rawRounds ->
  (m, acts) ∈ cards col ->
  (forall a, a ∈ acts -> matchOf a = match_id m)
  /\ ((bothFilled m = true /\ truthyStr (winner_name m) = false
       /\ forall a, a ∈ acts -> exists s, a = SetWinner (match_id m) s)
      \/ (bothFilled m = false
          /\ forall a, a ∈ acts -> exists s, a = AdvanceOpponent (match_id m) s)
      \/ (bothFilled m = true /\ truthyStr (winner_name m) = true
          /\ forall a, a ∈ acts ->
                a = SwapWinner (match_id m) \/ a = ClearWinner (match_id m))).
Proof.
  intros Hbt Hcol Hcard.
  rewrite (renderBracket_as_BracketVisual h isPreview canEdit bracket_type rawRounds Hbt)
    in Hcol.
  unfold BracketVisual in Hcol.
  apply elem_of_map in Hcol as ([r ms] & <- & _). simpl in Hcard.
  apply elem_of_map in Hcard as (m' & [= -> <-] & _).
  set (acts := renderMatchBlock _ _ _ _ _).
  assert (Hall : forall a, a ∈ acts ->
            (exists s, a = SetWinner (match_id m) s
                       /\ bothFilled m = true /\ truthyStr (winner_name m) = false)
            \/ (exists s, a = AdvanceOpponent (match_id m) s /\ bothFilled m = false)
            \/ ((a = SwapWinner (match_id m) \/ a = ClearWinner (match_id m))
                /\ bothFilled m = true /\ truthyStr (winner_name m) = true)).
  { intros a. apply renderMatchBlock_clicks. }
  split.
  - intros a Ha. destruct (Hall a Ha) as [(s & -> & _)|[(s & -> & _)|([-> | ->] & _)]];
      reflexivity.
  - destruct (bothFilled m) eqn:Hb; [destruct (truthyStr (winner_name m)) eqn:Hw|].
    + right. right. split; [reflexivity|]. split; [reflexivity|].
      intros a Ha.
      destruct (Hall a Ha) as [(s & _ & _ & ?)|[(s & _ & ?)|(? & _)]];
        [discriminate..|assumption].
    + left. split; [reflexivity|]. split; [reflexivity|].
      intros a Ha.
      destruct (Hall a Ha) as [(s & ? & _)|[(s & _ & ?)|(_ & _ & ?)]];
        [eauto|discriminate..].
    + right. left. split; [reflexivity|].
      intros a Ha.
      destruct (Hall a Ha) as [(s & _ & ? & _)|[(s & ? & _)|(_ & ? & _)]];
        [discriminate|eauto|discriminate].
Qed.

Lemma single_elim_card_offers_one_kind_witness :
  (forall a, a ∈ renderMatchBlock (gated true allHandlers) false (Some 2) semi2 1 ->
             matchOf a = match_id semi2)
  /\ ((bothFilled semi2 = true /\ truthyStr (winner_name semi2) = false
       /\ forall a, a ∈ renderMatchBlock (gated true allHandlers) false (Some 2) semi2 1 ->
             exists s, a = SetWinner (match_id semi2) s)
      \/ (bothFilled semi2 = false
          /\ forall a, a ∈ renderMatchBlock (gated true allHandlers) false (Some 2) semi2 1 ->
                exists s, a = AdvanceOpponent (match_id semi2) s)
      \/ (bothFilled semi2 = true /\ truthyStr (winner_name semi2) = true
          /\ forall a, a ∈ renderMatchBlock (gated true allHandlers) false (Some 2) semi2 1 ->
                a = SwapWinner (match_id semi2) \/ a = ClearWinner (match_id semi2))).
Proof.
  eapply (single_elim_card_offers_one_kind allHandlers false true None sampleRounds).
  - discriminate.
  - vm_compute. apply list_elem_of_here.
  - vm_compute. apply list_elem_of_further, list_elem_of_here.
Defined.

(** X9 (clicks of the double-elimination view).  Every click of a card is
    about the card's match; none is a set-winner click; and an Advance
    button for a slot is offered only when the opposite slot holds an
    entity. *)
Theorem double_elim_offers_no_setWinner
    h isPreview canEdit (rawRounds : Rounds) col m acts a :
  col ∈ renderBracket h isPreview canEdit (Some "double_elim") rawRounds ->
  (m, acts) ∈ cards col -> a ∈ acts ->
  matchOf a = match_id m
  /\ (forall i s, a <> SetWinner i s)
  /\ (forall i s, a = AdvanceOpponent i s ->
        (s = 1 /\ filled2 m = true) \/ (s = 2 /\ filled1 m = true)).
Proof.
  intros Hcol Hcard Ha.
  unfold renderBracket in Hcol. rewrite bool_decide_eq_true_2 in Hcol by reflexivity.
  assert (Hkind : (exists s, a = AdvanceOpponent (match_id m) s)
                  \/ a = SwapWinner (match_id m) \/ a = ClearWinner (match_id m)).
  { rewrite !elem_of_app in Hcol. destruct Hcol as [Hcol|[Hcol|Hcol]].
    - unfold BracketTree in Hcol. apply elem_of_map in Hcol as ([r ms] & <- & _).
      simpl in Hcard. apply elem_of_map in Hcard as (m' & [= -> <-] & _).
      eapply renderMatch_clicks, Ha.
    - apply elem_of_map in Hcol as ([r ms] & <- & _).
      eapply renderRound_clicks; eauto.
    - destruct (0 <? _)%nat; [|inversion Hcol].
      apply list_elem_of_singleton in Hcol as ->.
      eapply renderRound_clicks; eauto. }
  split; [|split].
  - destruct Hkind as [(s & ->)|[-> | ->]]; reflexivity.
  - intros i s ->. destruct Hkind as [(s' & ?)|[?|?]]; discriminate.
  - intros i s ->.
    assert (Hslot : forall label1 label2 n1 n2 adv,
               AdvanceOpponent i s ∈ MatchSlot label1 n1 (match_id m) 1 adv (filled2 m)
                                    ++ MatchSlot label2 n2 (match_id m) 2 adv (filled1 m) ->
               (s = 1 /\ filled2 m = true) \/ (s = 2 /\ filled1 m = true)).
    { intros label1 label2 n1 n2 adv H.
      apply elem_of_app in H as [H|H]; apply MatchSlot_advance in H as (_ & -> & ->); auto. }
    assert (Hnot : forall l : list action,
               (forall b, b ∈ l -> correction b = true) -> AdvanceOpponent i s ∉ l).
    { intros l Hl Hin. specialize (Hl _ Hin). discriminate. }
    rewrite !elem_of_app in Hcol. destruct Hcol as [Hcol|[Hcol|Hcol]].
    + unfold BracketTree in Hcol. apply elem_of_map in Hcol as ([r ms] & <- & _).
      simpl in Hcard. apply elem_of_map in Hcard as (m' & [= -> <-] & _).
      unfold renderMatch in Ha. apply elem_of_app in Ha as [Ha|Ha].
      * destruct (_ && _); [|inversion Ha]. eapply Hslot, Ha.
      * exfalso. revert Ha. apply Hnot. intros b Hb.
        repeat match goal with
               | H : _ ∈ _ ++ _ |- _ => apply elem_of_app in H as [H|H]
               | H : _ ∈ (if ?b then _ else _) |- _ => destruct b
               | H : _ ∈ [] |- _ => inversion H
               | H : _ ∈ _ :: _ |- _ => apply elem_of_cons in H as [H|H]
               end; subst; reflexivity.
    + apply elem_of_map in Hcol as ([r ms] & <- & _).
      unfold renderRound in Hcard. simpl in Hcard.
      apply elem_of_map in Hcard as (m' & [= -> <-] & _).
      apply elem_of_app in Ha as [Ha|Ha].
      * destruct isPreview; [inversion Ha|]. eapply Hslot, Ha.
      * exfalso. revert Ha. apply Hnot. intros b Hb.
        repeat match goal with
               | H : _ ∈ _ ++ _ |- _ => apply elem_of_app in H as [H|H]
               | H : _ ∈ (if ?b then _ else _) |- _ => destruct b
               | H : _ ∈ [] |- _ => inversion H
               | H : _ ∈ _ :: _ |- _ => apply elem_of_cons in H as [H|H]
               end; subst; reflexivity.
    + destruct (0 <? _)%nat; [|inversion Hcol].
      apply list_elem_of_singleton in Hcol as ->.
      unfold renderRound in Hcard. simpl in Hcard.
      apply elem_of_map in Hcard as (m' & [= -> <-] & _).
      apply elem_of_app in Ha as [Ha|Ha].
      * destruct isPreview; [inversion Ha|]. eapply Hslot, Ha.
      * exfalso. revert Ha. apply Hnot. intros b Hb.
        repeat match goal with
               | H : _ ∈ _ ++ _ |- _ => apply elem_of_app in H as [H|H]
               | H : _ ∈ (if ?b then _ else _) |- _ => destruct b
               | H : _ ∈ [] |- _ => inversion H
               | H : _ ∈ _ :: _ |- _ => apply elem_of_cons in H as [H|H]
               end; subst; reflexivity.
Qed.

End CardActions.

Section WinnersTree.
Import Js Bracket Samples ViewSamples.

Lemma double_elim_offers_no_setWinner_witness :
  matchOf (SwapWinner (IdNum 1)) = match_id upper
  /\ (forall i s, SwapWinner (IdNum 1) <> SetWinner i s)
  /\ (forall i s, SwapWinner (IdNum 1) = AdvanceOpponent i s ->
        (s = 1 /\ filled2 upper = true) \/ (s = 2 /\ filled1 upper = true)).
Proof.
  eapply (double_elim_offers_no_setWinner allHandlers false false doubleRounds _ upper).
  - vm_compute. apply list_elem_of_here.
  - vm_compute. apply list_elem_of_here.
  - vm_compute. apply list_elem_of_further, list_elem_of_further, list_elem_of_here.
Defined.

(** X7 (the winners tree is not gated).  In the double-elimination view a
    winners match of a round below 10 with a recorded winner and an entity
    in both slots is shown in a winners column, and its card offers Swap
    whenever [BracketView] received [onSwapWinner], and Undo whenever it
    received [onClearWinner], whatever [canEdit] and [isPreview] are:
    [BracketTree] is handed the callbacks themselves. *)
Theorem winners_tree_ignores_canEdit
    h isPreview canEdit (rawRounds : Rounds) m :
  m ∈ allMatchesOf rawRounds ->
  inWinners m = true -> round_num m < 10 ->
  truthyStr (winner_name m) = true -> inferred_winner m = false ->
  filled1 m = true -> filled2 m = true ->
  exists col acts,
    col ∈ renderBracket h isPreview canEdit (Some "double_elim") rawRounds
    /\ sectionLabel col = None
    /\ (m, acts) ∈ cards col
    /\ (onSwapWinner h = true -> SwapWinner (match_id m) ∈ acts)
    /\ (onClearWinner h = true -> ClearWinner (match_id m) ∈ acts).
Proof.
  intros Hin Hsec Hround Hw Hinf H1 H2.
  assert (Hshown : m ∈ List.filter inWinners
                     (allMatchesOf (default [] (enrichRoundsWithInferredWinners (Some rawRounds))))).
  { apply elem_of_filter_bool. split; [|exact Hsec].
    rewrite enriched_as_map.
    replace (map (fun e => (e.1, map (enrichMatch (byIdOf rawRounds)) e.2)) rawRounds)
      with (map (fun '(r, ms) => (r, map (enrichMatch (byIdOf rawRounds)) ms)) rawRounds)
      by (apply List.map_ext; now intros [r ms]).
    rewrite allMatchesOf_map. apply elem_of_map. exists m. split; [|exact Hin].
    apply enrichMatch_unchanged. now left. }
  apply groupByRound_complete in Hshown as (ms & Hgroup & Hm).
  exists {| sectionLabel := None; displayed := round_num m;
            cards := map (fun x => (x, renderMatch h isPreview x)) ms |}, (renderMatch h isPreview m).
  split; [|split; [reflexivity|split; [|split]]].
  - unfold renderBracket. rewrite bool_decide_eq_true_2 by reflexivity.
    apply elem_of_app. left. unfold BracketTree. apply elem_of_map.
    exists (round_num m, ms). split; [reflexivity|].
    apply elem_of_roundEntries. split; [|exact Hround].
    rewrite elem_of_sortByKey. exact Hgroup.
  - simpl. apply elem_of_map. exists m. auto.
  - intros Hs. unfold renderMatch. apply elem_of_app. right.
    rewrite Hw, Hinf, Hs, H1, H2. simpl. apply list_elem_of_here.
  - intros Hc. unfold renderMatch. apply elem_of_app. right.
    rewrite Hw, Hinf, Hc, H1, H2. simpl. apply elem_of_app. right. apply list_elem_of_here.
Qed.

Lemma winners_tree_ignores_canEdit_witness :
  exists col acts,
    col ∈ renderBracket allHandlers false false (Some "double_elim") doubleRounds
    /\ sectionLabel col = None
    /\ (upper, acts) ∈ cards col
    /\ (onSwapWinner allHandlers = true -> SwapWinner (match_id upper) ∈ acts)
    /\ (onClearWinner allHandlers = true -> ClearWinner (match_id upper) ∈ acts).
Proof.
  apply (winners_tree_ignores_canEdit allHandlers false false doubleRounds upper).
  - vm_compute. apply list_elem_of_here.
  - reflexivity.
  - reflexivity.
  - reflexivity.
  - reflexivity.
  - reflexivity.
  - reflexivity.
Defined.

End WinnersTree.

Section TeamDrags.
Import Js Roster Teams TeamEdits Samples.

Variable format : option string.
Variables participants standby : list Entrant.

(** [_sameId] compares the string forms. *)
Lemma _sameId_spec a b : _sameId a b = bool_decide (toStr a = toStr b).
Proof.
  unfold _sameId, strictEq. case_bool_decide as Heq; [|reflexivity].
  subst. simpl. symmetry. now apply bool_decide_eq_true_2.
Qed.

Lemma _sameId_true a b : _sameId a b = true <-> toStr a = toStr b.
Proof. rewrite _sameId_spec. apply bool_decide_eq_true. Qed.


Lemma hasMember_true x t :
  hasMember x t = true <-> exists m, In m (members t) /\ toStr (member_id m) = toStr x.
Proof.
  unfold hasMember. rewrite List.existsb_exists.
  split; intros (m & Hm & Hs); exists m; (split; [exact Hm|]); now apply _sameId_true.
Qed.

Lemma hasMember_false x t :
  hasMember x t = false <-> forall m, In m (members t) -> _sameId (member_id m) x = false.
Proof.
  unfold hasMember. split.
  - intros H m Hm. destruct (_sameId (member_id m) x) eqn:E; [|reflexivity].
    assert (existsb (fun m => _sameId (member_id m) x) (members t) = true)
      by (apply List.existsb_exists; eauto). congruence.
  - intros H. destruct (existsb _ _) eqn:E; [|reflexivity].
    apply List.existsb_exists in E as (m & Hm & Hs). rewrite (H m Hm) in Hs. discriminate.
Qed.


Lemma hasMember_filtered x t :
  hasMember x (withMembers t (List.filter (fun m => negb (_sameId (member_id m) x)) (members t)))
  = false.
Proof.
  apply hasMember_false. simpl. intros m Hm. apply List.filter_In in Hm as [_ Hm].
  now apply negb_true_iff in Hm.
Qed.

Lemma withMembers_same t : withMembers t (members t) = t.
Proof. now destruct t. Qed.

Lemma filter_none_member x t :
  hasMember x t = false ->
  List.filter (fun m => negb (_sameId (member_id m) x)) (members t) = members t.
Proof.
  intros H. apply filter_all. intros m Hm. apply list_elem_of_In in Hm.
  rewrite hasMember_false in H. now rewrite (H m Hm).
Qed.

(** A drop on the pool: the outcome of [handleDragEnd]. *)
Lemma handleDragEnd_pool teams activeId :
  startsWith activeId "player-" = true ->
  handleDragEnd format participants standby teams activeId (Some "unassigned")
  = Some (List.filter
            (fun t => (0 <? length (members t))%nat || truthyId (Some (team_id t)))
            (map (fun t =>
                    {| team_id := team_id t; team_name := team_name t;
                       members := List.filter
                                    (fun m => negb (_sameId (member_id m)
                                                      (IdStr (removeFirst "player-" activeId))))
                                    (members t) |})
                 teams)).
Proof. intros H. unfold handleDragEnd. now rewrite H. Qed.

(** X10 (dropping a player on the pool).  When a drag ends on 'unassigned',
    no team handed to [onUpdateTeams] holds the dragged id any more, and
    every person of the lists with that id is in the list of unassigned
    people computed from those teams.  Each team handed on is a team of the
    list under its id and name, with its other members in their order; a
    team is left out only if it ends up without members and its id is
    falsy. *)
Theorem drop_on_pool_unassigns teams activeId newTeams :
  handleDragEnd format participants standby teams activeId (Some "unassigned") = Some newTeams ->
  let entryId := IdStr (removeFirst "player-" activeId) in
  (forall t, In t newTeams -> hasMember entryId t = false)
  /\ (forall p, In p (allPeople participants standby) ->
        _sameId (entry_id (person p)) entryId = true ->
        In p (unassigned participants standby newTeams))
  /\ (forall t, In t newTeams ->
        exists t0, In t0 teams
          /\ team_id t = team_id t0 /\ team_name t = team_name t0
          /\ members t = List.filter (fun m => negb (_sameId (member_id m) entryId)) (members t0))
  /\ (forall t0, In t0 teams ->
        truthyId (Some (team_id t0)) = true
        \/ (exists m, In m (members t0) /\ _sameId (member_id m) entryId = false) ->
        exists t, In t newTeams /\ team_id t = team_id t0 /\ team_name t = team_name t0).
Proof.
  intros Hdrag entryId.
  assert (Hstart : startsWith activeId "player-" = true).
  { unfold handleDragEnd in Hdrag. destruct (startsWith activeId "player-"); [reflexivity|].
    discriminate. }
  rewrite (handleDragEnd_pool _ _ Hstart) in Hdrag. injection Hdrag as <-. fold entryId.
  assert (Hfrom : forall t,
            In t (List.filter
                    (fun t => (0 <? length (members t))%nat || truthyId (Some (team_id t)))
                    (map (fun t =>
                       {| team_id := team_id t; team_name := team_name t;
                          members := List.filter
                                       (fun m => negb (_sameId (member_id m) entryId))
                                       (members t) |}) teams)) ->
            exists t0, In t0 teams
              /\ team_id t = team_id t0 /\ team_name t = team_name t0
              /\ members t = List.filter (fun m => negb (_sameId (member_id m) entryId))
                                         (members t0)).
  { intros t Ht. apply List.filter_In in Ht as [Ht _].
    apply List.in_map_iff in Ht as (t0 & <- & Ht0). exists t0. auto. }
  assert (Hgone : forall t,
            In t (List.filter
                    (fun t => (0 <? length (members t))%nat || truthyId (Some (team_id t)))
                    (map (fun t =>
                       {| team_id := team_id t; team_name := team_name t;
                          members := List.filter
                                       (fun m => negb (_sameId (member_id m) entryId))
                                       (members t) |}) teams)) ->
            hasMember entryId t = false).
  { intros t Ht. destruct (Hfrom t Ht) as (t0 & _ & _ & _ & Hms).
    apply hasMember_false. rewrite Hms. intros m Hm.
    apply List.filter_In in Hm as [_ Hm]. now apply negb_true_iff in Hm. }
  split; [exact Hgone|]. split; [|split; [exact Hfrom|]].
  - intros p Hp Hsame. unfold unassigned. apply List.filter_In. split; [exact Hp|].
    apply negb_true_iff. destruct (existsb _ _) eqn:E; [|reflexivity]. exfalso.
    apply List.existsb_exists in E as (i & Hi & Heq).
    unfold strictEq in Heq. apply bool_decide_eq_true in Heq. subst i.
    unfold assignedIds in Hi. apply List.in_flat_map in Hi as (t & Ht & Hi).
    apply List.in_map_iff in Hi as (m & Hid & Hm).
    specialize (Hgone t Ht). rewrite hasMember_false in Hgone.
    specialize (Hgone m Hm). rewrite Hid, Hsame in Hgone. discriminate.
  - intros t0 Ht0 Hkeep.
    exists {| team_id := team_id t0; team_name := team_name t0;
              members := List.filter (fun m => negb (_sameId (member_id m) entryId))
                                     (members t0) |}.
    split; [|split; reflexivity].
    apply List.filter_In. split.
    + apply List.in_map_iff. exists t0. auto.
    + simpl. apply orb_true_iff. destruct Hkeep as [Hid|(m & Hm & Hs)]; [now right|left].
      apply Nat.ltb_lt.
      assert (Hin : In m (List.filter (fun m => negb (_sameId (member_id m) entryId))
                                      (members t0))).
      { apply List.filter_In. split; [exact Hm|]. now rewrite Hs. }
      destruct (List.filter _ (members t0)); [inversion Hin|simpl; lia].
Qed.

(** The first team holding a person is the only one, when the person is in
    at most one team. *)
Lemma current_team_is_the_one x (teams : list Team) t :
  inOneTeam x teams -> In t teams -> hasMember x t = true ->
  List.find (hasMember x) teams = Some t.
Proof.
  intros Hone Ht Hx.
  destruct (List.find (hasMember x) teams) as [c|] eqn:Hfind.
  - apply List.find_some in Hfind as [Hc Hcx]. f_equal. now apply Hone.
  - eapply List.find_none in Hfind; [|exact Ht]. congruence.
Qed.

Lemma isTeam_refl t : isTeam (Some t) t = true.
Proof. simpl. now apply bool_decide_eq_true_2. Qed.

Lemma exchange_id entryId targetId who targetPerson (ms : list Member) :
  (forall m, In m ms -> _sameId (member_id m) entryId = false
                        /\ _sameId (member_id m) targetId = false) ->
  map (exchange entryId targetId who targetPerson) ms = ms.
Proof.
  intros H. rewrite <- (List.map_id ms) at 2. apply List.map_ext_in.
  intros m Hm. unfold exchange. destruct (H m Hm) as [-> ->]. reflexivity.
Qed.

(** X11 (dropping a player on a player).  When each of the two is a member
    of at most one team, the teams handed to [onUpdateTeams] are the teams
    of the list with the two exchanged, member by member: the dragged one is
    replaced by the one dropped on and the other way round.  Ids, names and
    sizes of the teams are as before. *)
Theorem drop_on_player_exchanges teams activeId overId newTeams :
  let entryId := IdStr (removeFirst "player-" activeId) in
  let targetId := IdStr (removeFirst "player-" overId) in
  startsWith overId "player-" = true ->
  inOneTeam entryId teams -> inOneTeam targetId teams ->
  handleDragEnd format participants standby teams activeId (Some overId) = Some newTeams ->
  exists who targetPerson,
    List.find (fun p => _sameId (entry_id (person p)) entryId) (allPeople participants standby)
    = Some who
    /\ List.find (fun p => _sameId (entry_id (person p)) targetId) (allPeople participants standby)
       = Some targetPerson
    /\ newTeams
       = map (fun t => withMembers t (map (exchange entryId targetId who targetPerson) (members t)))
             teams
    /\ map team_id newTeams = map team_id teams
    /\ map team_name newTeams = map team_name teams
    /\ map (fun t => length (members t)) newTeams = map (fun t => length (members t)) teams.
Proof.
  intros entryId targetId Hover HoneE HoneT. unfold handleDragEnd.
  destruct (startsWith activeId "player-"); simpl; [|discriminate].
  fold entryId.
  assert (Hpool : bool_decide (overId = "unassigned") = false).
  { apply bool_decide_eq_false. intros ->. discriminate. }
  rewrite Hpool, Hover. fold targetId.
  destruct (_sameId targetId entryId); [discriminate|].
  destruct (List.find _ (allPeople participants standby)) as [who|]; [|discriminate].
  destruct (List.find _ (allPeople participants standby)) as [targetPerson|]; [|discriminate].
  intros [= Hnew]. exists who, targetPerson. split; [reflexivity|]. split; [reflexivity|].
  assert (Heq : newTeams
                = map (fun t => withMembers t
                         (map (exchange entryId targetId who targetPerson) (members t))) teams).
  { rewrite <- Hnew. apply List.map_ext_in. intros t Ht. cbv zeta.
    assert (HnoE : isTeam (List.find (hasMember entryId) teams) t = false ->
                   forall m, In m (members t) -> _sameId (member_id m) entryId = false).
    { intros Hc. apply hasMember_false. destruct (hasMember entryId t) eqn:E; [|reflexivity].
      rewrite (current_team_is_the_one _ _ _ HoneE Ht E), isTeam_refl in Hc. discriminate. }
    assert (HnoT : isTeam (List.find (hasMember targetId) teams) t = false ->
                   forall m, In m (members t) -> _sameId (member_id m) targetId = false).
    { intros Hc. apply hasMember_false. destruct (hasMember targetId t) eqn:E; [|reflexivity].
      rewrite (current_team_is_the_one _ _ _ HoneT Ht E), isTeam_refl in Hc. discriminate. }
    destruct (isTeam (List.find (hasMember entryId) teams) t) eqn:Hc;
      destruct (isTeam (List.find (hasMember targetId) teams) t) eqn:Htg; simpl.
    - reflexivity.
    - f_equal. apply List.map_ext_in. intros m Hm. unfold exchange.
      rewrite (HnoT eq_refl m Hm). reflexivity.
    - f_equal. apply List.map_ext_in. intros m Hm. unfold exchange.
      rewrite (HnoE eq_refl m Hm). reflexivity.
    - rewrite exchange_id; [now rewrite withMembers_same|].
      intros m Hm. split; [now apply HnoE|now apply HnoT]. }
  split; [exact Heq|]. rewrite Heq, !List.map_map. simpl.
  split; [reflexivity|]. split; [reflexivity|].
  apply List.map_ext. intros t. now rewrite List.length_map.
Qed.

(** A drop on a team card: the outcome of [handleDragEnd] when the team is
    found, has room, and the dragged person is known. *)
Lemma handleDragEnd_team teams activeId tid target who :
  startsWith activeId "player-" = true ->
  List.find (fun t => bool_decide (toStr (team_id t) = tid)) teams = Some target ->
  Z.of_nat (length (members target)) < maxPerTeam format ->
  List.find (fun p => _sameId (entry_id (person p)) (IdStr (removeFirst "player-" activeId)))
            (allPeople participants standby) = Some who ->
  inOneTeam (IdStr (removeFirst "player-" activeId)) teams ->
  handleDragEnd format participants standby teams activeId (Some ("team-" +:+ tid))
  = Some (map (fun t =>
                 if bool_decide (toStr (team_id t) = tid) then
                   if hasMember (IdStr (removeFirst "player-" activeId)) t then t
                   else withMembers t (members t ++ [asMember who])
                 else
                   withMembers t
                     (List.filter
                        (fun m => negb (_sameId (member_id m)
                                          (IdStr (removeFirst "player-" activeId))))
                        (members t)))
              teams).
Proof.
  intros Hstart Hfind Hroom Hwho Hone. unfold handleDragEnd. rewrite Hstart.
  destruct (team_drop_id tid) as (-> & -> & -> & ->).
  change (negb true) with false. cbv beta iota zeta.
  set (entryId := IdStr (removeFirst "player-" activeId)) in *.
  rewrite Hfind.
  destruct (Z.leb_spec (maxPerTeam format) (Z.of_nat (length (members target)))); [lia|].
  rewrite Hwho.
  destruct (List.find (hasMember entryId) teams) as [c|] eqn:Hcur; f_equal;
    apply List.map_ext_in; intros t Ht.
  - case_bool_decide as Htid; [reflexivity|].
    case_bool_decide as Hc; [reflexivity|].
    destruct (hasMember entryId t) eqn:E.
    + rewrite (current_team_is_the_one _ _ _ Hone Ht E) in Hcur.
      injection Hcur as <-. contradiction.
    + now rewrite filter_none_member, withMembers_same.
  - pose proof (List.find_none _ _ Hcur t Ht) as E.
    case_bool_decide as Htid; [now rewrite E|].
    now rewrite filter_none_member, withMembers_same.
Qed.

(** X12 (dropping a player on a team).  When the drop is accepted and the
    dragged person is a member of at most one team, the team dropped on had
    room, the person is one of the lists, and in the teams handed to
    [onUpdateTeams] the teams with the dropped-on id hold the person (added
    at the end where missing) and every other team has lost them: the
    person is a member of exactly the teams with that id.  If the team did
    not hold the person before, the person is no longer listed as
    unassigned. *)
Theorem drop_on_team_moves_player teams activeId tid newTeams :
  let entryId := IdStr (removeFirst "player-" activeId) in
  inOneTeam entryId teams ->
  handleDragEnd format participants standby teams activeId (Some ("team-" +:+ tid))
  = Some newTeams ->
  exists target who,
    List.find (fun t => bool_decide (toStr (team_id t) = tid)) teams = Some target
    /\ Z.of_nat (length (members target)) < maxPerTeam format
    /\ List.find (fun p => _sameId (entry_id (person p)) entryId) (allPeople participants standby)
       = Some who
    /\ newTeams
       = map (fun t =>
                if bool_decide (toStr (team_id t) = tid) then
                  if hasMember entryId t then t
                  else withMembers t (members t ++ [asMember who])
                else
                  withMembers t
                    (List.filter (fun m => negb (_sameId (member_id m) entryId)) (members t)))
             teams
    /\ (forall t, In t newTeams ->
          (hasMember entryId t = true <-> toStr (team_id t) = tid))
    /\ (exists t, In t newTeams /\ hasMember entryId t = true)
    /\ (hasMember entryId target = false ->
        ~ In who (unassigned participants standby newTeams)).
Proof.
  intros entryId Hone Hdrag.
  assert (Hstart : startsWith activeId "player-" = true).
  { unfold handleDragEnd in Hdrag. destruct (startsWith activeId "player-"); [reflexivity|].
    discriminate. }
  assert (Hparts : exists target who,
             List.find (fun t => bool_decide (toStr (team_id t) = tid)) teams = Some target
             /\ Z.of_nat (length (members target)) < maxPerTeam format
             /\ List.find (fun p => _sameId (entry_id (person p)) entryId)
                          (allPeople participants standby) = Some who).
  { revert Hdrag. unfold handleDragEnd. rewrite Hstart.
    destruct (team_drop_id tid) as (-> & -> & -> & ->).
    change (negb true) with false. cbv beta iota zeta. fold entryId.
    destruct (List.find (fun t => bool_decide (toStr (team_id t) = tid)) teams)
      as [target|]; [|discriminate].
    destruct (Z.leb_spec (maxPerTeam format) (Z.of_nat (length (members target))));
      [discriminate|].
    destruct (List.find _ (allPeople participants standby)) as [who|]; [|discriminate].
    intros _. eauto. }
  destruct Hparts as (target & who & Hfind & Hroom & Hwho).
  rewrite (handleDragEnd_team _ _ _ _ _ Hstart Hfind Hroom Hwho Hone) in Hdrag.
  fold entryId in Hdrag. injection Hdrag as Hnew.
  pose proof (List.find_some _ _ Hwho) as [_ Hsame].
  assert (Hadded : forall t, hasMember entryId (withMembers t (members t ++ [asMember who])) = true).
  { intros t. apply hasMember_true. exists (asMember who). split.
    - simpl. apply List.in_or_app. right. now left.
    - apply _sameId_true. exact Hsame. }
  assert (Hiff : forall t, In t newTeams ->
            (hasMember entryId t = true <-> toStr (team_id t) = tid)).
  { intros t Ht. rewrite <- Hnew in Ht. apply List.in_map_iff in Ht as (t0 & <- & Ht0).
    case_bool_decide as Htid.
    - destruct (hasMember entryId t0) eqn:E.
      + rewrite E. tauto.
      + rewrite Hadded. simpl. tauto.
    - rewrite hasMember_filtered. simpl. split; [discriminate|contradiction]. }
  pose proof (List.find_some _ _ Hfind) as [Htarget Htid].
  apply bool_decide_eq_true in Htid.
  assert (Hin : In (if hasMember entryId target then target
                    else withMembers target (members target ++ [asMember who])) newTeams).
  { rewrite <- Hnew. apply List.in_map_iff. exists target.
    rewrite (bool_decide_eq_true_2 _ Htid). auto. }
  exists target, who. split; [exact Hfind|]. split; [exact Hroom|]. split; [exact Hwho|].
  split; [now symmetry|]. split; [exact Hiff|]. split.
  - eexists. split; [exact Hin|]. apply (Hiff _ Hin). now destruct (hasMember entryId target).
  - intros Hlacks Hun. rewrite Hlacks in Hin.
    unfold unassigned in Hun. apply List.filter_In in Hun as [_ Hun].
    apply negb_true_iff in Hun.
    assert (Hex : existsb (strictEq (entry_id (person who))) (assignedIds newTeams) = true).
    { apply List.existsb_exists. exists (entry_id (person who)). split.
      - unfold assignedIds. apply List.in_flat_map. eexists. split; [exact Hin|].
        simpl. rewrite List.map_app. apply List.in_or_app. right. now left.
      - unfold strictEq. now apply bool_decide_eq_true_2. }
    congruence.
Qed.


End TeamDrags.

Section TeamDragExamples.
Import Js Roster Teams TeamEdits Samples.

Lemma drop_on_pool_unassigns_witness :
  let newTeams :=
    [ {| team_id := IdNum 1; team_name := "Team 1";
         members := [ {| member_id := IdNum 1; member_display_name := "Ann" |} ] |};
      {| team_id := IdNum 2; team_name := "Team 2";
         members := [ {| member_id := IdNum 3; member_display_name := "Cy" |} ] |} ] in
  let entryId := IdStr "2" in
  (forall t, In t newTeams -> hasMember entryId t = false)
  /\ (forall p, In p (allPeople samplePeople []) ->
        _sameId (entry_id (person p)) entryId = true ->
        In p (unassigned samplePeople [] newTeams))
  /\ (forall t, In t newTeams ->
        exists t0, In t0 sampleTeams
          /\ team_id t = team_id t0 /\ team_name t = team_name t0
          /\ members t = List.filter (fun m => negb (_sameId (member_id m) entryId)) (members t0))
  /\ (forall t0, In t0 sampleTeams ->
        truthyId (Some (team_id t0)) = true
        \/ (exists m, In m (members t0) /\ _sameId (member_id m) entryId = false) ->
        exists t, In t newTeams /\ team_id t = team_id t0 /\ team_name t = team_name t0).
Proof.
  apply (drop_on_pool_unassigns (Some "2v2") samplePeople [] sampleTeams "player-2").
  reflexivity.
Defined.

Lemma drop_on_player_exchanges_witness :
  let newTeams :=
    [ {| team_id := IdNum 1; team_name := "Team 1";
         members := [ {| member_id := IdNum 3; member_display_name := "Cy" |};
                      {| member_id := IdNum 2; member_display_name := "Bob" |} ] |};
      {| team_id := IdNum 2; team_name := "Team 2";
         members := [ {| member_id := IdNum 1; member_display_name := "Ann" |} ] |} ] in
  exists who targetPerson,
    List.find (fun p => _sameId (entry_id (person p)) (IdStr "1")) (allPeople samplePeople [])
    = Some who
    /\ List.find (fun p => _sameId (entry_id (person p)) (IdStr "3")) (allPeople samplePeople [])
       = Some targetPerson
    /\ newTeams
       = map (fun t => withMembers t
                (map (exchange (IdStr "1") (IdStr "3") who targetPerson) (members t)))
             sampleTeams
    /\ map team_id newTeams = map team_id sampleTeams
    /\ map team_name newTeams = map team_name sampleTeams
    /\ map (fun t => length (members t)) newTeams
       = map (fun t => length (members t)) sampleTeams.
Proof.
  assert (Hone : forall x, inOneTeam (IdStr x) sampleTeams).
  { intros x t1 t2 [<-|[<-|[]]] [<-|[<-|[]]] H1 H2; try reflexivity;
      apply hasMember_true in H1 as (m1 & Hm1 & E1);
      apply hasMember_true in H2 as (m2 & Hm2 & E2); simpl in *;
      repeat match goal with H : _ \/ _ |- _ => destruct H as [H|H] end;
      subst; try contradiction;
      match goal with H : _ = _ |- _ => vm_compute in H; discriminate H end. }
  apply (drop_on_player_exchanges (Some "2v2") samplePeople [] sampleTeams
           "player-1" "player-3").
  - reflexivity.
  - apply Hone.
  - apply Hone.
  - reflexivity.
Defined.

Lemma drop_on_team_moves_player_witness :
  let newTeams :=
    [ {| team_id := IdNum 1; team_name := "Team 1";
         members := [ {| member_id := IdNum 1; member_display_name := "Ann" |};
                      {| member_id := IdNum 2; member_display_name := "Bob" |} ] |};
      {| team_id := IdNum 2; team_name := "Team 2";
         members := [ {| member_id := IdNum 3; member_display_name := "Cy" |};
                      {| member_id := IdNum 4; member_display_name := "Dee" |} ] |} ] in
  exists target who,
    List.find (fun t => bool_decide (toStr (team_id t) = "2")) sampleTeams = Some target
    /\ Z.of_nat (length (members target)) < maxPerTeam (Some "2v2")
    /\ List.find (fun p => _sameId (entry_id (person p)) (IdStr "4")) (allPeople samplePeople [])
       = Some who
    /\ newTeams
       = map (fun t =>
                if bool_decide (toStr (team_id t) = "2") then
                  if hasMember (IdStr "4") t then t
                  else withMembers t (members t ++ [asMember who])
                else
                  withMembers t
                    (List.filter (fun m => negb (_sameId (member_id m) (IdStr "4"))) (members t)))
             sampleTeams
    /\ (forall t, In t newTeams -> (hasMember (IdStr "4") t = true <-> toStr (team_id t) = "2"))
    /\ (exists t, In t newTeams /\ hasMember (IdStr "4") t = true)
    /\ (hasMember (IdStr "4") target = false ->
        ~ In who (unassigned samplePeople [] newTeams)).
Proof.
  apply (drop_on_team_moves_player (Some "2v2") samplePeople [] sampleTeams "player-4" "2").
  - intros t1 t2 [<-|[<-|[]]] [<-|[<-|[]]] H1 H2; try reflexivity;
      vm_compute in H1, H2; discriminate.
  - reflexivity.
Defined.


End TeamDragExamples.

Section TeamListEdits.
Import Js Roster Teams TeamEdits Samples.

Lemma NoDup_map_filter {A K : Type} (k : A -> K) (f : A -> bool) (l : list A) :
  NoDup (map k l) -> NoDup (map k (List.filter f l)).
Proof.
  induction l as [|x l IH]; simpl; [constructor|].
  intros Hnd. apply NoDup_cons in Hnd as [Hx Hnd].
  destruct (f x); simpl; [|now apply IH].
  apply NoDup_cons. split; [|now apply IH].
  intros Hin. apply Hx. apply elem_of_map in Hin as (y & <- & Hy).
  apply elem_of_filter_bool in Hy as [Hy _]. apply elem_of_map. eauto.
Qed.

(** Whatever the drag, the teams handed to [onUpdateTeams] are teams of the
    list, under their ids and names and in their order; only a drop on the
    pool can leave some out. *)
Lemma handleDragEnd_ids format participants standby teams activeId over newTeams :
  handleDragEnd format participants standby teams activeId over = Some newTeams ->
  exists keep : Team -> bool,
    map (fun t => (team_id t, team_name t)) newTeams
    = map (fun t => (team_id t, team_name t)) (List.filter keep teams)
    /\ (over <> Some "unassigned" -> List.filter keep teams = teams).
Proof.
  unfold handleDragEnd. destruct over as [overId|]; [|discriminate].
  destruct (startsWith activeId "player-"); simpl; [|discriminate].
  set (entryId := IdStr (removeFirst "player-" activeId)).
  assert (Hall : forall l : list Team, List.filter (fun _ => true) l = l).
  { intros l. now apply filter_all. }
  assert (Hmap : forall g : Team -> Team,
            (forall t, team_id (g t) = team_id t /\ team_name (g t) = team_name t) ->
            map (fun t => (team_id t, team_name t)) (map g teams)
            = map (fun t => (team_id t, team_name t)) (List.filter (fun _ => true) teams)).
  { intros g Hg. rewrite Hall, List.map_map. apply List.map_ext.
    intros t. now destruct (Hg t) as [-> ->]. }
  case_bool_decide as Hun.
  { intros [= <-].
    exists (fun t => (0 <? length (List.filter (fun m => negb (_sameId (member_id m) entryId))
                                               (members t)))%nat
                     || truthyId (Some (team_id t))).
    split; [|intros Hne; subst; contradiction].
    rewrite List.filter_map_swap, List.map_map. reflexivity. }
  destruct (startsWith overId "player-").
  { destruct (_sameId _ entryId); [discriminate|].
    destruct (List.find _ _) as [who|]; [|discriminate].
    destruct (List.find _ _) as [targetPerson|]; [|discriminate].
    intros [= <-]. exists (fun _ => true). split; [|intros _; apply Hall].
    apply Hmap. intros t.
    repeat match goal with |- context [if ?b then _ else _] => destruct b end; auto. }
  destruct (startsWith overId "team-"); [|discriminate].
  destruct (List.find _ teams) as [targetTeam|]; [|discriminate].
  destruct (_ <=? _); [discriminate|].
  destruct (List.find _ (allPeople _ _)) as [who|]; [|discriminate].
  destruct (List.find (hasMember entryId) teams) as [c|];
    intros [= <-]; (exists (fun _ => true)); (split; [|intros _; apply Hall]);
    apply Hmap; intros t;
    repeat match goal with |- context [if ?b then _ else _] => destruct b end; auto.
Qed.

Lemma handleRemoveTeam_None teams teamId :
  handleRemoveTeam teams teamId = None
  <-> forall t, In t teams -> toStr (team_id t) <> toStr teamId.
Proof.
  unfold handleRemoveTeam.
  destruct (List.find _ teams) as [t|] eqn:Hfind.
  - split; [discriminate|]. intros H. apply List.find_some in Hfind as [Ht Hid].
    apply bool_decide_eq_true in Hid. now destruct (H t Ht).
  - split; [|reflexivity]. intros _ t Ht Hid.
    pose proof (List.find_none _ _ Hfind t Ht) as Hn. cbv beta in Hn.
    now rewrite bool_decide_eq_true_2 in Hn.
Qed.

(** X14 (team ids and capacity under the edits).  From teams with pairwise
    distinct [String(id)] that hold at most the capacity: a drag hands on
    teams with distinct ids, and the same ids and names in the same order
    unless it ended on the pool; [handleRemoveTeam] does nothing for an id
    no team has, and otherwise hands on exactly the teams with another id,
    still distinct and within capacity; [handleRenameTeam] changes no id
    and no member, gives the teams with the id the new name, and keeps both
    invariants; [handleAddTeam] appends one team without members and with a
    truthy id, keeps the capacity invariant when the capacity is not
    negative, and the distinctness when no team carries the new id. *)
Theorem team_list_edits_keep_invariants format teams :
  NoDup (map (fun t => toStr (team_id t)) teams) ->
  Forall (fits (maxPerTeam format)) teams ->
  (forall participants standby activeId over newTeams,
      handleDragEnd format participants standby teams activeId over = Some newTeams ->
      NoDup (map (fun t => toStr (team_id t)) newTeams)
      /\ (over <> Some "unassigned" ->
          map team_id newTeams = map team_id teams
          /\ map team_name newTeams = map team_name teams))
  /\ (forall teamId,
        (handleRemoveTeam teams teamId = None
         <-> forall t, In t teams -> toStr (team_id t) <> toStr teamId)
        /\ forall newTeams, handleRemoveTeam teams teamId = Some newTeams ->
             (forall t, In t newTeams <-> In t teams /\ toStr (team_id t) <> toStr teamId)
             /\ NoDup (map (fun t => toStr (team_id t)) newTeams)
             /\ Forall (fits (maxPerTeam format)) newTeams)
  /\ (forall teamId newName,
        map team_id (handleRenameTeam teams teamId newName) = map team_id teams
        /\ map members (handleRenameTeam teams teamId newName) = map members teams
        /\ (forall t, In t (handleRenameTeam teams teamId newName) ->
              toStr (team_id t) = toStr teamId -> team_name t = newName)
        /\ NoDup (map (fun t => toStr (team_id t)) (handleRenameTeam teams teamId newName))
        /\ Forall (fits (maxPerTeam format)) (handleRenameTeam teams teamId newName))
  /\ (forall now,
        (exists t, handleAddTeam now teams = teams ++ [t]
                   /\ members t = [] /\ truthyId (Some (team_id t)) = true)
        /\ (0 <= maxPerTeam format ->
            Forall (fits (maxPerTeam format)) (handleAddTeam now teams))
        /\ ((forall t, In t teams -> toStr (team_id t) <> "new-" +:+ toStr (IdNum now)) ->
            NoDup (map (fun t => toStr (team_id t)) (handleAddTeam now teams)))).
Proof.
  intros Hnd Hfit. split; [|split; [|split]].
  - intros participants standby activeId over newTeams Hdrag.
    apply handleDragEnd_ids in Hdrag as (keep & Hkeys & Hall).
    assert (Hids : map (fun t => toStr (team_id t)) newTeams
                   = map (fun t => toStr (team_id t)) (List.filter keep teams)).
    { apply (f_equal (map (fun p : ident * string => toStr p.1))) in Hkeys.
      now rewrite !List.map_map in Hkeys. }
    split; [rewrite Hids; now apply NoDup_map_filter|].
    intros Hover. rewrite (Hall Hover) in Hkeys. split.
    + apply (f_equal (map fst)) in Hkeys. now rewrite !List.map_map in Hkeys.
    + apply (f_equal (map snd)) in Hkeys. now rewrite !List.map_map in Hkeys.
  - intros teamId. split; [apply handleRemoveTeam_None|].
    intros newTeams. unfold handleRemoveTeam.
    destruct (List.find _ teams); [|discriminate]. intros [= <-].
    split; [|split].
    + intros x. rewrite List.filter_In, negb_true_iff, bool_decide_eq_false. reflexivity.
    + now apply NoDup_map_filter.
    + apply List.Forall_forall. intros x Hx. apply List.filter_In in Hx as [Hx _].
      rewrite List.Forall_forall in Hfit. now apply Hfit.
  - intros teamId newName. unfold handleRenameTeam.
    assert (Hid : map team_id
                    (map (fun t => if bool_decide (toStr (team_id t) = toStr teamId)
                                   then {| team_id := team_id t; team_name := newName;
                                           members := members t |}
                                   else t) teams) = map team_id teams).
    { rewrite List.map_map. apply List.map_ext. intros t. now case_bool_decide. }
    assert (Hms : map members
                    (map (fun t => if bool_decide (toStr (team_id t) = toStr teamId)
                                   then {| team_id := team_id t; team_name := newName;
                                           members := members t |}
                                   else t) teams) = map members teams).
    { rewrite List.map_map. apply List.map_ext. intros t. now case_bool_decide. }
    split; [exact Hid|]. split; [exact Hms|]. split; [|split].
    + intros t Ht. apply List.in_map_iff in Ht as (t0 & <- & _).
      case_bool_decide; simpl; [reflexivity|contradiction].
    + rewrite <- (List.map_map team_id toStr), Hid, List.map_map. exact Hnd.
    + apply List.Forall_forall. intros t Ht. apply List.in_map_iff in Ht as (t0 & <- & Ht0).
      rewrite List.Forall_forall in Hfit. specialize (Hfit _ Ht0).
      now case_bool_decide.
  - intros now0. unfold handleAddTeam. split; [|split].
    + eexists. split; [reflexivity|]. split; reflexivity.
    + intros Hcap. apply Forall_app. split; [exact Hfit|].
      repeat constructor. unfold fits. simpl. exact Hcap.
    + intros Hfresh. rewrite map_app. apply NoDup_app. split; [exact Hnd|]. split.
      * intros k Hk Hk'. simpl in Hk'. apply list_elem_of_singleton in Hk' as ->.
        apply elem_of_map in Hk as (t & Hid & Ht). apply list_elem_of_In in Ht.
        now apply (Hfresh t Ht).
      * apply NoDup_singleton.
Qed.

End TeamListEdits.

Section TeamListExamples.
Import Js Roster Teams TeamEdits Samples.

Lemma team_list_edits_keep_invariants_witness :
  (handleRemoveTeam sampleTeams (IdStr "2") = None
   <-> forall t, In t sampleTeams -> toStr (team_id t) <> toStr (IdStr "2"))
  /\ forall newTeams, handleRemoveTeam sampleTeams (IdStr "2") = Some newTeams ->
       (forall t, In t newTeams <-> In t sampleTeams /\ toStr (team_id t) <> toStr (IdStr "2"))
       /\ NoDup (map (fun t => toStr (team_id t)) newTeams)
       /\ Forall (fits (maxPerTeam (Some "2v2"))) newTeams.
Proof.
  assert (Hnd : NoDup (map (fun t => toStr (team_id t)) sampleTeams)).
  { refine (bool_decide_unpack _ _). vm_compute. exact I. }
  assert (Hfit : Forall (fits (maxPerTeam (Some "2v2"))) sampleTeams).
  { repeat constructor; unfold fits; simpl; vm_compute; discriminate. }
  exact (proj1 (proj2 (team_list_edits_keep_invariants (Some "2v2") sampleTeams Hnd Hfit))
           (IdStr "2")).
Defined.

End TeamListExamples.

Section ErrorMessages.
Import Js Bracket Client Samples.

Lemma detailOr_empty data fallback :
  fallback <> "" -> detailOr data fallback = "" ->
  truthy (detailOf data) = true /\ toString (detailOf data) = "".
Proof.
  intros Hf. unfold detailOr, orValue.
  destruct (truthy (detailOf data)); [auto|]. simpl. contradiction.
Qed.

Lemma errorUnlessOk_rejected status content fallback :
  fallback <> "" ->
  exists msg, errorUnlessOk (Reply false status content) fallback = Some msg
              /\ (msg = "" ->
                  exists detail error,
                    content = JsonBody detail error
                    /\ truthy detail = true /\ toString detail = "").
Proof.
  intros Hf. simpl. destruct content as [|head|detail error]; simpl.
  - exists fallback. split; [reflexivity|contradiction].
  - eexists. split; [reflexivity|discriminate].
  - eexists. split; [reflexivity|]. intros H.
    apply (detailOr_empty (Some (detail, error))) in H as [H1 H2]; [|exact Hf]. eauto.
Qed.

Lemma errorOfPatch_rejected status content fallback :
  fallback <> "" ->
  exists msg, errorOfPatch (Reply false status content) fallback = Some msg
              /\ (msg = "" ->
                  exists detail error,
                    content = JsonBody detail error
                    /\ ((truthy detail = true /\ toString detail = "")
                        \/ (truthy detail = false
                            /\ truthy error = true /\ toString error = ""))).
Proof.
  intros Hf. destruct content as [|head|detail error]; simpl;
    try (exists fallback; split; [reflexivity|contradiction]).
  eexists. split; [reflexivity|]. unfold orValue.
  destruct (truthy detail) eqn:Ed.
  - rewrite Ed. intros H. eauto 10.
  - destruct (truthy error) eqn:Ee; simpl.
    + intros H. eauto 10.
    + contradiction.
Qed.

(** X16 (when a rejection stays silent).  On a reply that is not [ok] each
    of [clearWinner], [swapWinner], [swapSlots], [setWinner],
    [advanceOpponent], [updateMatch], the drop handler and
    [generateBracket] either returned before sending anything or ends in
    [setError(msg)] without reloading.  The message is empty, so that no
    banner shows, only when the body is JSON whose [detail] is truthy with
    an empty [String(detail)], as for the array [[]]; for [setWinner] and
    [advanceOpponent] also when [detail] is falsy and [error] is such a
    value.  [updateMatch] always shows 'Failed to update'.  A reply with
    [detail: []] does silence [clearWinner]. *)
Theorem rejection_silent_only_on_empty_detail st matchId slot status content :
  let resp := Reply false status content in
  let quiet (withError : bool) :=
    exists detail error,
      content = JsonBody detail error
      /\ ((truthy detail = true /\ toString detail = "")
          \/ (withError = true /\ truthy detail = false
              /\ truthy error = true /\ toString error = "")) in
  let loud (withError : bool) (o : Outcome) :=
    o = Ignored
    \/ exists req msg, o = Sent req (Some msg) /\ (msg = "" -> quiet withError) in
  loud false (clearWinner st matchId resp)
  /\ loud false (swapWinner st matchId resp)
  /\ (forall fromMatch fromSlot, loud false (swapSlots st fromMatch fromSlot matchId slot resp))
  /\ loud true (setWinner st matchId slot resp)
  /\ loud true (advanceOpponent st matchId slot resp)
  /\ (forall entity,
        updateMatch st matchId slot entity resp = Ignored
        \/ exists req, updateMatch st matchId slot entity resp
                       = Sent req (Some "Failed to update"))
  /\ (forall onSwapSlots onDrop data,
        loud false (handleDrop st onSwapSlots onDrop matchId slot data resp))
  /\ (forall bracketType, loud false (generateBracket st bracketType resp))
  /\ (forall status', exists req,
        clearWinner st matchId (Reply false status' (JsonBody (VObject "") VUndefined))
        = Sent req (Some "")).
Proof.
  intros resp quiet loud.
  assert (Hunless : forall req fallback, fallback <> "" ->
            loud false (Sent req (errorUnlessOk resp fallback))).
  { intros req fallback Hf. right. unfold resp.
    destruct (errorUnlessOk_rejected status content fallback Hf) as (msg & -> & Hm).
    eexists _, _. split; [reflexivity|]. intros E.
    destruct (Hm E) as (d & e & -> & H). exists d, e. auto. }
  assert (Hpatch : forall req fallback, fallback <> "" ->
            loud true (Sent req (errorOfPatch resp fallback))).
  { intros req fallback Hf. right. unfold resp.
    destruct (errorOfPatch_rejected status content fallback Hf) as (msg & -> & Hm).
    eexists _, _. split; [reflexivity|]. intros E.
    destruct (Hm E) as (d & e & -> & [H|H]); exists d, e; split; auto. }
  assert (Hswap : forall fromMatch fromSlot,
            loud false (swapSlots st fromMatch fromSlot matchId slot resp)).
  { intros fromMatch fromSlot. unfold swapSlots.
    destruct (_ && _); [now left|]. now apply Hunless. }
  assert (Hupdate : forall entity,
            updateMatch st matchId slot entity resp = Ignored
            \/ exists req, updateMatch st matchId slot entity resp
                           = Sent req (Some "Failed to update")).
  { intros entity. unfold updateMatch, resp.
    repeat case_match; try (now left); right; eexists; reflexivity. }
  assert (Hloud : forall entity, loud false (updateMatch st matchId slot entity resp)).
  { intros entity. destruct (Hupdate entity) as [->|(req & ->)]; [now left|].
    right. eexists _, _. split; [reflexivity|discriminate]. }
  split; [now apply Hunless|]. split; [now apply Hunless|]. split; [exact Hswap|].
  split; [|split; [|split; [exact Hupdate|split; [|split]]]].
  - unfold setWinner. destruct (findMatch st matchId) as [m|]; [|now left].
    destruct (slotEntity _ m slot) as [w|]; [|now left].
    destruct (negb _); [now left|]. now apply Hpatch.
  - unfold advanceOpponent. destruct (findMatch st matchId) as [m|]; [|now left].
    destruct (slotEntity _ m _) as [w|]; [|now left].
    destruct (negb _); [now left|]. now apply Hpatch.
  - intros onSwapSlots onDrop data. unfold handleDrop.
    destruct data as [[fm fs|ty i]|]; [| |now left].
    + destruct (_ && _); [apply Hswap|]. destruct onDrop; [apply Hloud|now left].
    + destruct onDrop; [apply Hloud|now left].
  - intros bracketType. right. unfold generateBracket, resp.
    destruct content as [|head|detail error]; simpl.
    + eexists _, _. split; [reflexivity|discriminate].
    + eexists _, _. split; [reflexivity|discriminate].
    + eexists _, _. split; [reflexivity|]. intros E.
      apply (detailOr_empty (Some (detail, error))) in E as [H1 H2]; [|discriminate].
      exists detail, error. auto.
  - intros status'. eexists. reflexivity.
Qed.

End ErrorMessages.

Section DropDispatch.
Import Js Bracket Client Samples.

(** X17 (what a drop sends).  When the drop handler sends a request, the
    payload was either a slot drag from a different slot, with
    [onSwapSlots] present, and the request is the POST to swap-slots naming
    both slots; or a team or a manual entry, with [onDrop] present, and the
    request is a PATCH of the match that sets the id field of the slot
    dropped on and nothing else.  No other payload makes it send
    anything. *)
Theorem handleDrop_dispatch st onSwapSlots onDrop matchId slot data resp req err :
  handleDrop st onSwapSlots onDrop matchId slot data resp = Sent req err ->
  match data with
  | Some (SlotDrag fromMatch fromSlot) =>
      onSwapSlots = true
      /\ (fromMatch <> matchId \/ fromSlot <> slot)
      /\ method req = "POST"
      /\ url req = "/api/tournaments/" +:+ numStr (tournamentId st)
                   +:+ "/bracket/matches/swap-slots"
      /\ body req = {[ "from_match_id" := JId fromMatch; "from_slot" := JNum fromSlot;
                       "to_match_id" := JId matchId; "to_slot" := JNum slot ]}
  | Some (EntityDrag ty id) =>
      onDrop = true
      /\ method req = "PATCH" /\ url req = matchUrl st matchId
      /\ ((ty = Some "team"
           /\ body req = {[ (if slot =? 1 then "team1_id" else "team2_id") := JId id ]})
          \/ (ty = Some "manual_entry"
              /\ body req = {[ (if slot =? 1 then "manual_entry1_id"
                                else "manual_entry2_id") := JId id ]}))
  | None => False
  end.
Proof.
  unfold handleDrop. destruct data as [[fromMatch fromSlot|ty i]|]; [| |discriminate].
  - destruct onSwapSlots; simpl.
    + unfold swapSlots. destruct (strictEq fromMatch matchId && (fromSlot =? slot)) eqn:E; simpl.
      * destruct onDrop; discriminate.
      * intros [= <- <-]. split; [reflexivity|]. split; [|auto].
        apply andb_false_iff in E as [E|E].
        -- left. unfold strictEq in E. now apply bool_decide_eq_false in E.
        -- right. now apply Z.eqb_neq in E.
    + destruct onDrop; discriminate.
  - destruct onDrop; [|discriminate]. unfold updateMatch.
    intros H. split; [reflexivity|].
    destruct ty as [ty|]; [|discriminate].
    destruct (decide (ty = "team")) as [->|Hteam].
    { injection H as <- <-. auto 10. }
    destruct (decide (ty = "manual_entry")) as [->|Hme].
    { injection H as <- <-. auto 10. }
    exfalso. revert H. repeat case_match; try discriminate; subst; congruence.
Qed.

(** Team 11 dropped on slot 1 of match 5. *)
Lemma handleDrop_dispatch_witness :
  let req := {| method := "PATCH"; url := matchUrl sampleState (IdNum 5);
                body := {[ "team1_id" := JId (IdNum 11) ]} |} in
  true = true
  /\ method req = "PATCH" /\ url req = matchUrl sampleState (IdNum 5)
  /\ ((Some "team" = Some "team"
       /\ body req = {[ (if 1 =? 1 then "team1_id" else "team2_id") := JId (IdNum 11) ]})
      \/ (Some "team" = Some "manual_entry"
          /\ body req = {[ (if 1 =? 1 then "manual_entry1_id"
                            else "manual_entry2_id") := JId (IdNum 11) ]})).
Proof.
  apply (handleDrop_dispatch sampleState true true (IdNum 5) 1
           (Some (EntityDrag (Some "team") (IdNum 11))) (Reply true 200 EmptyBody)
           _ None).
  reflexivity.
Defined.

End DropDispatch.

Section PreviewAndGenerate.
Import Js Roster Teams Client RosterMoves Samples.

(** X18 (preview and Generate).  [hasData] holds exactly with two entrants
    or more.  When the preview effect calls [fetchPreview], the bracket tab
    is active, there is no bracket, and Generate is enabled for every type
    but double elimination.  With a single entrant no preview is asked for
    although Generate is enabled; for double elimination with two to seven
    entrants a preview is asked for although Generate is disabled. *)
Theorem preview_needs_two_generate_one fmt participants teams bracketType :
  (hasData fmt participants teams = true
   <-> (2 <= bracketCount fmt participants teams)%nat)
  /\ (forall activeTab hasBracket,
        previewWanted activeTab hasBracket fmt participants teams = true ->
        activeTab = "bracket" /\ hasBracket = false
        /\ (2 <= bracketCount fmt participants teams)%nat
        /\ (bracketType <> "double_elim" ->
            generateDisabled bracketType (bracketCount fmt participants teams) = false))
  /\ (bracketCount fmt participants teams = 1%nat ->
      hasData fmt participants teams = false
      /\ (bracketType <> "double_elim" ->
          generateDisabled bracketType (bracketCount fmt participants teams) = false))
  /\ (bracketType = "double_elim" ->
      (2 <= bracketCount fmt participants teams < 8)%nat ->
      hasData fmt participants teams = true
      /\ generateDisabled bracketType (bracketCount fmt participants teams) = true).
Proof.
  assert (Hdata : hasData fmt participants teams = true
                  <-> (2 <= bracketCount fmt participants teams)%nat).
  { unfold hasData, bracketCount. case_bool_decide; apply Nat.leb_le. }
  assert (Hgen : forall n, bracketType <> "double_elim" -> (1 <= n)%nat ->
                           generateDisabled bracketType n = false).
  { intros n Hbt Hn. unfold generateDisabled.
    rewrite (bool_decide_eq_false_2 _ Hbt). simpl. rewrite orb_false_r.
    apply Nat.eqb_neq. lia. }
  split; [exact Hdata|]. split; [|split].
  - intros activeTab hasBracket Hw. unfold previewWanted in Hw.
    apply andb_true_iff in Hw as [Hw Hd]. apply andb_true_iff in Hw as [Htab Hb].
    apply bool_decide_eq_true in Htab. apply negb_true_iff in Hb. apply Hdata in Hd.
    split; [exact Htab|]. split; [exact Hb|]. split; [exact Hd|].
    intros Hbt. apply Hgen; [exact Hbt|lia].
  - intros Hone. split.
    + apply not_true_is_false. intros E. apply Hdata in E. lia.
    + intros Hbt. apply Hgen; [exact Hbt|lia].
  - intros -> Hn. split; [apply Hdata; lia|].
    unfold generateDisabled. rewrite bool_decide_eq_true_2 by reflexivity. simpl.
    apply orb_true_iff. right. apply Nat.ltb_lt. lia.
Qed.

End PreviewAndGenerate.

Section Tabs.
Import Js Navigation.

(** X19 (tabs and addresses).  Following the link of a tab of the tab bar
    activates that tab.  Only 'players', 'teams' and 'bracket' are ever
    activated, and 'teams' not for a tournament whose format is known to be
    1v1: there [/teams] leads back to [/] and the tab bar has no teams tab.
    Every redirect goes to [/]. *)
Theorem tab_links_reach_their_tab tournaments tournamentId :
  let fmt := formatOf tournaments tournamentId in
  (forall tab, In tab (tabs fmt) ->
      syncTab (tabPath tab) tournaments tournamentId = SetActiveTab tab)
  /\ (forall path tab,
        syncTab path tournaments tournamentId = SetActiveTab tab ->
        In tab validTabs
        /\ (tab = "teams" -> tournaments <> [] -> truthyNum tournamentId = true ->
            truthyStr fmt = true -> fmt <> Some "1v1"))
  /\ (forall path target,
        syncTab path tournaments tournamentId = Navigate target -> target = "/")
  /\ syncTab "/" tournaments tournamentId = SetActiveTab "players"
  /\ (tournaments <> [] -> truthyNum tournamentId = true -> fmt = Some "1v1" ->
      syncTab "/teams" tournaments tournamentId = Navigate "/"
      /\ tabs fmt = ["players"; "bracket"]).
Proof.
  intros fmt. split; [|split; [|split; [|split]]].
  - intros tab Htab. unfold tabs in Htab. simpl in Htab.
    destruct Htab as [<-|Htab]; [reflexivity|].
    destruct (isTeamFormat fmt) eqn:Hteam; simpl in Htab.
    + destruct Htab as [<-|[<-|[]]]; [|reflexivity].
      unfold syncTab. simpl. fold fmt. rewrite Hteam. now rewrite andb_false_r.
    + destruct Htab as [<-|[]]. reflexivity.
  - intros path tab. unfold syncTab.
    destruct (_ || _); [discriminate|].
    set (tabFromPath := if bool_decide (path = "/") then "players" else dropStr 1 path).
    case_bool_decide as Hvalid; [|discriminate]. fold fmt.
    destruct (bool_decide (tabFromPath = "teams") && _ && negb (isTeamFormat fmt)) eqn:E;
      [discriminate|].
    intros [= <-]. split; [now apply list_elem_of_In|].
    intros Hteams Hts Hid Hfmt Hone.
    rewrite (bool_decide_eq_true_2 _ Hteams), Hid, Hfmt in E.
    unfold isTeamFormat in E. rewrite Hfmt, (bool_decide_eq_true_2 _ Hone) in E.
    destruct tournaments; [contradiction|]. discriminate.
  - intros path target. unfold syncTab.
    repeat match goal with |- context [if ?b then _ else _] => destruct b end;
      try discriminate; now intros [= <-].
  - reflexivity.
  - intros Hts Hid Hfmt. unfold syncTab, tabs, isTeamFormat. simpl. fold fmt.
    rewrite Hid, Hfmt. simpl. destruct tournaments; [contradiction|]. split; reflexivity.
Qed.

End Tabs.

Section Session.
Import Js Roster Auth.

(** X21 (session).  An administrator can edit, and [canEdit] holds exactly
    for the roles moderator and admin.  A reply with status 401 leaves the
    session as [logout] does: afterwards nothing can be edited and
    [authFetch] adds no header; any other status leaves the session as it
    was.  With a token stored, [authFetch] sends it in both headers and
    leaves the other headers alone.  Without [canEdit] no roster row has a
    button. *)
Theorem unauthorized_reply_ends_session (s : Session) (headers : gmap string string) :
  (isAdmin (user s) = true -> canEdit (user s) = true)
  /\ (canEdit (user s) = true <->
      exists u, user s = Some u /\ (role u = Some "moderator" \/ role u = Some "admin"))
  /\ (let s' := (authFetch s headers 401).2 in
      s' = logout s
      /\ canEdit (user s') = false /\ isAdmin (user s') = false
      /\ forall headers' status, (authFetch s' headers' status).1 = headers')
  /\ (forall status, status <> 401 -> (authFetch s headers status).2 = s)
  /\ (forall t, token s = Some t -> t <> "" ->
        forall status,
          (authFetch s headers status).1 !! "Authorization" = Some ("Bearer " +:+ t)
          /\ (authFetch s headers status).1 !! "X-Auth-Token" = Some t
          /\ forall k, k <> "Authorization" -> k <> "X-Auth-Token" ->
               (authFetch s headers status).1 !! k = headers !! k)
  /\ (forall (it : Entrant) editing,
        canEdit (user s) = false ->
        RosterItem (participantItem (negb (canEdit (user s))) it) editing = []
        /\ RosterItem (standbyItem (negb (canEdit (user s))) it) editing = []).
Proof.
  split; [|split; [|split; [|split; [|split]]]].
  - unfold isAdmin, canEdit. destruct (user s) as [u|]; [|discriminate].
    intros ->. apply orb_true_r.
  - unfold canEdit. destruct (user s) as [u|].
    + rewrite orb_true_iff, !bool_decide_eq_true. split.
      * intros H. exists u. auto.
      * intros (u' & [= <-] & H). exact H.
    + split; [discriminate|]. intros (u & [=] & _).
  - simpl. repeat split.
  - intros status Hs. unfold authFetch. simpl.
    destruct (Z.eqb_spec status 401); [contradiction|reflexivity].
  - intros t Ht Hne status. unfold authFetch, authHeaders. simpl. rewrite Ht.
    assert (Htruthy : negb (bool_decide (t = "")) = true).
    { apply negb_true_iff. now apply bool_decide_eq_false_2. }
    rewrite Htruthy. split; [|split].
    + rewrite lookup_insert_ne by discriminate. apply lookup_insert_eq.
    + apply lookup_insert_eq.
    + intros k Hk1 Hk2. now rewrite !lookup_insert_ne by congruence.
  - intros it editing ->. split; reflexivity.
Qed.

End Session.

Section Grid.
Import Js Bracket Layout.

Lemma rowSpan_pos rows n : 1 <= rowSpan rows n.
Proof. unfold rowSpan. lia. Qed.

Lemma rowSpan_fits rows n :
  (0 < n)%nat -> Z.of_nat n <= rows -> Z.of_nat n * rowSpan rows n <= rows.
Proof.
  intros Hn Hle. unfold rowSpan.
  assert (Hdiv : 1 <= rows / Z.of_nat n) by (apply Z.div_le_lower_bound; lia).
  rewrite Z.max_r by lia. apply Z.mul_div_le. lia.
Qed.

Lemma columnCells_lookup rows colIdx matches i c :
  columnCells rows colIdx matches !! i = Some c ->
  exists m, matches !! i = Some m
    /\ c = {| gridColumn := Z.of_nat colIdx + 1;
              gridRowStart := Z.of_nat i * rowSpan rows (length matches) + 1;
              gridRowSpan := rowSpan rows (length matches);
              shown := m |}.
Proof.
  unfold columnCells. rewrite list_lookup_imap.
  destruct (matches !! i) as [m|]; [|discriminate]. simpl. intros [= <-]. eauto.
Qed.

(** X22 (grid of the winners tree).  The cells of a column show its matches
    in order, in that column, on at least one row each, and a later cell
    begins below the end of an earlier one.  A column with no more matches
    than the grid has rows ends inside the grid.  The grid has at least 4
    rows and twice the matches of the first round, so the first column
    always fits. *)
Theorem tree_cells_do_not_overlap :
  (forall rows colIdx matches,
      map shown (columnCells rows colIdx matches) = matches
      /\ (forall c, c ∈ columnCells rows colIdx matches ->
            gridColumn c = Z.of_nat colIdx + 1 /\ 1 <= gridRowStart c /\ 1 <= gridRowSpan c)
      /\ (forall i j ci cj,
            columnCells rows colIdx matches !! i = Some ci ->
            columnCells rows colIdx matches !! j = Some cj ->
            (i < j)%nat ->
            gridRowStart ci + gridRowSpan ci <= gridRowStart cj)
      /\ (Z.of_nat (length matches) <= rows ->
          forall c, c ∈ columnCells rows colIdx matches ->
                    gridRowStart c + gridRowSpan c - 1 <= rows))
  /\ (forall first, 4 <= totalRows first /\ Z.of_nat first * 2 <= totalRows first)
  /\ (forall (rounds : Rounds),
        map (map shown) (cells rounds) = map snd (roundEntries rounds)
        /\ forall col c, head (cells rounds) = Some col -> c ∈ col ->
             exists first, head (roundEntries rounds) = Some first
               /\ gridColumn c = 1
               /\ gridRowStart c + gridRowSpan c - 1 <= totalRows (length first.2)).
Proof.
  assert (Hcol : forall rows colIdx matches,
      Z.of_nat (length matches) <= rows ->
      forall c, c ∈ columnCells rows colIdx matches ->
                gridRowStart c + gridRowSpan c - 1 <= rows).
  { intros rows colIdx matches Hle c Hc.
    apply list_elem_of_lookup in Hc as (i & Hi).
    apply columnCells_lookup in Hi as (m & Hm & ->). simpl.
    apply lookup_lt_Some in Hm.
    pose proof (rowSpan_pos rows (length matches)) as Hpos.
    assert (Hfit : Z.of_nat (length matches) * rowSpan rows (length matches) <= rows)
      by (apply rowSpan_fits; [lia|exact Hle]).
    nia. }
  split; [|split].
  - intros rows colIdx matches. split; [|split; [|split]].
    + unfold columnCells. apply list_eq. intros i.
      rewrite list_lookup_fmap, list_lookup_imap.
      now destruct (matches !! i).
    + intros c Hc. apply list_elem_of_lookup in Hc as (i & Hi).
      apply columnCells_lookup in Hi as (m & _ & ->). simpl.
      pose proof (rowSpan_pos rows (length matches)). split; [reflexivity|]. split; nia.
    + intros i j ci cj Hi Hj Hlt.
      apply columnCells_lookup in Hi as (mi & _ & ->).
      apply columnCells_lookup in Hj as (mj & _ & ->). simpl.
      pose proof (rowSpan_pos rows (length matches)). nia.
    + apply Hcol.
  - intros first. unfold totalRows. lia.
  - intros rounds. unfold cells. destruct (roundEntries rounds) as [|[r first] entries] eqn:E.
    + split; [reflexivity|]. intros col c [=].
    + split.
      * apply list_eq. intros i.
        rewrite !list_lookup_fmap, list_lookup_imap.
        destruct (((r, first) :: entries) !! i) as [[r' ms]|]; [|reflexivity]. simpl.
        f_equal. unfold columnCells. apply list_eq. intros k.
        rewrite list_lookup_fmap, list_lookup_imap. now destruct (ms !! k).
      * intros col c [= <-] Hc. exists (r, first). split; [reflexivity|]. simpl in *.
        split.
        -- apply list_elem_of_lookup in Hc as (i & Hi).
           now apply columnCells_lookup in Hi as (m & _ & ->).
        -- apply (Hcol _ 0%nat first); [|exact Hc]. unfold totalRows. lia.
Qed.

End Grid.

Section RosterArrows.
Import Js Roster Client RosterMoves Samples.

Lemma findIndex_range {A : Type} (f : A -> bool) l :
  -1 <= findIndex f l < Z.of_nat (length l).
Proof.
  induction l as [|x l IH]; simpl; [lia|].
  destruct (f x); [lia|]. destruct (Z.ltb_spec (findIndex f l) 0); lia.
Qed.

Lemma findIndex_none {A : Type} (f : A -> bool) l :
  findIndex f l = -1 <-> forall x, In x l -> f x = false.
Proof.
  induction l as [|x l IH]; simpl.
  - split; [intros _ x []|reflexivity].
  - destruct (f x) eqn:E.
    + split; [discriminate|]. intros H. rewrite (H x) in E by now left. discriminate.
    + pose proof (findIndex_range f l) as Hr.
      destruct (Z.ltb_spec (findIndex f l) 0) as [Hneg|Hpos].
      * split; [|reflexivity]. intros _ y [<-|Hy]; [exact E|].
        apply IH; [lia|exact Hy].
      * split; [lia|]. intros Hall. exfalso.
        assert (findIndex f l = -1) by (apply IH; intros y Hy; apply Hall; now right). lia.
Qed.

(** The index [findIndex] returns holds the first item that satisfies the
    test. *)
Lemma findIndex_found {A : Type} (f : A -> bool) l i :
  findIndex f l = i -> 0 <= i ->
  exists x, l !! Z.to_nat i = Some x /\ f x = true
            /\ forall j y, (j < Z.to_nat i)%nat -> l !! j = Some y -> f y = false.
Proof.
  revert i. induction l as [|x l IH]; simpl; intros i Hi Hpos; [lia|].
  destruct (f x) eqn:E.
  - subst i. exists x. split; [reflexivity|]. split; [exact E|]. intros j y Hj. simpl in Hj. lia.
  - destruct (Z.ltb_spec (findIndex f l) 0) as [Hneg|Hge]; [lia|].
    destruct (IH (findIndex f l) eq_refl Hge) as (y & Hy & Hfy & Hbefore).
    exists y. subst i.
    replace (Z.to_nat (findIndex f l + 1)) with (S (Z.to_nat (findIndex f l))) by lia.
    split; [exact Hy|]. split; [exact Hfy|].
    intros [|j] z Hj Hz; simpl in Hz.
    + now injection Hz as <-.
    + apply (Hbefore j z); [lia|exact Hz].
Qed.

Lemma findIndex_spec {A : Type} (f : A -> bool) l (i : nat) :
  findIndex f l = Z.of_nat i
  <-> exists x, l !! i = Some x /\ f x = true
                /\ forall j y, (j < i)%nat -> l !! j = Some y -> f y = false.
Proof.
  split.
  - intros Hi. destruct (findIndex_found f l (Z.of_nat i) Hi) as (x & Hx & Hfx & Hb); [lia|].
    rewrite Nat2Z.id in *. eauto.
  - intros (x & Hx & Hfx & Hb).
    pose proof (findIndex_range f l) as Hr.
    destruct (Z.eq_dec (findIndex f l) (-1)) as [Hnone|Hsome].
    + pose proof (proj1 (findIndex_none f l) Hnone) as Hall.
      rewrite (Hall x) in Hfx; [discriminate|].
      apply list_elem_of_In. eapply list_elem_of_lookup_2, Hx.
    + destruct (findIndex_found f l (findIndex f l) eq_refl) as (y & Hy & Hfy & Hby); [lia|].
      destruct (lt_eq_lt_dec (Z.to_nat (findIndex f l)) i) as [[Hlt|Heq]|Hgt].
      * rewrite (Hb _ _ Hlt Hy) in Hfy. discriminate.
      * lia.
      * rewrite (Hby _ _ Hgt Hx) in Hfx. discriminate.
Qed.

Variable arrayMove : list ident -> Z -> Z -> list ident.


Lemma findIndex_firstAt (items : list Entrant) id i :
  findIndex (fun x => strictEq (entry_id x) id) items = Z.of_nat i <-> firstAt items id i.
Proof.
  rewrite findIndex_spec. unfold firstAt, strictEq.
  split; intros (x & Hx & Hfx & Hb); exists x; (split; [exact Hx|]).
  - apply bool_decide_eq_true in Hfx. split; [exact Hfx|].
    intros j y Hj Hy. specialize (Hb j y Hj Hy). now apply bool_decide_eq_false in Hb.
  - split; [now apply bool_decide_eq_true_2|].
    intros j y Hj Hy. apply bool_decide_eq_false_2. eauto.
Qed.

Lemma findIndex_absent (items : list Entrant) id :
  findIndex (fun x => strictEq (entry_id x) id) items = -1
  <-> forall x, In x items -> entry_id x <> id.
Proof.
  rewrite findIndex_none. unfold strictEq.
  split; intros H x Hx; specialize (H x Hx).
  - now apply bool_decide_eq_false in H.
  - now apply bool_decide_eq_false_2.
Qed.

(** X23 (the arrows of a roster row).  [moveUp] returns without reordering
    exactly when the id is not in the list or first occurs at the top;
    otherwise it hands [arrayMove] the ids, the position of the first
    occurrence and the one above.  [moveDown] returns without reordering
    exactly when the id is not in the list or first occurs at the bottom;
    otherwise it hands over the position and the one below. *)
Theorem move_stops_at_the_ends (items : list Entrant) (id : ident) :
  (moveUp arrayMove items id = None
   <-> (forall x, In x items -> entry_id x <> id) \/ firstAt items id 0)
  /\ (forall ids, moveUp arrayMove items id = Some ids
        <-> exists i, (0 < i)%nat /\ firstAt items id i
              /\ ids = arrayMove (map entry_id items) (Z.of_nat i) (Z.of_nat i - 1))
  /\ (moveDown arrayMove items id = None
      <-> (forall x, In x items -> entry_id x <> id)
          \/ (items <> [] /\ firstAt items id (length items - 1)))
  /\ (forall ids, moveDown arrayMove items id = Some ids
        <-> exists i, (S i < length items)%nat /\ firstAt items id i
              /\ ids = arrayMove (map entry_id items) (Z.of_nat i) (Z.of_nat i + 1)).
Proof.
  pose proof (findIndex_range (fun x => strictEq (entry_id x) id) items) as Hr.
  pose proof (findIndex_absent items id) as Habs.
  assert (Hat : forall i, findIndex (fun x => strictEq (entry_id x) id) items = Z.of_nat i
                          <-> firstAt items id i) by (intros i; apply findIndex_firstAt).
  assert (Hlt : forall i, firstAt items id i -> (i < length items)%nat).
  { intros i (x & Hx & _). now apply lookup_lt_Some in Hx. }
  unfold moveUp, moveDown.
  set (idx := findIndex (fun x => strictEq (entry_id x) id) items) in *.
  split; [|split; [|split]].
  - destruct (Z.leb_spec idx 0) as [Hle|Hgt].
    + split; [|reflexivity]. intros _.
      destruct (Z.eq_dec idx (-1)) as [Hn|Hn]; [left; now apply Habs|].
      right. apply Hat. simpl. lia.
    + split; [discriminate|]. intros [Hn|H0].
      * apply Habs in Hn. lia.
      * apply Hat in H0. simpl in H0. lia.
  - intros ids. destruct (Z.leb_spec idx 0) as [Hle|Hgt].
    + split; [discriminate|]. intros (i & Hi & Hfirst & _). apply Hat in Hfirst. lia.
    + split.
      * intros [= <-]. exists (Z.to_nat idx). split; [lia|].
        split; [apply Hat; lia|]. now rewrite Z2Nat.id by lia.
      * intros (i & Hi & Hfirst & ->). apply Hat in Hfirst. now rewrite Hfirst.
  - destruct (Z.ltb_spec idx 0) as [Hneg|Hpos]; simpl.
    + split; [|reflexivity]. intros _. left. apply Habs. lia.
    + destruct (Z.leb_spec (Z.of_nat (length items) - 1) idx) as [Hlast|Hmid].
      * split; [|reflexivity]. intros _. right.
        split; [intros ->; simpl in Hr; lia|]. apply Hat. lia.
      * split; [discriminate|]. intros [Hn|[_ Hl]].
        -- apply Habs in Hn. lia.
        -- apply Hat in Hl. lia.
  - intros ids. destruct (Z.ltb_spec idx 0) as [Hneg|Hpos]; simpl.
    + split; [discriminate|]. intros (i & _ & Hfirst & _). apply Hat in Hfirst. lia.
    + destruct (Z.leb_spec (Z.of_nat (length items) - 1) idx) as [Hlast|Hmid].
      * split; [discriminate|]. intros (i & Hi & Hfirst & _). apply Hat in Hfirst. lia.
      * split.
        -- intros [= <-]. exists (Z.to_nat idx). split; [lia|].
           split; [apply Hat; lia|]. now rewrite Z2Nat.id by lia.
        -- intros (i & Hi & Hfirst & ->). apply Hat in Hfirst. now rewrite Hfirst.
Qed.

End RosterArrows.



Section RosterRequests.
Import Js Roster Client RosterMoves Samples.

Lemma discord_id s :
  startsWith ("discord:" +:+ s) "discord:" = true
  /\ removeFirst "discord:" ("discord:" +:+ s) = s.
Proof.
  change ("discord:" +:+ s)
    with (String "d" (String "i" (String "s" (String "c" (String "o" (String "r"
           (String "d" (String ":" s)))))))).
  unfold startsWith. split; cbn; now destruct s.
Qed.

(** X24 (removing and reordering participants).  [removeParticipant] sends
    a DELETE to [registrations/] with the id behind 'discord:' for a
    Discord id and to [participants/] with the id for a numeric one; it
    shows no error whatever the server replies.  [reorderParticipants]
    sends exactly the numeric ids of the list, in their order. *)
Theorem removeParticipant_routes_by_id st resp :
  (forall s,
      removeParticipant st (IdStr ("discord:" +:+ s)) resp
      = Sent {| method := "DELETE";
                url := "/api/tournaments/" +:+ numStr (tournamentId st)
                       +:+ "/registrations/" +:+ s;
                body := ∅ |} (errorOfNetwork resp))
  /\ (forall n,
        removeParticipant st (IdNum n) resp
        = Sent {| method := "DELETE";
                  url := "/api/tournaments/" +:+ numStr (tournamentId st)
                         +:+ "/participants/" +:+ toStr (IdNum n);
                  body := ∅ |} (errorOfNetwork resp))
  /\ (forall id ok status content,
        exists req, removeParticipant st id (Reply ok status content) = Sent req None)
  /\ (forall entryIds,
        (forall id, In id (manualIds entryIds) <-> In id entryIds /\ exists n, id = IdNum n)
        /\ sublist (manualIds entryIds) entryIds
        /\ (forall ns, manualIds (map IdNum ns) = map IdNum ns)
        /\ (forall ss, manualIds (map IdStr ss) = [])).
Proof.
  split; [|split; [|split]].
  - intros s. unfold removeParticipant. cbv zeta.
    destruct (discord_id s) as [-> Hrm]. cbn [toStr]. now rewrite Hrm.
  - reflexivity.
  - intros id ok status content. unfold removeParticipant. cbv zeta.
    destruct (match id with IdNum _ => false | IdStr s => startsWith s "discord:" end); eauto.
  - intros entryIds. split; [|split; [|split]].
    + intros id. unfold manualIds. rewrite List.filter_In. split.
      * intros [Hin Hnum]. split; [exact Hin|]. destruct id; [eauto|discriminate].
      * intros [Hin [n ->]]. auto.
    + unfold manualIds. induction entryIds as [|[n|s] l IH]; simpl.
      * constructor.
      * now apply sublist_skip.
      * now apply sublist_cons.
    + intros ns. unfold manualIds. induction ns as [|n ns IH]; [reflexivity|].
      simpl. now rewrite IH.
    + intros ss. unfold manualIds. induction ss as [|s ss IH]; [reflexivity|].
      simpl. exact IH.
Qed.

End RosterRequests.

Section RosterDrags.
Import Js Roster RosterDrag Samples.

Variable number : Type.
Variable Number : string -> number.
Variable isFinite : number -> bool.
Variable sameNumber : ident -> number -> bool.

Lemma p_drag_id s :
  startsWith ("p-" +:+ s) "p-" = true /\ removeFirst "p-" ("p-" +:+ s) = s.
Proof.
  change ("p-" +:+ s) with (String "p" (String "-" s)).
  unfold startsWith. split; cbn; now destruct s.
Qed.

(** X25 (dragging between the roster lists).  A drag calls [onMoveEntry]
    only for a participant row dropped on the standby zone, with an id that
    is a finite number and does not begin with 'discord:', or for a standby
    row dropped on the participants zone whose first entry with that id has
    [list_type] 'standby', hence is not in game.  The row of a Discord
    registration is never moved. *)
Theorem roster_drag_respects_locks (standby : list Entrant) (activeId : string)
    (over : option string) :
  (forall e to,
      handleDragEnd number Number isFinite sameNumber standby activeId over = Some (e, to) ->
      (to = "standby" /\ over = Some "zone-standby"
       /\ startsWith activeId "p-" = true
       /\ e = Number (removeFirst "p-" activeId) /\ isFinite e = true
       /\ startsWith (removeFirst "p-" activeId) "discord:" = false)
      \/ (to = "participant" /\ over = Some "zone-participants"
          /\ startsWith activeId "s-" = true
          /\ e = Number (removeFirst "s-" activeId)
          /\ exists item,
               List.find (fun s => sameNumber (entry_id s) e) standby = Some item
               /\ In item standby /\ sameNumber (entry_id item) e = true
               /\ list_type item = Some "standby" /\ inGame item = false))
  /\ (forall s zone,
        handleDragEnd number Number isFinite sameNumber standby
          ("p-" +:+ "discord:" +:+ s) zone = None)
  /\ (forall it zone,
        source it = Some "discord" ->
        (exists s, entry_id it = IdStr ("discord:" +:+ s)) ->
        handleDragEnd number Number isFinite sameNumber standby (dragId "p" it) zone = None).
Proof.
  assert (Hdiscord : forall s zone,
            handleDragEnd number Number isFinite sameNumber standby
              ("p-" +:+ "discord:" +:+ s) zone = None).
  { intros s [zone|]; [|reflexivity]. unfold handleDragEnd.
    destruct (p_drag_id ("discord:" +:+ s)) as [-> ->].
    destruct (discord_id s) as [-> _].
    rewrite andb_true_r, andb_false_r.
    destruct (bool_decide (zone = "zone-standby")); [reflexivity|].
    now rewrite andb_false_r. }
  split; [|split; [exact Hdiscord|]].
  - intros e to. unfold handleDragEnd. destruct over as [overId|]; [|discriminate].
    destruct (bool_decide (overId = "zone-standby") && startsWith activeId "p-") eqn:E1.
    + apply andb_true_iff in E1 as [Hzone Hp]. apply bool_decide_eq_true in Hzone as ->.
      destruct (isFinite _ && negb _) eqn:E2; [|discriminate].
      apply andb_true_iff in E2 as [Hfin Hd]. apply negb_true_iff in Hd.
      intros [= <- <-]. left. auto 10.
    + destruct (bool_decide (overId = "zone-participants") && startsWith activeId "s-") eqn:E2;
        [|discriminate].
      apply andb_true_iff in E2 as [Hzone Hs]. apply bool_decide_eq_true in Hzone as ->.
      destruct (List.find _ standby) as [item|] eqn:Hfind; [|discriminate].
      destruct (bool_decide (list_type item = Some "standby")) eqn:Hlt; [|discriminate].
      apply bool_decide_eq_true in Hlt.
      intros [= <- <-]. right.
      pose proof (List.find_some _ _ Hfind) as [Hin Hsame].
      split; [reflexivity|]. split; [reflexivity|]. split; [exact Hs|]. split; [reflexivity|].
      exists item. split; [exact Hfind|]. split; [exact Hin|]. split; [exact Hsame|].
      split; [exact Hlt|]. unfold inGame. rewrite (bool_decide_eq_true_2 _ Hlt).
      apply andb_false_r.
  - intros it zone _ [s Hid]. unfold dragId. rewrite Hid. apply Hdiscord.
Qed.

End RosterDrags.

Section TournamentSelection.
Import Js Navigation.

(** X20 (selected tournament).  Once a non-empty list has arrived,
    [fetchTournaments] selects a tournament of the list: the stored one when
    the list has it, the first of the list otherwise.  With an empty list it
    selects nothing. *)
Theorem selected_tournament_is_listed (saved : option Z) (list : list Tournament) :
  (list <> [] -> exists i, selectAfterFetch saved list = Some i
                           /\ In i (map tournament_id list))
  /\ (forall i, selectAfterFetch saved list = Some i -> In i (map tournament_id list))
  /\ (forall i, saved = Some i -> i <> 0 -> In i (map tournament_id list) ->
        selectAfterFetch saved list = Some i)
  /\ (forall first rest, list = first :: rest ->
        (forall i, saved = Some i -> ~ In i (map tournament_id list)) ->
        selectAfterFetch saved list = Some (tournament_id first))
  /\ (list = [] -> selectAfterFetch saved list = None).
Proof.
  assert (Hsome : forall i, selectAfterFetch saved list = Some i ->
                            In i (map tournament_id list)).
  { intros i. unfold selectAfterFetch. destruct list as [|first rest]; [discriminate|].
    destruct (truthyNum saved && _) eqn:E.
    - intros ->. apply andb_true_iff in E as [_ E].
      apply List.existsb_exists in E as (t & Ht & Hid).
      apply bool_decide_eq_true in Hid. injection Hid as <-. now apply List.in_map.
    - intros [= <-]. now left. }
  split; [|split; [exact Hsome|split; [|split]]].
  - intros Hne.
    assert (Hex : exists i, selectAfterFetch saved list = Some i).
    { unfold selectAfterFetch. destruct list as [|first rest]; [contradiction|].
      destruct saved as [i|]; [|simpl; eauto].
      destruct (_ && _); eauto. }
    destruct Hex as [i Hi]. eauto.
  - intros i -> Hi Hin. unfold selectAfterFetch. destruct list as [|first rest]; [destruct Hin|].
    assert (Hex : existsb (fun t => bool_decide (Some (tournament_id t) = Some i))
                          (first :: rest) = true).
    { apply List.in_map_iff in Hin as (t & <- & Ht). apply List.existsb_exists.
      exists t. split; [exact Ht|]. now apply bool_decide_eq_true_2. }
    rewrite Hex. simpl. apply Z.eqb_neq in Hi. now rewrite Hi.
  - intros first rest -> Hnot. unfold selectAfterFetch.
    destruct (truthyNum saved && _) eqn:E; [|reflexivity]. exfalso.
    apply andb_true_iff in E as [_ E]. apply List.existsb_exists in E as (t & Ht & Hid).
    apply bool_decide_eq_true in Hid. apply (Hnot (tournament_id t)); [now symmetry|].
    now apply List.in_map.
  - intros ->. reflexivity.
Qed.

End TournamentSelection.
